(** * local-web-search: the search command of [src/cli.ts]

    A shallow embedding of the command-line search pipeline: quote
    stripping, the per-query result cap and the search URL, the extraction
    of candidate links from the result page, the visit of one link, the
    aggregation of the settled visits, and the run of the whole command
    with its browser session. *)

From Stdlib Require Import ZArith NArith Lia Ascii String.
From stdpp Require Import base tactics option list sets numbers pretty.

Set Warnings "-register-all".

Local Open Scope list_scope.

(** ** JavaScript strings

    A JavaScript string is a sequence of UTF-16 code units. *)

Definition code_unit := N.
Definition js_string := list code_unit.

(** The code units of an ASCII literal of the source. *)
Definition lit (s : string) : js_string :=
  map N_of_ascii (list_ascii_of_string s).

Definition DQUOTE : code_unit := 34%N.

Definition is_dquote (c : code_unit) : bool := (c =? DQUOTE)%N.

(** ** [stripQuotes]

    The source replaces, globally, every match of a two-alternative
    pattern by the empty string.  Writing Q for the double quote, the
    pattern is [^Q|Q$]: each alternative consumes exactly one code unit, a
    Q at index 0 (the [^] assertion, without the [m] flag, holds at the
    start of the input only) or a Q that is the last code unit (the [$]
    assertion holds at the end of the input only).  With the [g] flag the
    text is scanned from left to right; a match is replaced by the empty
    string and the scan resumes after it, a code unit where no alternative
    matches is kept. *)

Module Regex.

(** The alternative [^Q] tried at index [i], where the code unit is [c]. *)
Definition alt_start (i : nat) (c : code_unit) : bool :=
  Nat.eqb i 0 && is_dquote c.

(** The alternative [Q$] tried at a code unit [c] followed by [rest]. *)
Definition alt_end (c : code_unit) (rest : js_string) : bool :=
  is_dquote c && match rest with [] => true | _ :: _ => false end.

Definition matches_at (i : nat) (c : code_unit) (rest : js_string) : bool :=
  alt_start i c || alt_end c rest.

(** The global replacement by the empty string, from index [i] on. *)
Fixpoint replace_from (i : nat) (text : js_string) : js_string :=
  match text with
  | [] => []
  | c :: rest =>
      if matches_at i c rest
      then replace_from (S i) rest
      else c :: replace_from (S i) rest
  end.

End Regex.

Definition stripQuotes (text : js_string) : js_string :=
  Regex.replace_from 0 text.



(** What one application does, in closed form: the first code unit goes if
    it is a quote, and so does the last one of what is left. *)

Definition drop_leading_quote (s : js_string) : js_string :=
  match s with
  | c :: rest => if is_dquote c then rest else s
  | [] => []
  end.

Fixpoint drop_trailing_quote (s : js_string) : js_string :=
  match s with
  | [] => []
  | c :: rest =>
      match rest with
      | [] => if is_dquote c then [] else [c]
      | _ :: _ => c :: drop_trailing_quote rest
      end
  end.

(** ** [encodeURIComponent]

    The built-in of the language: a code unit of the unescaped set (ASCII
    letters, digits and [-_.!~*'()]) is kept, any other code point is
    written as the percent-escaped octets of its UTF-8 encoding, and a
    surrogate code unit without its partner raises [URIError] ([None]). *)

Module URI.

Definition in_range (lo hi c : N) : bool := ((lo <=? c) && (c <=? hi))%N.

Definition is_unescaped (c : code_unit) : bool :=
  in_range 65 90 c || in_range 97 122 c || in_range 48 57 c
  || existsb (N.eqb c) [45; 95; 46; 33; 126; 42; 39; 40; 41]%N.

Definition is_lead_surrogate (c : code_unit) : bool := in_range 55296 56319 c.
Definition is_trail_surrogate (c : code_unit) : bool := in_range 56320 57343 c.

Definition code_point (lead trail : code_unit) : N :=
  ((lead - 55296) * 1024 + (trail - 56320) + 65536)%N.

Definition utf8 (cp : N) : list N :=
  (if cp <? 128 then [cp]
   else if cp <? 2048 then [192 + cp / 64; 128 + cp mod 64]
   else if cp <? 65536 then
     [224 + cp / 4096; 128 + (cp / 64) mod 64; 128 + cp mod 64]
   else
     [240 + cp / 262144; 128 + (cp / 4096) mod 64;
      128 + (cp / 64) mod 64; 128 + cp mod 64])%N.

Definition hex_digit (d : N) : code_unit :=
  (if d <? 10 then 48 + d else 55 + d)%N.

Definition PERCENT : code_unit := 37%N.

Definition escape_octet (b : N) : js_string :=
  [PERCENT; hex_digit (b / 16); hex_digit (b mod 16)]%N.

Definition escape (cp : N) : js_string := flat_map escape_octet (utf8 cp).

Fixpoint encodeURIComponent (s : js_string) : option js_string :=
  match s with
  | [] => Some []
  | c :: rest =>
      if is_unescaped c then cons c <$> encodeURIComponent rest
      else if is_trail_surrogate c then None
      else if is_lead_surrogate c then
        match rest with
        | d :: rest' =>
            if is_trail_surrogate d
            then app (escape (code_point c d)) <$> encodeURIComponent rest'
            else None
        | [] => None
        end
      else app (escape c) <$> encodeURIComponent rest
  end.

End URI.

(** ** Numbers

    A number of the program is an IEEE 754 double.  The numbers met here
    are the total of [--max-results], taken integer-valued, the length of
    the array of queries, their quotient, and integers computed from it.
    An integer-valued number is written as the integer it is; a quotient
    is written as a mantissa and an exponent, for the value
    mantissa * 2^exponent.  Every integer up to 2^53 is a number; above,
    the integers of 53 significant bits are, and no other reaches the
    program. *)
Module Number.

Local Open Scope Z_scope.

(** The integer nearest to [n / d], the even one of two equally near, for
    [n] not negative and [d] positive. *)
Definition round_half_even (n d : Z) : Z :=
  let q := n / d in
  match 2 * (n mod d) ?= d with
  | Lt => q
  | Gt => q + 1
  | Eq => if Z.even q then q else q + 1
  end.

(** The exponent of the last place of the 53 bits of [n / d], for [n] and
    [d] positive: the [e] with 2^52 <= (n / d) / 2^e < 2^53.  The divisor
    is the length of an array, below 2^32, so the quotient of an integer
    other than 0 is neither subnormal nor infinite. *)
Definition ulp_exponent (n d : Z) : Z :=
  let F := 53 + Z.log2 d in
  Z.log2 (n * 2 ^ F / d) - 52 - F.

(** [x / y] for an integer [x] and a positive integer [y]: the quotient
    rounded to 53 bits, to nearest and ties to even. *)
Definition div (x y : Z) : Z * Z :=
  if x =? 0 then (0, 0)
  else
    let e := ulp_exponent (Z.abs x) y in
    let m := round_half_even (Z.abs x * 2 ^ Z.max 0 (- e))
               (y * 2 ^ Z.max 0 e) in
    (Z.sgn x * m, e).

(** [Math.floor] *)
Definition floor (q : Z * Z) : Z :=
  let '(m, e) := q in
  if 0 <=? e then m * 2 ^ e else m / 2 ^ (- e).

(** The number nearest to the integer [n]: [n] itself up to 2^53, and [n]
    rounded to 53 bits above. *)
Definition nearest (n : Z) : Z := floor (div n 1).

Definition MAX_SAFE_INTEGER : Z := 2 ^ 53 - 1.

Definition digits (n : Z) : string := pretty n.

Definition digit_count (n : Z) : Z := Z.of_nat (String.length (digits n)).

(** The conversion of a number to a string takes the shortest decimal
    [s * 10^(n - k)], [s] of [k] digits, whose nearest number is the number
    converted, and of several such [s] the nearest one.  [shortest_at]
    looks for [s] among the integers of [k] digits, for a number [x] of [m]
    digits. *)
Definition shortest_at (x m k : Z) : option Z :=
  let step := 10 ^ (m - k) in
  let lo := x / step in
  let hi := lo + 1 in
  match nearest (lo * step) =? x, nearest (hi * step) =? x with
  | true, true =>
      match x - lo * step ?= hi * step - x with
      | Lt => Some lo
      | Gt => Some hi
      | Eq => Some (if Z.even lo then lo else hi)
      end
  | true, false => Some lo
  | false, true => Some hi
  | false, false => None
  end.

Fixpoint shortest_from (fuel : nat) (x m k : Z) : Z * Z :=
  match fuel with
  | O => (x, m)
  | S fuel' =>
      match shortest_at x m k with
      | Some s => (s, k)
      | None => shortest_from fuel' x m (k + 1)
      end
  end.

(** [s], [k] and [n] for a positive integer-valued [x]; a power of ten
    just above [x] and nearest to it is the one decimal of [m + 1]
    digits. *)
Definition shortest (x : Z) : Z * Z * Z :=
  let m := digit_count x in
  if nearest (10 ^ m) =? x then (1, 1, m + 1)
  else
    let '(s, k) := shortest_from (Z.to_nat m) x m 1 in
    (s, k, m).

Definition zeros (n : Z) : string :=
  fold_right String.append EmptyString (replicate (Z.to_nat n) "0"%string).

(** The digits of [s] and [n - k] zeros up to 21 digits, the exponent form
    above. *)
Definition to_string_positive (x : Z) : string :=
  let '(s, k, n) := shortest x in
  if n <=? 21 then (digits s ++ zeros (n - k))%string
  else if k =? 1 then (digits s ++ "e+" ++ digits (n - 1))%string
  else (String.substring 0 1 (digits s) ++ "."
        ++ String.substring 1 (String.length (digits s) - 1) (digits s)
        ++ "e+" ++ digits (n - 1))%string.

(** The string of an integer-valued number, as a template literal gives
    it. *)
Definition to_string (x : Z) : string :=
  if x =? 0 then "0"%string
  else if x <? 0 then ("-" ++ to_string_positive (- x))%string
  else to_string_positive x.

End Number.

(** ** The per-query cap and the search URL

    [options.maxResults] is a number or [undefined] ([None]); it is taken
    integer-valued here, as the command line gives it.  A number is falsy
    exactly when it is zero, so [a && b] is [a] when [a] is [undefined] or
    zero, and [a || 10] is 10 in the same two cases. *)

Definition is_falsy_number (n : Z) : bool := (n =? 0)%Z.

(** [options.maxResults && Math.max(3, Math.floor(options.maxResults /
    queries.length))], for at least one query. *)
Definition per_query_maxResults (maxResults : option Z) (queries_length : nat)
  : option Z :=
  match maxResults with
  | None => None
  | Some m =>
      if is_falsy_number m then Some m
      else Some (Z.max 3 (Number.floor
                            (Number.div m (Z.of_nat queries_length))))
  end.

(** [options.maxResults || 10] *)
Definition num_or_default (maxResults : option Z) : Z :=
  match maxResults with
  | None => 10
  | Some m => if is_falsy_number m then 10 else m
  end.

Definition number_to_string (n : Z) : js_string := lit (Number.to_string n).

Definition SEARCH_PREFIX : js_string := lit "https://www.google.com/search?q=".

Definition search_url (query : js_string) (maxResults : option Z)
  : option js_string :=
  q ← URI.encodeURIComponent (stripQuotes query);
  Some (SEARCH_PREFIX ++ q ++ lit "&num="
        ++ number_to_string (num_or_default maxResults)).

(** ** The document of a page *)

Inductive node :=
| Text (data : js_string)
| Element (tag : js_string) (attrs : list (js_string * js_string))
    (children : list node).

Inductive selector :=
| ByClass (name : js_string)
| ByType (name : js_string).

Definition is_empty (s : js_string) : bool :=
  match s with [] => true | _ :: _ => false end.

Definition is_ascii_whitespace (c : code_unit) : bool :=
  existsb (N.eqb c) [9; 10; 12; 13; 32]%N.

(** The tokens of a [class] attribute: maximal runs without whitespace. *)
Fixpoint tokens_from (current : js_string) (s : js_string) : list js_string :=
  match s with
  | [] => if is_empty current then [] else [current]
  | c :: rest =>
      if is_ascii_whitespace c
      then (if is_empty current then tokens_from [] rest
            else current :: tokens_from [] rest)
      else tokens_from (current ++ [c]) rest
  end.

Definition getAttribute (name : js_string) (n : node) : option js_string :=
  match n with
  | Text _ => None
  | Element _ attrs _ =>
      snd <$> List.find (fun kv => bool_decide (fst kv = name)) attrs
  end.

Definition classList (n : node) : list js_string :=
  match getAttribute (lit "class") n with
  | Some v => tokens_from [] v
  | None => []
  end.

Definition matches (sel : selector) (n : node) : bool :=
  match n with
  | Text _ => false
  | Element tag _ _ =>
      match sel with
      | ByClass name => bool_decide (name ∈ classList n)
      | ByType name => bool_decide (tag = name)
      end
  end.

(** The elements of a subtree in tree order, the root first. *)
Fixpoint subtree_elements (n : node) : list node :=
  match n with
  | Text _ => []
  | Element _ _ children => n :: flat_map subtree_elements children
  end.

Definition descendants (n : node) : list node :=
  match n with
  | Text _ => []
  | Element _ _ children => flat_map subtree_elements children
  end.

Fixpoint textContent (n : node) : js_string :=
  match n with
  | Text data => data
  | Element _ _ children => flat_map textContent children
  end.

(** [document.querySelectorAll(sel)], the document given by its root
    element, and [element.querySelector(sel)], which searches below the
    element. *)
Definition querySelectorAll (sel : selector) (document : node) : list node :=
  List.filter (matches sel) (subtree_elements document).

Definition querySelector (sel : selector) (element : node) : option node :=
  head (List.filter (matches sel) (descendants element)).

(** ** The candidate links of the result page *)

Record SearchResult := {
  sr_title : js_string;
  sr_url : js_string;
  sr_content : option js_string;
}.

(** [x || ""] for [x] a string, [null] or [undefined]. *)
Definition or_empty (x : option js_string) : js_string := default [] x.

(** The body of the [forEach] callback: the item of one result container
    and the [push] unless a field is empty. *)
Definition container_item (element : node) : SearchResult :=
  let titleEl := querySelector (ByType (lit "h3")) element in
  let urlEl := querySelector (ByType (lit "a")) element in
  {| sr_title := or_empty (textContent <$> titleEl);
     sr_url := or_empty (urlEl ≫= getAttribute (lit "href"));
     sr_content := None |}.

Definition push_link (links : list SearchResult) (element : node)
  : list SearchResult :=
  let item := container_item element in
  if is_empty (sr_title item) || is_empty (sr_url item) then links
  else links ++ [item].

Definition extract_links (document : node) : list SearchResult :=
  fold_left push_link (querySelectorAll (ByClass (lit "g")) document) [].

(** The extraction as the specification words it: the containers in
    document order, those with an empty title or url skipped. *)
Definition has_both_fields (item : SearchResult) : bool :=
  negb (is_empty (sr_title item)) && negb (is_empty (sr_url item)).

Definition candidate_links_spec (document : node) : list SearchResult :=
  List.filter has_both_fields
    (map container_item (querySelectorAll (ByClass (lit "g")) document)).

(** ** Errors, events and the effects of a task

    A task of the program runs against the browser: it opens a page, drives
    it and logs.  What the program does to the outside is recorded as a
    trace of events.  [EQueueAdd q i url] is the submission to the queue of
    the visit of link [i] of query [q]; the settlement events
    ([ESearchSettled], [EVisitSettled]) mark the instant the promise of a
    call of [search] or of a queued visit settles and serve to state the
    order of things. *)

Inductive js_error :=
| WebSearchError (message : js_string)
| JsError (name message : js_string)
| URIError
| Thrown (value : js_string).

Record VisitResult := {
  v_content : js_string;
  v_title : js_string;
  v_url : js_string;
}.

Definition page_id := nat.

Inductive event :=
| EBrowserLaunch
| EBrowserClose
| ENewPage (page : page_id)
| EGoto (page : page_id) (url : js_string)
| EPageClose (page : page_id)
| ELogLinks (query : js_string) (links : list SearchResult)
| ELogContent (content : js_string)
| ELogFinal (query : js_string) (results : list (option VisitResult))
| EConsoleError (shown : js_string + js_error)
| EQueueAdd (q i : nat) (url : js_string)
| ESearchSettled (q : nat) (fulfilled : bool)
| EVisitSettled (q i : nat) (fulfilled : bool).

Record state := {
  next_page : page_id;
  trace : list event;
}.

Definition initial_state : state := {| next_page := 0; trace := [] |}.

Definition record (e : event) (st : state) : state :=
  {| next_page := next_page st; trace := trace st ++ [e] |}.

Definition record_all (es : list event) (st : state) : state :=
  {| next_page := next_page st; trace := trace st ++ es |}.

Inductive result (A : Type) :=
| Normal (value : A)
| Throw (error : js_error).
Arguments Normal {A} value.
Arguments Throw {A} error.

(** A computation that reads and extends the state and returns or throws. *)
Definition M (A : Type) : Type := state -> result A * state.

Definition ret {A} (a : A) : M A := fun st => (Normal a, st).

Definition throw {A} (e : js_error) : M A := fun st => (Throw e, st).

Definition bind {A B} (m : M A) (k : A -> M B) : M B :=
  fun st =>
    match m st with
    | (Normal a, st') => k a st'
    | (Throw e, st') => (Throw e, st')
    end.

Definition emit (e : event) : M unit := fun st => (Normal tt, record e st).

Declare Scope js_scope.
Delimit Scope js_scope with js.
Notation "'await' x := m 'in' k" := (bind m (fun x => k))
  (at level 10, x name, m at level 100, k at level 200) : js_scope.
Notation "m ';;;' k" := (bind m (fun _ => k))
  (at level 100, k at level 200, right associativity) : js_scope.

(** What the outside world does to one page: which of the calls on it
    rejects, and what the loaded document holds.  [readability] is the
    result of the readability parse after the noise removal of the
    evaluated script ([None] for null). *)

Record article := {
  a_content : js_string;
  a_title : js_string;
}.

Record page_behaviour := {
  newPage_error : option js_error;
  applyStealthScripts_error : option js_error;
  setRequestInterception_error : option js_error;
  goto_error : option js_error;
  addScriptTag_error : option js_error;
  evaluate_error : option js_error;
  close_error : option js_error;
  page_document : node;
  document_title : js_string;
  readability : option article;
}.

Definition rejects_with (err : option js_error) : M unit :=
  match err with
  | Some e => throw e
  | None => ret tt
  end.

Definition newPage (pb : page_behaviour) : M page_id :=
  fun st =>
    match newPage_error pb with
    | Some e => (Throw e, st)
    | None =>
        let page := next_page st in
        (Normal page,
         {| next_page := S page; trace := trace st ++ [ENewPage page] |})
    end.

Definition applyStealthScripts (pb : page_behaviour) (page : page_id)
  : M unit :=
  rejects_with (applyStealthScripts_error pb).

Definition interceptRequest (pb : page_behaviour) (page : page_id) : M unit :=
  (applyStealthScripts pb page ;;;
   rejects_with (setRequestInterception_error pb))%js.

Definition goto (pb : page_behaviour) (page : page_id) (url : js_string)
  : M unit :=
  (emit (EGoto page url) ;;; rejects_with (goto_error pb))%js.

Definition addScriptTag (pb : page_behaviour) (page : page_id) : M unit :=
  rejects_with (addScriptTag_error pb).

Definition page_close (pb : page_behaviour) (page : page_id) : M unit :=
  (emit (EPageClose page) ;;; rejects_with (close_error pb))%js.

(** The script evaluated on an article page: [content] and [title]. *)
Definition evaluate_article (pb : page_behaviour) (page : page_id)
  : M (js_string * js_string) :=
  (rejects_with (evaluate_error pb) ;;;
   let content := or_empty (a_content <$> readability pb) in
   let title := document_title pb in
   let article_title := or_empty (a_title <$> readability pb) in
   ret (content, if is_empty article_title then title else article_title))%js.

(** The script evaluated on the result page. *)
Definition evaluate_links (pb : page_behaviour) (page : page_id)
  : M (list SearchResult) :=
  (rejects_with (evaluate_error pb) ;;;
   ret (extract_links (page_document pb)))%js.

Inductive settled (A : Type) :=
| Fulfilled (value : A)
| Rejected (reason : js_error).
Arguments Fulfilled {A} value.
Arguments Rejected {A} reason.

Definition settle {A} (r : result A) : settled A :=
  match r with
  | Normal a => Fulfilled a
  | Throw e => Rejected e
  end.

Definition is_fulfilled {A} (o : settled A) : bool :=
  match o with Fulfilled _ => true | Rejected _ => false end.

(** The result list of the final log: [null] for a rejected item, then the
    items with a truthy [content] kept. *)
Definition value_or_null (item : settled VisitResult) : option VisitResult :=
  match item with
  | Fulfilled value => Some value
  | Rejected _ => None
  end.

Definition has_content (v : option VisitResult) : bool :=
  match v with
  | Some value => negb (is_empty (v_content value))
  | None => false
  end.

Definition final_results (finalResults : list (settled VisitResult))
  : list (option VisitResult) :=
  List.filter has_content (map value_or_null finalResults).

Inductive task :=
| TSearch
| TVisit (i : nat).

Inductive pipeline :=
| Searching
| Visiting (links : list SearchResult)
    (slots : list (option (settled VisitResult)))
| SearchFulfilled
| SearchRejected (error : js_error).

Record search_options := {
  so_query : js_string;
  so_maxResults : option Z;
}.

Inductive query_option :=
| QueryUndefined
| QueryString (s : js_string)
| QueryArray (a : list js_string).

Record options := {
  query : query_option;
  concurrency : option Z;
  show : option bool;
  maxResults : option Z;
  browser : option js_string;
}.

(** What the outside world does during a run: whether the browser
    launches, whether the queue accepts its options, and which task
    completes next, on a page that behaves how. *)
Record environment := {
  launch_error : option js_error;
  queue_error : option js_error;
  schedule : list (nat * task * page_behaviour);
}.

Section Pipeline.

(** The conversion of the [to-markdown] module, taken as given. *)
Variable toMarkdown : js_string -> js_string.

Definition visitLink (pb : page_behaviour) (url : js_string) : M VisitResult :=
  (await page := newPage pb in
   interceptRequest pb page ;;;
   goto pb page url ;;;
   addScriptTag pb page ;;;
   await result := evaluate_article pb page in
   page_close pb page ;;;
   let content := toMarkdown (fst result) in
   emit (ELogContent content) ;;;
   ret {| v_content := content; v_title := snd result; v_url := url |})%js.

(** [search] up to the first log: the result page and its links. *)
Definition search_page (pb : page_behaviour) (opts : search_options)
  : M (list SearchResult) :=
  (await page := newPage pb in
   interceptRequest pb page ;;;
   await url := (match search_url (so_query opts) (so_maxResults opts) with
                 | Some u => ret u
                 | None => throw URIError
                 end) in
   goto pb page url ;;;
   await links := evaluate_links pb page in
   emit (ELogLinks (so_query opts) links) ;;;
   ret links)%js.

(** [Promise.allSettled] collects by index: it resolves, with the
    settlements in the order of its argument, once every slot is filled. *)
Definition all_settled (slots : list (option (settled VisitResult)))
  : option (list (settled VisitResult)) :=
  mapM id slots.

(** The rest of [search] once the visits have all settled: the final log. *)
Definition finish (q : nat) (opts : search_options)
    (links : list SearchResult) (slots : list (option (settled VisitResult)))
    (st : state) : pipeline * state :=
  match all_settled slots with
  | Some finalResults =>
      (SearchFulfilled,
       record (ESearchSettled q true)
         (record (ELogFinal (so_query opts) (final_results finalResults)) st))
  | None => (Visiting links slots, st)
  end.

(** The calls of [queue.add], one per link and in the order of the links. *)
Definition queue_adds (q : nat) (links : list SearchResult) : list event :=
  imap (fun i item => EQueueAdd q i (sr_url item)) links.

(** One pipeline, one task completing.  A [TSearch] entry lets the pipeline
    load its result page and submit one visit per link to the queue; a
    [TVisit i] entry lets the queued visit of link [i] run to its end, its
    settlement stored in slot [i].  An entry for a task that is not waiting
    changes nothing.  A task runs to its end in one step: the ceiling of
    the queue delays the start of a visit, which does not show at this
    grain, and the order of the schedule is the order of completion. *)
Definition search_step (q : nat) (opts : search_options) (t : task)
    (pb : page_behaviour) (p : pipeline) (st : state) : pipeline * state :=
  match p, t with
  | Searching, TSearch =>
      match search_page pb opts st with
      | (Normal links, st1) =>
          finish q opts links (replicate (length links) None)
            (record_all (queue_adds q links) st1)
      | (Throw e, st1) =>
          (SearchRejected e, record (ESearchSettled q false) st1)
      end
  | Visiting links slots, TVisit i =>
      match links !! i, slots !! i with
      | Some item, Some None =>
          let '(r, st1) := visitLink pb (sr_url item) st in
          let o := settle r in
          finish q opts links (<[i := Some o]> slots)
            (record (EVisitSettled q i (is_fulfilled o)) st1)
      | _, _ => (p, st)
      end
  | _, _ => (p, st)
  end.

(** One pipeline on its own, from state [p] on. *)
Fixpoint search_run (q : nat) (opts : search_options)
    (sched : list (task * page_behaviour)) (p : pipeline) (st : state)
  : pipeline * state :=
  match sched with
  | [] => (p, st)
  | (t, pb) :: sched' =>
      let '(p', st') := search_step q opts t pb p st in
      search_run q opts sched' p' st'
  end.

(** [search], its tasks completing in the order of the schedule. *)
Definition search (q : nat) (opts : search_options)
    (sched : list (task * page_behaviour)) (st : state) : pipeline * state :=
  search_run q opts sched Searching st.

(** What a visit and a result page come to, and the events they add, apart
    from the state they start in. *)
Definition visit_outcome (pb : page_behaviour) (url : js_string)
  : result VisitResult :=
  (visitLink pb url initial_state).1.

Definition visit_events (pb : page_behaviour) (url : js_string)
    (page : page_id) : list event :=
  trace (visitLink pb url {| next_page := page; trace := [] |}).2.

Definition search_outcome (pb : page_behaviour) (opts : search_options)
  : result (list SearchResult) :=
  (search_page pb opts initial_state).1.

Definition search_events (pb : page_behaviour) (opts : search_options)
    (page : page_id) : list event :=
  trace (search_page pb opts {| next_page := page; trace := [] |}).2.

Definition pages_opened (pb : page_behaviour) : nat :=
  match newPage_error pb with
  | Some _ => 0
  | None => 1
  end.

Definition rejection (p : pipeline) : option js_error :=
  match p with
  | SearchRejected e => Some e
  | _ => None
  end.

Definition is_search_fulfilled (p : pipeline) : bool :=
  match p with
  | SearchFulfilled => true
  | _ => false
  end.

Definition first_rejection (pipes : list pipeline) : option js_error :=
  head (omap rejection pipes).

(** [await Promise.all(queries.map(search))]: it throws the first rejection
    as soon as one pipeline rejects, returns when all have fulfilled, and
    otherwise waits for the next task to complete; [None] when the
    schedule ends with a pipeline still waiting (the promise never
    settles). *)
Fixpoint promise_all (searches : list search_options)
    (sched : list (nat * task * page_behaviour)) (pipes : list pipeline)
    (st : state) : option (result unit) * state :=
  match first_rejection pipes with
  | Some e => (Some (Throw e), st)
  | None =>
      if forallb is_search_fulfilled pipes then (Some (Normal tt), st)
      else
        match sched with
        | [] => (None, st)
        | (q, t, pb) :: sched' =>
            match searches !! q, pipes !! q with
            | Some opts, Some p =>
                let '(p', st') := search_step q opts t pb p st in
                promise_all searches sched' (<[q := p']> pipes) st'
            | _, _ => promise_all searches sched' pipes st
            end
        end
  end.

(** A value is falsy when [undefined] or the empty string; an array is
    truthy. *)
Definition query_missing (q : query_option) : bool :=
  match q with
  | QueryUndefined => true
  | QueryString s => is_empty s
  | QueryArray _ => false
  end.

Definition queries_of (q : query_option) : list js_string :=
  match q with
  | QueryArray a => a
  | QueryString s => [s]
  | QueryUndefined => []
  end.

(** The arguments of the calls of [search], one per query. *)
Definition search_calls (o : options) : list search_options :=
  let queries := queries_of (query o) in
  let maxResults := per_query_maxResults (maxResults o) (length queries) in
  map (fun query => {| so_query := query; so_maxResults := maxResults |})
    queries.

(** [launchBrowser]: the browser is found and launched, or the call
    rejects. *)
Definition launchBrowser (env : environment) : M unit :=
  match launch_error env with
  | Some e => throw e
  | None => emit EBrowserLaunch
  end.

(** The action of the [search] command.  The browser is bound by
    [await using]: once it is launched, leaving the block, by return or by
    throw, closes it.  The queue is made after the launch; its constructor
    may refuse the options. *)
Definition action (o : options) (env : environment) (st : state)
  : option (result unit) * state :=
  if query_missing (query o)
  then (Some (Throw (JsError (lit "Error") (lit "missing query"))), st)
  else
    let searches := search_calls o in
    match launchBrowser env st with
    | (Throw e, st0) => (Some (Throw e), st0)
    | (Normal _, st0) =>
        match queue_error env with
        | Some e => (Some (Throw e), record EBrowserClose st0)
        | None =>
            match promise_all searches (schedule env)
                    (replicate (length searches) Searching) st0 with
            | (Some r, st') => (Some r, record EBrowserClose st')
            | (None, st') => (None, st')
            end
        end
    end.

(** What the [catch] of [main] prints. *)
Definition error_shown (e : js_error) : js_string + js_error :=
  match e with
  | WebSearchError message => inl message
  | JsError name message =>
      if bool_decide (name = lit "CACError") then inl message else inr e
  | _ => inr e
  end.

(** [main]: the exit code of the process once the command has run ([None]
    while it never ends) and the final state.  [process.exitCode] is
    assigned in the [catch] only; left unassigned, the process exits
    with 0.  The trace is that of [main] up to its end: a pipeline still
    waiting when [Promise.all] rejects goes on past it, as [search] does
    over the rest of its schedule. *)
Definition main (o : options) (env : environment) : option Z * state :=
  match action o env initial_state with
  | (Some (Normal _), st) => (Some 0%Z, st)
  | (Some (Throw e), st) =>
      (Some 1%Z, record (EConsoleError (error_shown e)) st)
  | (None, st) => (None, st)
  end.

End Pipeline.

(** ** The steps of a pipeline as a relation

    [pipe_transition q opts page t pb p p' evs]: the completion of task [t]
    on a page that behaves as [pb], the next page number being [page],
    takes pipeline [q] from [p] to [p'] and adds the events [evs]. *)

Section Transitions.

Variable toMarkdown : js_string -> js_string.

Inductive pipe_transition (q : nat) (opts : search_options) (page : page_id)
  : task -> page_behaviour -> pipeline -> pipeline -> list event -> Prop :=
| transition_search_rejected pb e :
    search_outcome pb opts = Throw e ->
    pipe_transition q opts page TSearch pb Searching (SearchRejected e)
      (search_events pb opts page ++ [ESearchSettled q false])
| transition_search_no_links pb :
    search_outcome pb opts = Normal [] ->
    pipe_transition q opts page TSearch pb Searching SearchFulfilled
      (search_events pb opts page
       ++ [ELogFinal (so_query opts) (final_results []);
           ESearchSettled q true])
| transition_search_links pb links :
    search_outcome pb opts = Normal links ->
    links <> [] ->
    pipe_transition q opts page TSearch pb Searching
      (Visiting links (replicate (length links) None))
      (search_events pb opts page ++ queue_adds q links)
| transition_visit pb links slots i item o :
    links !! i = Some item ->
    slots !! i = Some None ->
    o = settle (visit_outcome toMarkdown pb (sr_url item)) ->
    all_settled (<[i := Some o]> slots) = None ->
    pipe_transition q opts page (TVisit i) pb (Visiting links slots)
      (Visiting links (<[i := Some o]> slots))
      (visit_events toMarkdown pb (sr_url item) page
       ++ [EVisitSettled q i (is_fulfilled o)])
| transition_visit_last pb links slots i item o finalResults :
    links !! i = Some item ->
    slots !! i = Some None ->
    o = settle (visit_outcome toMarkdown pb (sr_url item)) ->
    all_settled (<[i := Some o]> slots) = Some finalResults ->
    pipe_transition q opts page (TVisit i) pb (Visiting links slots)
      SearchFulfilled
      (visit_events toMarkdown pb (sr_url item) page
       ++ [EVisitSettled q i (is_fulfilled o);
           ELogFinal (so_query opts) (final_results finalResults);
           ESearchSettled q true]).

(** The settlement of the visit of each link, in the order of the links,
    when the page of link [i] behaves as [beh i]; the schedule in which the
    visits complete in the order [order]; and the slots once the visits
    [done] have completed. *)
Definition link_outcomes (beh : nat -> page_behaviour)
    (links : list SearchResult) : list (settled VisitResult) :=
  imap (fun i link => settle (visit_outcome toMarkdown (beh i) (sr_url link)))
    links.

Definition visit_entries (beh : nat -> page_behaviour) (order : list nat)
  : list (task * page_behaviour) :=
  map (fun i => (TVisit i, beh i)) order.

Definition partial_slots (outcomes : list (settled VisitResult))
    (done : list nat) : list (option (settled VisitResult)) :=
  imap (fun i o => if bool_decide (i ∈ done) then Some o else None) outcomes.

(** The settlements [outcomes] are those of the visits of [links], index
    by index, each on a page of a [TVisit] entry of the schedule for that
    index. *)
Definition aligned (sched0 : list (nat * task * page_behaviour)) (q : nat)
    (links : list SearchResult) (outcomes : list (settled VisitResult))
  : Prop :=
  length outcomes = length links
  /\ forall i o,
       outcomes !! i = Some o ->
       exists link pb,
         links !! i = Some link
         /\ (q, TVisit i, pb) ∈ sched0
         /\ o = settle (visit_outcome toMarkdown pb (sr_url link)).

(** All along a run the filled slots of a pipeline, and the final logs, are
    aligned with the links. *)
Definition order_inv (sched0 : list (nat * task * page_behaviour))
    (pipes : list pipeline) (st : state) : Prop :=
  (forall q links slots,
      pipes !! q = Some (Visiting links slots) ->
      length slots = length links
      /\ forall i o,
           slots !! i = Some (Some o) ->
           exists link pb,
             links !! i = Some link
             /\ (q, TVisit i, pb) ∈ sched0
             /\ o = settle (visit_outcome toMarkdown pb (sr_url link)))
  /\ (forall text results,
         ELogFinal text results ∈ trace st ->
         exists q links outcomes,
           results = final_results outcomes
           /\ aligned sched0 q links outcomes).

End Transitions.

(** ** Sample pages and runs *)

Definition sample_container (title href : string) : node :=
  Element (lit "div") [(lit "class", lit "g")]
    [Element (lit "h3") [] [Text (lit title)];
     Element (lit "a") [(lit "href", lit href)] []].

(** A result page with two well-formed containers, one without title text
    and one without href. *)
Definition sample_results : node :=
  Element (lit "html") []
    [Element (lit "body") []
       [sample_container "Rocq" "https://rocq-prover.org/";
        sample_container "" "https://example.org/untitled";
        sample_container "No link" "";
        sample_container "Iris" "https://iris-project.org/"]].

Definition page_ok (document : node) (title : string)
    (parsed : option article) : page_behaviour :=
  {| newPage_error := None; applyStealthScripts_error := None;
     setRequestInterception_error := None;
     goto_error := None; addScriptTag_error := None;
     evaluate_error := None; close_error := None;
     page_document := document; document_title := lit title;
     readability := parsed |}.

Definition results_page : page_behaviour :=
  page_ok sample_results "results" None.

Definition article_page : page_behaviour :=
  page_ok (Element (lit "html") [] []) "An article"
    (Some {| a_content := lit "<p>text</p>"; a_title := lit "Article" |}).

(** A page whose navigation fails. *)
Definition navigation_failure : page_behaviour :=
  {| newPage_error := None; applyStealthScripts_error := None;
     setRequestInterception_error := None;
     goto_error := Some (JsError (lit "Error") (lit "net::ERR_FAILED"));
     addScriptTag_error := None; evaluate_error := None;
     close_error := None;
     page_document := Element (lit "html") [] [];
     document_title := []; readability := None |}.

Definition sample_options (queries : list string) (total : option Z)
  : options :=
  {| query := QueryArray (map lit queries); concurrency := None;
     show := None; maxResults := total; browser := None |}.

(** The links of [sample_results]. *)
Definition sample_links : list SearchResult :=
  [{| sr_title := lit "Rocq"; sr_url := lit "https://rocq-prover.org/";
      sr_content := None |};
   {| sr_title := lit "Iris"; sr_url := lit "https://iris-project.org/";
      sr_content := None |}].

Definition sample_search : search_options :=
  {| so_query := lit "proof assistant"; so_maxResults := Some 5%Z |}.

(** The page of the second link fails to load, the others are articles. *)
Definition second_fails (i : nat) : page_behaviour :=
  if Nat.eqb i 1 then navigation_failure else article_page.

Definition no_query : options :=
  {| query := QueryUndefined; concurrency := None; show := None;
     maxResults := None; browser := None |}.

(** One query; its second visit completes first, its first visit fails. *)
Definition sample_environment : environment :=
  {| launch_error := None; queue_error := None;
     schedule := [(0, TSearch, results_page); (0, TVisit 1, article_page);
                  (0, TVisit 0, navigation_failure)] |}.

(** ** Observations on a trace *)

Definition count (f : event -> bool) (tr : list event) : nat :=
  length (List.filter f tr).

Definition is_page_close (page : page_id) (e : event) : bool :=
  match e with
  | EPageClose p => Nat.eqb p page
  | _ => false
  end.

Definition is_new_page (page : page_id) (e : event) : bool :=
  match e with
  | ENewPage p => Nat.eqb p page
  | _ => false
  end.

Definition is_browser_close (e : event) : bool :=
  match e with
  | EBrowserClose => true
  | _ => false
  end.

Definition is_browser_launch (e : event) : bool :=
  match e with
  | EBrowserLaunch => true
  | _ => false
  end.

Definition is_browser_work (e : event) : bool :=
  match e with
  | EBrowserLaunch | EBrowserClose | ENewPage _ | EGoto _ _ | EPageClose _ =>
      true
  | _ => false
  end.

(** The events of a task on its own page. *)
Definition is_task_event (e : event) : bool :=
  match e with
  | ENewPage _ | EGoto _ _ | EPageClose _ | ELogLinks _ _ | ELogContent _ =>
      true
  | _ => false
  end.

(** The events of pipeline [q]: those of its tasks, its submissions to the
    queue, its settlements and its final log. *)
Definition is_pipeline_event (q : nat) (e : event) : bool :=
  match e with
  | EBrowserLaunch | EBrowserClose | EConsoleError _ => false
  | EQueueAdd q' _ _ | ESearchSettled q' _ | EVisitSettled q' _ _ =>
      Nat.eqb q' q
  | _ => true
  end.

Definition is_search_settled (q : nat) (e : event) : bool :=
  match e with
  | ESearchSettled q' _ => Nat.eqb q' q
  | _ => false
  end.

Definition is_visit_settled (q i : nat) (e : event) : bool :=
  match e with
  | EVisitSettled q' i' _ => Nat.eqb q' q && Nat.eqb i' i
  | _ => false
  end.

(** The final results logged, in the order of the log. *)
Definition logged_final (tr : list event)
  : list (js_string * list (option VisitResult)) :=
  omap (fun e => match e with
                 | ELogFinal query results => Some (query, results)
                 | _ => None
                 end) tr.

Definition is_session_event (e : event) : bool :=
  is_browser_launch e || is_browser_close e.

(** Pages are numbered in the order they are opened: a page is opened at
    most once, closed only when opened and at most once, and a number not
    yet given out has no event. *)
Definition pages_wf (st : state) : Prop :=
  forall page,
    count (is_page_close page) (trace st)
    <= count (is_new_page page) (trace st)
    /\ count (is_new_page page) (trace st) <= 1
    /\ (next_page st <= page -> count (is_new_page page) (trace st) = 0).

(** What the trace holds of pipeline [q] in each of its states. *)
Definition pipe_inv (q : nat) (p : pipeline) (tr : list event) : Prop :=
  match p with
  | Searching => forall i u, EQueueAdd q i u ∉ tr
  | Visiting links slots =>
      length slots = length links
      /\ (forall i u, EQueueAdd q i u ∈ tr -> i < length links)
      /\ (forall i o, slots !! i = Some (Some o) ->
                      EVisitSettled q i (is_fulfilled o) ∈ tr)
  | SearchFulfilled =>
      ESearchSettled q true ∈ tr
      /\ (forall i u, EQueueAdd q i u ∈ tr ->
                      exists b, EVisitSettled q i b ∈ tr)
  | SearchRejected _ => ESearchSettled q false ∈ tr
  end.

Definition is_queue_add (q i : nat) (e : event) : bool :=
  match e with
  | EQueueAdd q' i' _ => Nat.eqb q' q && Nat.eqb i' i
  | _ => false
  end.

(** What holds of the pipelines and the state all along the wait of
    [Promise.all], for the calls [searches] and the schedule [sched0]:
    the pages are well numbered; a final log is a filtered list of settled
    visits; the trace, after the launch, holds events of the pipelines
    only; each pipeline has the trace it should; and a rejected pipeline
    got its error from the result page of a [TSearch] entry. *)
Definition run_inv (searches : list search_options)
    (sched0 : list (nat * task * page_behaviour)) (pipes : list pipeline)
    (st : state) : Prop :=
  pages_wf st
  /\ (forall query results,
         ELogFinal query results ∈ trace st ->
         exists fr, results = final_results fr)
  /\ (exists evs,
         trace st = EBrowserLaunch :: evs
         /\ forall e, e ∈ evs ->
                      exists q, q < length pipes
                                /\ is_pipeline_event q e = true)
  /\ (forall q p, pipes !! q = Some p -> pipe_inv q p (trace st))
  /\ (forall e, SearchRejected e ∈ pipes ->
                exists q pb opts,
                  (q, TSearch, pb) ∈ sched0
                  /\ searches !! q = Some opts
                  /\ search_outcome pb opts = Throw e).

(** ** Further observations *)

Definition is_surrogate (c : code_unit) : bool :=
  URI.is_lead_surrogate c || URI.is_trail_surrogate c.

(** The link a node gives by itself: its item when it is a result container
    with both fields. *)
Definition own_link (n : node) : list SearchResult :=
  if matches (ByClass (lit "g")) n && has_both_fields (container_item n)
  then [container_item n]
  else [].

Definition is_console_error (e : event) : bool :=
  match e with
  | EConsoleError _ => true
  | _ => false
  end.

Definition is_goto (e : event) : bool :=
  match e with
  | EGoto _ _ => true
  | _ => false
  end.

(** What the trace holds of the visits of pipeline [q]: a link is put on
    the queue once, when the links are known, and its visit settles once,
    when its slot is filled. *)
Definition visit_inv (q : nat) (p : pipeline) (tr : list event) : Prop :=
  match p with
  | Searching | SearchRejected _ =>
      forall i, count (is_queue_add q i) tr = 0
                /\ count (is_visit_settled q i) tr = 0
  | Visiting links slots =>
      length slots = length links
      /\ forall i,
           count (is_queue_add q i) tr
           = (if decide (i < length links) then 1 else 0)
           /\ count (is_visit_settled q i) tr
              = match slots !! i with
                | Some (Some _) => 1
                | _ => 0
                end
  | SearchFulfilled =>
      forall i, count (is_visit_settled q i) tr = count (is_queue_add q i) tr
                /\ count (is_queue_add q i) tr <= 1
  end.

Definition visits_inv (pipes : list pipeline) (st : state) : Prop :=
  (forall q p, pipes !! q = Some p -> visit_inv q p (trace st))
  /\ (forall q, length pipes <= q ->
                forall i, count (is_queue_add q i) (trace st) = 0
                          /\ count (is_visit_settled q i) (trace st) = 0).

(** The queries of the pipelines that have fulfilled, in the order of the
    calls of [search]. *)
Definition fulfilled_queries (searches : list search_options)
    (pipes : list pipeline) : list js_string :=
  omap (fun x => if is_search_fulfilled x.2 then Some (so_query x.1) else None)
    (zip searches pipes).

(** The final logs are under the queries of the fulfilled pipelines, one
    for each. *)
Definition final_logs_inv (searches : list search_options)
    (pipes : list pipeline) (st : state) : Prop :=
  (logged_final (trace st)).*1 ≡ₚ fulfilled_queries searches pipes.

(** Every pipeline that got past its result page did so on a scheduled
    completion of its own search task whose page gave the links. *)
Definition loaded_inv (searches : list search_options)
    (sched0 : list (nat * task * page_behaviour)) (pipes : list pipeline)
  : Prop :=
  forall q p,
    pipes !! q = Some p ->
    p = SearchFulfilled \/ (exists links slots, p = Visiting links slots) ->
    exists pb opts links,
      (q, TSearch, pb) ∈ sched0
      /\ searches !! q = Some opts
      /\ search_outcome pb opts = Normal links.

(** * Properties *)

(** ** Quote stripping *)

Lemma is_dquote_true c : is_dquote c = true <-> c = DQUOTE.
Proof. unfold is_dquote. apply N.eqb_eq. Qed.

Lemma is_dquote_false c : is_dquote c = false <-> c <> DQUOTE.
Proof. unfold is_dquote. apply N.eqb_neq. Qed.

Lemma replace_from_succ i s :
  Regex.replace_from (S i) s = drop_trailing_quote s.
Proof.
  revert i. induction s as [|c rest IH]; intros i; [reflexivity|].
  simpl. unfold Regex.matches_at, Regex.alt_start, Regex.alt_end. simpl.
  destruct rest as [|d rest'].
  - destruct (is_dquote c); reflexivity.
  - rewrite andb_false_r. f_equal. apply IH.
Qed.

Lemma stripQuotes_closed_form s :
  stripQuotes s = drop_trailing_quote (drop_leading_quote s).
Proof.
  destruct s as [|c rest]; [reflexivity|].
  unfold stripQuotes. simpl.
  unfold Regex.matches_at, Regex.alt_start, Regex.alt_end. simpl.
  rewrite replace_from_succ.
  destruct (is_dquote c) eqn:Hc; simpl.
  - reflexivity.
  - destruct rest as [|d rest']; simpl; rewrite ?Hc; reflexivity.
Qed.

Lemma drop_trailing_quote_snoc s c :
  drop_trailing_quote (s ++ [c]) = s ++ (if is_dquote c then [] else [c]).
Proof.
  induction s as [|a s IH]; simpl.
  - destruct (is_dquote c); reflexivity.
  - rewrite IH. destruct (s ++ [c]) eqn:E; [|reflexivity].
    destruct s; discriminate.
Qed.

Lemma drop_trailing_quote_id s :
  last s <> Some DQUOTE -> drop_trailing_quote s = s.
Proof.
  destruct (decide (s = [])) as [->|Hne]; [reflexivity|].
  destruct (exists_last Hne) as (s' & c & ->).
  rewrite last_snoc, drop_trailing_quote_snoc. intros Hc.
  destruct (is_dquote c) eqn:E; [|reflexivity].
  apply is_dquote_true in E. congruence.
Qed.

Lemma drop_trailing_quote_fixed s :
  drop_trailing_quote s = s -> last s <> Some DQUOTE.
Proof.
  destruct (decide (s = [])) as [->|Hne]; [discriminate|].
  destruct (exists_last Hne) as (s' & c & ->).
  rewrite last_snoc, drop_trailing_quote_snoc.
  destruct (is_dquote c) eqn:E.
  - intros H. apply (f_equal length) in H.
    rewrite !length_app in H. simpl in H. lia.
  - intros _ [= ->]. discriminate.
Qed.

Lemma drop_trailing_quote_suffix s :
  exists post, s = drop_trailing_quote s ++ post
               /\ (post = [] \/ post = [DQUOTE]).
Proof.
  destruct (decide (s = [])) as [->|Hne]; [exists []; auto|].
  destruct (exists_last Hne) as (s' & c & ->).
  rewrite drop_trailing_quote_snoc.
  destruct (is_dquote c) eqn:E.
  - apply is_dquote_true in E. subst c. exists [DQUOTE].
    rewrite app_nil_r. auto.
  - exists []. rewrite app_nil_r. auto.
Qed.

Lemma drop_trailing_quote_length s :
  length (drop_trailing_quote s) <= length s.
Proof.
  destruct (drop_trailing_quote_suffix s) as (post & E & _).
  rewrite E at 2. rewrite length_app. lia.
Qed.

(** The fixed points of [stripQuotes] are the strings with no quote at
    either end. *)
Lemma stripQuotes_fixed_iff s :
  stripQuotes s = s <-> head s <> Some DQUOTE /\ last s <> Some DQUOTE.
Proof.
  rewrite stripQuotes_closed_form. split.
  - intros H. destruct s as [|c rest]; [split; discriminate|].
    simpl in H. destruct (is_dquote c) eqn:Hc.
    + exfalso. pose proof (drop_trailing_quote_length rest) as Hl.
      rewrite H in Hl. simpl in Hl. lia.
    + split.
      * simpl. intros [= ->]. discriminate.
      * apply drop_trailing_quote_fixed. exact H.
  - intros [Hh Hl]. destruct s as [|c rest]; [reflexivity|].
    simpl in *. destruct (is_dquote c) eqn:Hc.
    + apply is_dquote_true in Hc. congruence.
    + apply (drop_trailing_quote_id (c :: rest)). exact Hl.
Qed.

(** C10. One application of [stripQuotes] removes at most one double quote
    at the start and at most one at the end and keeps every other code
    unit: the result is a contiguous part of the input, what is cut off
    before it and after it being nothing or a single quote; and on an input
    of two code units or more exactly the first and the last code unit are
    examined, so that quotes inside, a second layer included, stay. *)
Theorem stripQuotes_one_quote_per_end :
  (forall s, exists pre post,
      s = pre ++ stripQuotes s ++ post
      /\ (pre = [] \/ pre = [DQUOTE])
      /\ (post = [] \/ post = [DQUOTE]))
  /\ (forall a inner b,
         stripQuotes (a :: inner ++ [b])
         = (if is_dquote a then [] else [a]) ++ inner
           ++ (if is_dquote b then [] else [b]))
  /\ (forall a, stripQuotes [a] = if is_dquote a then [] else [a])
  /\ stripQuotes [] = [].
Proof.
  split; [|split; [|split]].
  - intros s. rewrite stripQuotes_closed_form.
    destruct s as [|c rest].
    + exists [], []. auto.
    + simpl. destruct (is_dquote c) eqn:Hc.
      * apply is_dquote_true in Hc. subst c.
        destruct (drop_trailing_quote_suffix rest) as (post & E & Hpost).
        exists [DQUOTE], post. simpl. rewrite <- E. auto.
      * destruct (drop_trailing_quote_suffix (c :: rest))
          as (post & E & Hpost).
        exists [], post. simpl. auto.
  - intros a inner b. rewrite stripQuotes_closed_form.
    unfold drop_leading_quote. destruct (is_dquote a) eqn:Ha.
    + apply drop_trailing_quote_snoc.
    + rewrite app_comm_cons, drop_trailing_quote_snoc. reflexivity.
  - intros a. rewrite stripQuotes_closed_form. simpl.
    destruct (is_dquote a) eqn:Ha; simpl; rewrite ?Ha; reflexivity.
  - reflexivity.
Qed.

(** On the query [php Qhello worldQ], Q the double quote, only the last
    quote goes: the one inside stays. *)
Example stripQuotes_php_hello_world :
  stripQuotes (lit "php " ++ [DQUOTE] ++ lit "hello world" ++ [DQUOTE])
  = lit "php " ++ [DQUOTE] ++ lit "hello world".
Proof. reflexivity. Qed.

(** C3, as stated, fails: on three double quotes one application leaves one
    quote and a second application removes it. *)
Lemma stripQuotes_not_idempotent :
  stripQuotes (stripQuotes [DQUOTE; DQUOTE; DQUOTE])
  <> stripQuotes [DQUOTE; DQUOTE; DQUOTE].
Proof. vm_compute. discriminate. Qed.

(** C3, amended.  A second application of [stripQuotes] changes nothing
    exactly when the first one left no double quote at either end. *)
Theorem stripQuotes_idempotent_iff s :
  stripQuotes (stripQuotes s) = stripQuotes s
  <-> head (stripQuotes s) <> Some DQUOTE
      /\ last (stripQuotes s) <> Some DQUOTE.
Proof. apply stripQuotes_fixed_iff. Qed.

Lemma stripQuotes_idempotent_iff_witness :
  stripQuotes (stripQuotes (DQUOTE :: lit "hello world" ++ [DQUOTE]))
  = stripQuotes (DQUOTE :: lit "hello world" ++ [DQUOTE]).
Proof.
  apply (stripQuotes_idempotent_iff (DQUOTE :: lit "hello world" ++ [DQUOTE])).
  split; vm_compute; discriminate.
Defined.

(** ** The per-query cap *)

(** ** Numbers and their digits *)

Lemma string_app_assoc (a b c : string) :
  ((a ++ b) ++ c = a ++ (b ++ c))%string.
Proof.
  induction a as [|x a IH]; [reflexivity|].
  change (String x ((a ++ b) ++ c) = String x (a ++ (b ++ c)))%string.
  f_equal. exact IH.
Qed.

Lemma string_length_app (a b : string) :
  String.length (a ++ b)%string = (String.length a + String.length b)%nat.
Proof.
  induction a as [|x a IH]; [reflexivity|].
  change (S (String.length (a ++ b)%string)
          = S (String.length a + String.length b)).
  f_equal. exact IH.
Qed.

(** The decimal digits of a positive integer: as many as its size asks
    for, and a zero more for ten times the integer. *)
Section Digits.

Local Open Scope N_scope.

Lemma pretty_N_go_app (x : N) :
  forall s, pretty_N_go x s = (pretty_N_go x "" ++ s)%string.
Proof.
  induction (N.lt_wf_0 x) as [x _ IH]. intros s.
  destruct (N.eq_dec x 0) as [->|Hx]; [reflexivity|].
  rewrite (pretty_N_go_step x s), (pretty_N_go_step x "") by lia.
  assert (Hlt : x `div` 10 < x) by (apply N.div_lt; lia).
  rewrite (IH _ Hlt (String _ s)), (IH _ Hlt (String _ "")).
  rewrite string_app_assoc. reflexivity.
Qed.

Lemma pretty_N_digits (x : N) :
  0 < x ->
  10 ^ (N.of_nat (String.length (pretty_N_go x "")) - 1) <= x
  < 10 ^ N.of_nat (String.length (pretty_N_go x "")).
Proof.
  induction (N.lt_wf_0 x) as [x _ IH]. intros Hx.
  rewrite (pretty_N_go_step x "") by lia.
  rewrite pretty_N_go_app, string_length_app.
  change (String.length (String (pretty_N_char (x `mod` 10)) "")) with 1%nat.
  destruct (N.eq_dec (x `div` 10) 0) as [E|E].
  - rewrite E. rewrite pretty_N_go_0.
    assert (x < 10).
    { destruct (N.lt_ge_cases x 10) as [H|H]; [exact H|].
      assert (1 <= x `div` 10) by (apply N.div_le_lower_bound; lia). lia. }
    change (1 <= x < 10). lia.
  - assert (Hlt : x `div` 10 < x) by (apply N.div_lt; lia).
    assert (Hpos : 0 < x `div` 10) by (apply N.neq_0_lt_0; exact E).
    specialize (IH _ Hlt Hpos).
    set (m := String.length (pretty_N_go (x `div` 10) "")) in *.
    assert (Hm : 1 <= N.of_nat m).
    { destruct m; [simpl in IH; lia|lia]. }
    replace (N.of_nat (m + 1) - 1) with (N.succ (N.of_nat m - 1)) by lia.
    replace (N.of_nat (m + 1)) with (N.succ (N.of_nat m)) by lia.
    rewrite !N.pow_succ_r by lia.
    pose proof (N.div_mod x 10 ltac:(lia)) as Hdm.
    pose proof (N.mod_lt x 10 ltac:(lia)) as Hml.
    revert IH Hdm Hml.
    generalize (10 ^ (N.of_nat m - 1)) (10 ^ N.of_nat m) (x `div` 10)
      (x `mod` 10).
    intros. lia.
Qed.

Lemma pretty_N_mul10 (x : N) :
  0 < x -> pretty (10 * x) = (pretty x ++ "0")%string.
Proof.
  intros Hx. unfold pretty, pretty_N.
  destruct (decide (10 * x = 0)); [lia|].
  destruct (decide (x = 0)); [lia|].
  rewrite pretty_N_go_step by lia.
  replace ((10 * x) `div` 10) with x
    by (apply N.div_unique_exact; lia).
  replace ((10 * x) `mod` 10) with 0.
  - apply pretty_N_go_app.
  - symmetry. rewrite N.mul_comm. apply N.Div0.mod_mul.
Qed.

End Digits.

Section NumberFacts.

Local Open Scope Z_scope.

(** In the range of the safe integers the division of numbers followed by
    [Math.floor] is the division of integers: the quotient is rounded by
    less than the distance to the next integer. *)
Lemma round_half_even_bounds (n d : Z) :
  n / d <= Number.round_half_even n d <= n / d + 1
  /\ (Number.round_half_even n d = n / d + 1 -> d <= 2 * (n mod d)).
Proof.
  unfold Number.round_half_even.
  destruct (2 * (n mod d) ?= d) eqn:E.
  - apply Z.compare_eq in E. destruct (Z.even (n / d)); lia.
  - lia.
  - apply Z.compare_gt_iff in E. lia.
Qed.

Lemma ulp_exponent_spec (n d : Z) :
  0 < n -> 0 < d ->
  let e := Number.ulp_exponent n d in
  d * 2 ^ (52 + (53 + Z.log2 d) + e) <= n * 2 ^ (53 + Z.log2 d)
  /\ 0 <= 52 + (53 + Z.log2 d) + e
  /\ (n < 2 ^ 53 -> e <= 0).
Proof.
  intros Hn Hd e. subst e. unfold Number.ulp_exponent.
  set (F := 53 + Z.log2 d).
  pose proof (Z.log2_nonneg d) as Hl.
  assert (HF : 0 <= F) by lia.
  assert (Hd2 : d < 2 ^ F).
  { destruct (Z.log2_spec d Hd) as [_ H].
    eapply Z.lt_le_trans; [exact H|].
    apply Z.pow_le_mono_r; lia. }
  assert (HN : 0 < n * 2 ^ F / d).
  { apply Z.div_str_pos. split; [lia|].
    assert (1 * 2 ^ F <= n * 2 ^ F) by (apply Z.mul_le_mono_nonneg_r; lia).
    lia. }
  destruct (Z.log2_spec _ HN) as [Hlo Hhi].
  pose proof (Z.log2_nonneg (n * 2 ^ F / d)) as Hl'.
  replace (52 + F + (Z.log2 (n * 2 ^ F / d) - 52 - F))
    with (Z.log2 (n * 2 ^ F / d)) by lia.
  split; [|split; [lia|]].
  - pose proof (Z.mul_div_le (n * 2 ^ F) d Hd). nia.
  - intros Hs.
    assert (n * 2 ^ F / d < 2 ^ (53 + F)).
    { apply Z.div_lt_upper_bound; [lia|].
      rewrite Z.pow_add_r by lia.
      assert (0 < 2 ^ F) by (apply Z.pow_pos_nonneg; lia).
      nia. }
    apply Z.log2_lt_pow2 in H; lia.
Qed.

Lemma floor_div_exact (T k : Z) :
  0 < T <= Number.MAX_SAFE_INTEGER -> 1 <= k ->
  Number.floor (Number.div T k) = T / k.
Proof.
  unfold Number.MAX_SAFE_INTEGER. intros HT Hk. unfold Number.div.
  destruct (T =? 0) eqn:E0; [apply Z.eqb_eq in E0; lia|].
  rewrite Z.abs_eq, Z.sgn_pos by lia.
  destruct (ulp_exponent_spec T k ltac:(lia) ltac:(lia)) as (Hlow & Hnn & He).
  specialize (He ltac:(lia)).
  set (e := Number.ulp_exponent T k) in *.
  set (F := 53 + Z.log2 k) in *.
  pose proof (Z.log2_nonneg k) as Hl.
  assert (HF : 0 < 2 ^ F) by (apply Z.pow_pos_nonneg; lia).
  assert (Hf : 0 < 2 ^ (- e)) by (apply Z.pow_pos_nonneg; lia).
  assert (Hkf : k * 2 ^ 52 <= T * 2 ^ (- e)).
  { assert (2 ^ (52 + F + e) * 2 ^ (- e) = 2 ^ 52 * 2 ^ F).
    { rewrite <- !Z.pow_add_r by lia. f_equal. lia. }
    assert (k * (2 ^ 52 * 2 ^ F) <= T * 2 ^ (- e) * 2 ^ F) by nia.
    nia. }
  rewrite Z.mul_1_l. rewrite (Z.max_l 0 e), (Z.max_r 0 (- e)) by lia.
  rewrite Z.pow_0_r, Z.mul_1_r.
  destruct (round_half_even_bounds (T * 2 ^ (- e)) k) as [[Hm1 Hm2] Hm3].
  set (m := Number.round_half_even (T * 2 ^ (- e)) k) in *.
  set (P := 2 ^ (- e)) in *.
  pose proof (Z.div_mod T k ltac:(lia)) as HTq.
  pose proof (Z.mod_pos_bound T k ltac:(lia)) as HTr.
  pose proof (Z.div_mod (T * P) k ltac:(lia)) as HAq.
  pose proof (Z.mod_pos_bound (T * P) k ltac:(lia)) as HAr.
  assert (Hq0 : 0 <= T / k) by (apply Z.div_pos; lia).
  assert (HkP : k < 2 * P) by nia.
  assert (Hlo : T / k * P <= m).
  { assert (T / k * P <= T * P / k); [|lia].
    apply Z.div_le_lower_bound; [lia|]. nia. }
  assert (Hhi : m < (T / k + 1) * P).
  { destruct (Z.eq_dec m (T * P / k + 1)) as [Heq|Hne].
    - specialize (Hm3 Heq). nia.
    - assert (m = T * P / k) by lia. nia. }
  unfold Number.floor.
  destruct (0 <=? e) eqn:Ee.
  - apply Z.leb_le in Ee. assert (e = 0) by lia.
    assert (P = 1) by (unfold P; replace (- e) with 0 by lia; reflexivity).
    replace (2 ^ e) with 1 by (replace e with 0 by lia; reflexivity).
    nia.
  - fold P. symmetry. apply (Z.div_unique_pos m P (T / k) (m - T / k * P)); lia.
Qed.

Lemma round_half_even_nonneg (n d : Z) :
  0 <= n -> 0 < d -> 0 <= Number.round_half_even n d.
Proof.
  intros Hn Hd. destruct (round_half_even_bounds n d) as [[H _] _].
  pose proof (Z.div_pos n d Hn Hd). lia.
Qed.

Lemma floor_div_negative (T k : Z) :
  T < 0 -> 1 <= k -> Number.floor (Number.div T k) <= 0.
Proof.
  intros HT Hk. unfold Number.div.
  destruct (T =? 0) eqn:E0; [apply Z.eqb_eq in E0; lia|].
  rewrite Z.sgn_neg by lia.
  set (e := Number.ulp_exponent (Z.abs T) k).
  assert (Hm : 0 <= Number.round_half_even (Z.abs T * 2 ^ Z.max 0 (- e))
                      (k * 2 ^ Z.max 0 e)).
  { apply round_half_even_nonneg.
    - apply Z.mul_nonneg_nonneg; [lia|]. apply Z.pow_nonneg. lia.
    - apply Z.mul_pos_pos; [lia|]. apply Z.pow_pos_nonneg; lia. }
  set (m := Number.round_half_even _ _) in *.
  unfold Number.floor. destruct (0 <=? e) eqn:Ee.
  - apply Z.leb_le in Ee.
    assert (0 < 2 ^ e) by (apply Z.pow_pos_nonneg; lia). nia.
  - apply Z.leb_gt in Ee.
    assert (0 < 2 ^ (- e)) by (apply Z.pow_pos_nonneg; lia).
    apply Z.div_le_upper_bound; [lia|]. nia.
Qed.

(** An integer up to 2^53 - 1 is a number, and an integer above is nearest
    to a number above; so a safe integer is printed with all its digits, in
    decimal. *)
Lemma zeros_succ (j : Z) :
  0 <= j -> Number.zeros (j + 1) = ("0" ++ Number.zeros j)%string.
Proof.
  intros Hj. unfold Number.zeros.
  replace (Z.to_nat (j + 1)) with (S (Z.to_nat j)) by lia. reflexivity.
Qed.

Lemma zeros_snoc (j : Z) :
  (Number.zeros j ++ "0" = "0" ++ Number.zeros j)%string.
Proof.
  unfold Number.zeros. induction (Z.to_nat j) as [|n IH]; [reflexivity|].
  change (("0" ++ (fold_right String.append EmptyString (replicate n "0")
                   ++ "0"))
          = "0" ++ ("0" ++ fold_right String.append EmptyString
                             (replicate n "0")))%string.
  rewrite IH. reflexivity.
Qed.

Lemma string_app_nil_r (a : string) : (a ++ "")%string = a.
Proof.
  induction a as [|x a IH]; [reflexivity|].
  change (String x (a ++ "")%string = String x a). f_equal. exact IH.
Qed.

Lemma digits_pos (x : Z) :
  0 < x -> Number.digits x = pretty_N_go (Z.to_N x) "".
Proof.
  intros Hx. destruct x as [|p|p]; try lia.
  unfold Number.digits, pretty, pretty_Z, pretty, pretty_positive, pretty,
    pretty_N.
  destruct (decide (N.pos p = 0%N)); [discriminate|reflexivity].
Qed.

Lemma digits_mul10 (x : Z) :
  0 < x -> Number.digits (10 * x) = (Number.digits x ++ "0")%string.
Proof.
  intros Hx.
  pose proof (pretty_N_mul10 (Z.to_N x) ltac:(lia)) as H.
  unfold pretty at 1 2, pretty_N in H.
  destruct (decide (10 * Z.to_N x = 0)%N); [lia|].
  destruct (decide (Z.to_N x = 0)%N); [lia|].
  rewrite !digits_pos by lia.
  replace (Z.to_N (10 * x)) with (10 * Z.to_N x)%N by lia. exact H.
Qed.

Lemma digits_mul_pow10 (s j : Z) :
  0 < s -> 0 <= j ->
  Number.digits (s * 10 ^ j) = (Number.digits s ++ Number.zeros j)%string.
Proof.
  intros Hs Hj. revert j Hj. apply natlike_ind.
  - rewrite Z.pow_0_r, Z.mul_1_r. symmetry. apply string_app_nil_r.
  - intros j Hj IH. unfold Z.succ.
    rewrite Z.pow_add_r, Z.pow_1_r by lia.
    replace (s * (10 ^ j * 10)) with (10 * (s * 10 ^ j)) by lia.
    assert (0 < 10 ^ j) by (apply Z.pow_pos_nonneg; lia).
    rewrite digits_mul10 by nia.
    rewrite IH, string_app_assoc, zeros_snoc, zeros_succ by lia.
    reflexivity.
Qed.

Lemma digit_count_spec (x : Z) :
  0 < x ->
  1 <= Number.digit_count x
  /\ 10 ^ (Number.digit_count x - 1) <= x < 10 ^ Number.digit_count x.
Proof.
  intros Hx. unfold Number.digit_count. rewrite digits_pos by lia.
  pose proof (pretty_N_digits (Z.to_N x) ltac:(lia)) as [Hlo Hhi].
  set (m := String.length (pretty_N_go (Z.to_N x) "")) in *.
  assert (Hm : (1 <= m)%nat).
  { destruct m; [|lia]. simpl in Hhi. lia. }
  split; [lia|].
  apply N2Z.inj_le in Hlo. apply N2Z.inj_lt in Hhi.
  rewrite N2Z.inj_pow in Hlo, Hhi. rewrite Z2N.id in Hlo, Hhi by lia.
  rewrite N2Z.inj_sub in Hlo by lia.
  rewrite nat_N_Z in Hlo, Hhi. simpl in Hlo. split; assumption.
Qed.

Lemma nearest_safe (y : Z) :
  0 < y <= Number.MAX_SAFE_INTEGER -> Number.nearest y = y.
Proof.
  intros Hy. unfold Number.nearest. rewrite floor_div_exact by lia.
  apply Z.div_1_r.
Qed.

Lemma nearest_large (y : Z) :
  Number.MAX_SAFE_INTEGER < y -> Number.MAX_SAFE_INTEGER < Number.nearest y.
Proof.
  unfold Number.MAX_SAFE_INTEGER. intros Hy.
  unfold Number.nearest, Number.div.
  destruct (y =? 0) eqn:E0; [apply Z.eqb_eq in E0; lia|].
  rewrite Z.abs_eq, Z.sgn_pos by lia.
  assert (He : Number.ulp_exponent y 1 = Z.log2 y - 52).
  { unfold Number.ulp_exponent. change (Z.log2 1) with 0.
    rewrite Z.div_1_r, Z.log2_mul_pow2 by lia. lia. }
  rewrite He.
  assert (Hl : 53 <= Z.log2 y).
  { apply Z.log2_le_pow2; lia. }
  destruct (Z.log2_spec y ltac:(lia)) as [Hlo _].
  set (e := Z.log2 y - 52) in *.
  rewrite (Z.max_l 0 (- e)), (Z.max_r 0 e) by lia.
  rewrite Z.pow_0_r, Z.mul_1_r, !Z.mul_1_l.
  assert (Hp : 0 < 2 ^ e) by (apply Z.pow_pos_nonneg; lia).
  destruct (round_half_even_bounds y (2 ^ e)) as [[Hm _] _].
  assert (Hq : 2 ^ 52 <= y / 2 ^ e).
  { apply Z.div_le_lower_bound; [lia|].
    replace (Z.log2 y) with (e + 52) in Hlo by lia.
    rewrite Z.pow_add_r in Hlo by lia. lia. }
  unfold Number.floor.
  destruct (0 <=? e) eqn:Ee; [|apply Z.leb_gt in Ee; lia].
  assert (2 <= 2 ^ e).
  { change 2 with (2 ^ 1) at 1. apply Z.pow_le_mono_r; lia. }
  nia.
Qed.

Lemma nearest_eq (x y : Z) :
  0 < x <= Number.MAX_SAFE_INTEGER -> 0 < y ->
  Number.nearest y = x -> y = x.
Proof.
  intros Hx Hy H.
  destruct (Z_le_gt_dec y Number.MAX_SAFE_INTEGER) as [Hle|Hgt].
  - rewrite nearest_safe in H by lia. exact H.
  - pose proof (nearest_large y ltac:(lia)). lia.
Qed.

Lemma shortest_at_spec (x m k s : Z) :
  0 < x <= Number.MAX_SAFE_INTEGER ->
  0 < 10 ^ (m - k) <= x ->
  Number.shortest_at x m k = Some s ->
  0 < s /\ s * 10 ^ (m - k) = x.
Proof.
  intros Hx Hstep. unfold Number.shortest_at.
  set (step := 10 ^ (m - k)) in *.
  assert (Hlo : 1 <= x / step) by (apply Z.div_le_lower_bound; lia).
  assert (Hok : forall c, 0 < c -> (Number.nearest (c * step) =? x) = true ->
                          c * step = x).
  { intros c Hc H. apply Z.eqb_eq in H. apply (nearest_eq x); [lia|nia|exact H]. }
  destruct (Number.nearest (x / step * step) =? x) eqn:E1,
           (Number.nearest ((x / step + 1) * step) =? x) eqn:E2;
    try discriminate.
  - assert (H1 : 0 < x / step) by lia. assert (H2 : 0 < x / step + 1) by lia.
    pose proof (Hok _ H1 E1). pose proof (Hok _ H2 E2). nia.
  - intros [= <-]. split; [lia|]. apply Hok; [lia|exact E1].
  - intros [= <-]. split; [lia|]. apply Hok; [lia|exact E2].
Qed.

Lemma shortest_from_spec (x m : Z) :
  0 < x <= Number.MAX_SAFE_INTEGER ->
  1 <= m -> 10 ^ (m - 1) <= x ->
  forall (fuel : nat) (k : Z),
    1 <= k -> Z.of_nat fuel + k = m + 1 ->
    let r := Number.shortest_from fuel x m k in
    1 <= r.2 <= m /\ 0 < r.1 /\ r.1 * 10 ^ (m - r.2) = x.
Proof.
  intros Hx Hm Hlo fuel. induction fuel as [|fuel IH]; intros k Hk Hf.
  - simpl. rewrite Z.sub_diag, Z.pow_0_r. lia.
  - cbn [Number.shortest_from].
    assert (Hstep : 0 < 10 ^ (m - k) <= x).
    { split; [apply Z.pow_pos_nonneg; lia|].
      etransitivity; [|exact Hlo]. apply Z.pow_le_mono_r; lia. }
    destruct (Number.shortest_at x m k) as [s|] eqn:E.
    + destruct (shortest_at_spec x m k s Hx Hstep E) as [Hs Heq].
      simpl. split; [lia|]. split; assumption.
    + apply IH; lia.
Qed.

Lemma to_string_safe (x : Z) :
  0 < x <= Number.MAX_SAFE_INTEGER -> Number.to_string x = pretty x.
Proof.
  intros Hx. unfold Number.to_string.
  destruct (x =? 0) eqn:E0; [apply Z.eqb_eq in E0; lia|].
  destruct (x <? 0) eqn:E1; [apply Z.ltb_lt in E1; lia|].
  unfold Number.to_string_positive, Number.shortest.
  destruct (digit_count_spec x ltac:(lia)) as (Hm & Hlo & Hhi).
  set (m := Number.digit_count x) in *.
  assert (Hm21 : m <= 21).
  { destruct (Z_le_gt_dec m 21) as [H|H]; [exact H|].
    assert (10 ^ 21 <= 10 ^ (m - 1)) by (apply Z.pow_le_mono_r; lia).
    unfold Number.MAX_SAFE_INTEGER in Hx. lia. }
  destruct (Number.nearest (10 ^ m) =? x) eqn:En.
  { apply Z.eqb_eq in En. apply nearest_eq in En; lia. }
  pose proof (shortest_from_spec x m Hx Hm Hlo (Z.to_nat m) 1 ltac:(lia)
                ltac:(lia)) as H.
  destruct (Number.shortest_from (Z.to_nat m) x m 1) as [s k].
  simpl in H. destruct H as (Hk & Hs & Heq).
  destruct (m <=? 21) eqn:E21; [|apply Z.leb_gt in E21; lia].
  rewrite <- digits_mul_pow10 by lia. rewrite Heq. reflexivity.
Qed.

Lemma cap_exact (T k : Z) :
  T <> 0 -> T <= Number.MAX_SAFE_INTEGER -> 1 <= k ->
  Z.max 3 (Number.floor (Number.div T k)) = Z.max 3 (T / k).
Proof.
  intros H0 Hs Hk. destruct (Z.lt_trichotomy T 0) as [Hneg|[->|Hpos]].
  - pose proof (floor_div_negative T k Hneg Hk).
    assert (T / k < 0) by (apply Z.div_lt_upper_bound; lia). lia.
  - contradiction.
  - rewrite floor_div_exact by lia. reflexivity.
Qed.

Lemma num_or_default_per_query (m : option Z) (n : nat) :
  num_or_default (per_query_maxResults m n)
  = match m with
    | Some T =>
        if T =? 0 then 10
        else Z.max 3 (Number.floor (Number.div T (Z.of_nat n)))
    | None => 10
    end.
Proof.
  destruct m as [T|]; [|reflexivity].
  unfold per_query_maxResults, num_or_default, is_falsy_number.
  destruct (T =? 0) eqn:E; simpl; [rewrite E; reflexivity|].
  destruct (Z.max 3 _ =? 0) eqn:E'; [|reflexivity].
  apply Z.eqb_eq in E'. lia.
Qed.

End NumberFacts.

Lemma search_calls_maxResults (o : options) (so : search_options) :
  so ∈ search_calls o ->
  so_maxResults so
  = per_query_maxResults (maxResults o) (length (queries_of (query o)))
    /\ so_query so ∈ queries_of (query o).
Proof.
  unfold search_calls. intros H.
  apply list_elem_of_fmap in H as (q & -> & Hq). simpl. auto.
Qed.

Lemma search_page_goto (pb : page_behaviour) (so : search_options)
    (st : state) (u : js_string) :
  newPage_error pb = None ->
  applyStealthScripts_error pb = None ->
  setRequestInterception_error pb = None ->
  search_url (so_query so) (so_maxResults so) = Some u ->
  EGoto (next_page st) u ∈ trace (search_page pb so st).2.
Proof.
  intros Hn Ha Hi Hu.
  unfold search_page, bind, newPage, interceptRequest, applyStealthScripts,
    goto, evaluate_links, rejects_with, emit, record, ret, throw.
  rewrite Hn, Ha, Hi, Hu. simpl.
  destruct (goto_error pb); simpl; [set_solver|].
  destruct (evaluate_error pb); simpl; set_solver.
Qed.

(** C1, as stated, fails: a requested total of 0 is falsy, so the cap of
    the search URL is the default 10 and not max(3, floor(0/1)) = 3. *)
Lemma zero_total_cap_gets_default :
  num_or_default (per_query_maxResults (Some 0%Z) 1) <> Z.max 3 (0 / 1)
  /\ search_url (lit "rocq") (per_query_maxResults (Some 0%Z) 1)
     = Some (SEARCH_PREFIX ++ lit "rocq" ++ lit "&num=10").
Proof. split; vm_compute; [discriminate|reflexivity]. Qed.

(** Above the safe integers the quotient is rounded before [Math.floor]
    sees it, and a number from 10^21 on is printed with an exponent: a
    total of 2^60 over 5 queries gives a cap above floor(2^60 / 5), and a
    total of 10^21 the parameter [num=1e+21]. *)
Lemma rounded_total_cap :
  per_query_maxResults (Some (2 ^ 60)%Z) 5 = Some 230584300921369408%Z
  /\ (2 ^ 60 / 5 = 230584300921369395)%Z
  /\ search_url (lit "rocq") (per_query_maxResults (Some (10 ^ 21)%Z) 1)
     = Some (SEARCH_PREFIX ++ lit "rocq" ++ lit "&num=1e+21").
Proof. repeat split; vm_compute; reflexivity. Qed.

(** C1, amended.  For every call of [search] of a run, hence with k >= 1
    queries: when an integer total T other than 0 is requested, the cap is
    the greater of 3 and [Math.floor] of the quotient of the numbers T and
    k, which for T of at most 2^53 - 1 is max(3, floor(T/k)); when no total
    is requested, or the total 0, the cap is 10.  The search URL ends in
    the [num] parameter with that cap, printed as the program prints a
    number, which for T of at most 2^53 - 1 is in decimal, and this is the
    URL the result page is sent to. *)
Theorem effective_cap_in_search_url (o : options) (so : search_options) :
  so ∈ search_calls o ->
  let k := Z.of_nat (length (queries_of (query o))) in
  let cap := num_or_default (so_maxResults so) in
  (1 <= k)%Z
  /\ (forall T, k * (T / k) <= T < k * (T / k) + k)%Z
  /\ (forall T,
         maxResults o = Some T ->
         T <> 0%Z ->
         cap = Z.max 3 (Number.floor (Number.div T k))
         /\ ((T <= Number.MAX_SAFE_INTEGER)%Z ->
             cap = Z.max 3 (T / k)
             /\ number_to_string cap = lit (pretty cap)))
  /\ (maxResults o = None \/ maxResults o = Some 0%Z -> cap = 10%Z)
  /\ search_url (so_query so) (so_maxResults so)
     = (fun q => SEARCH_PREFIX ++ q ++ lit "&num=" ++ number_to_string cap)
         <$> URI.encodeURIComponent (stripQuotes (so_query so))
  /\ (forall pb st q,
         newPage_error pb = None ->
         applyStealthScripts_error pb = None ->
         setRequestInterception_error pb = None ->
         URI.encodeURIComponent (stripQuotes (so_query so)) = Some q ->
         EGoto (next_page st)
           (SEARCH_PREFIX ++ q ++ lit "&num=" ++ number_to_string cap)
         ∈ trace (search_page pb so st).2).
Proof.
  intros Hso k cap.
  destruct (search_calls_maxResults o so Hso) as [Hm Hq].
  assert (Hk : (1 <= k)%Z).
  { subst k. destruct (queries_of (query o)); [inversion Hq|]. simpl. lia. }
  assert (Hcap : cap = match maxResults o with
                       | Some T =>
                           if (T =? 0)%Z then 10%Z
                           else Z.max 3 (Number.floor (Number.div T k))
                       | None => 10%Z
                       end).
  { subst cap. rewrite Hm. apply num_or_default_per_query. }
  assert (Hurl : search_url (so_query so) (so_maxResults so)
     = (fun q => SEARCH_PREFIX ++ q ++ lit "&num=" ++ number_to_string cap)
         <$> URI.encodeURIComponent (stripQuotes (so_query so))).
  { unfold search_url. fold cap.
    destruct (URI.encodeURIComponent (stripQuotes (so_query so))); reflexivity. }
  split; [exact Hk|]. split; [|split; [|split; [|split; [exact Hurl|]]]].
  - intros T. pose proof (Z.mul_div_le T k). pose proof (Z.mul_succ_div_gt T k).
    lia.
  - intros T HT H0. rewrite Hcap, HT.
    destruct (T =? 0)%Z eqn:E; [apply Z.eqb_eq in E; contradiction|].
    split; [reflexivity|]. intros Hs.
    rewrite (cap_exact T k H0 Hs Hk). split; [reflexivity|].
    unfold number_to_string. f_equal. apply to_string_safe.
    unfold Number.MAX_SAFE_INTEGER in *.
    assert (T / k <= Z.max 3 T)%Z; [|lia].
    destruct (Z_lt_le_dec T 0).
    + assert (T / k < 0)%Z by (apply Z.div_lt_upper_bound; lia). lia.
    + assert (T / k <= T)%Z; [|lia].
      apply Z.div_le_upper_bound; [lia|]. nia.
  - intros [HT|HT]; rewrite Hcap, HT; reflexivity.
  - intros pb st q Hn Ha Hi Hq'. apply search_page_goto; try assumption.
    rewrite Hurl, Hq'. reflexivity.
Qed.

Lemma effective_cap_in_search_url_witness :
  num_or_default (per_query_maxResults (Some 10%Z) 2) = Z.max 3 (10 / 2)
  /\ search_url (lit "rocq") (per_query_maxResults (Some 10%Z) 2)
     = Some (SEARCH_PREFIX ++ lit "rocq" ++ lit "&num=5").
Proof.
  pose (o := {| query := QueryArray [lit "rocq"; lit "stdpp"];
                concurrency := None; show := None;
                maxResults := Some 10%Z; browser := None |}).
  pose (so := {| so_query := lit "rocq";
                 so_maxResults := per_query_maxResults (Some 10%Z) 2 |}).
  assert (Hso : so ∈ search_calls o) by (vm_compute; left).
  destruct (effective_cap_in_search_url o so Hso)
    as (_ & _ & Hcap & _ & Hurl & _).
  split; [|exact Hurl].
  destruct (Hcap 10%Z eq_refl) as [_ Hexact]; [discriminate|].
  apply Hexact. vm_compute. discriminate.
Defined.

(** ** The candidate links *)

Lemma fold_push_link (elements : list node) (links : list SearchResult) :
  fold_left push_link elements links
  = links ++ List.filter has_both_fields (map container_item elements).
Proof.
  revert links. induction elements as [|element elements IH]; intros links.
  - simpl. rewrite app_nil_r. reflexivity.
  - simpl. rewrite IH. unfold push_link, has_both_fields.
    destruct (is_empty (sr_title (container_item element)));
      destruct (is_empty (sr_url (container_item element))); simpl;
      rewrite <- ?app_assoc; reflexivity.
Qed.

Lemma is_empty_false (s : js_string) : is_empty s = false <-> s <> [].
Proof. destruct s; simpl; split; congruence. Qed.

(** C6. Whatever the document, no candidate link has an empty title or an
    empty url: the links are the items of the result containers in document
    order, a container whose first heading has no text or whose first link
    has no href left out. *)
Theorem extract_links_fields_nonempty (document : node) :
  Forall (fun link => sr_title link <> [] /\ sr_url link <> [])
    (extract_links document)
  /\ extract_links document = candidate_links_spec document.
Proof.
  assert (E : extract_links document = candidate_links_spec document).
  { unfold extract_links. rewrite fold_push_link. reflexivity. }
  split; [|exact E].
  rewrite E. unfold candidate_links_spec.
  apply List.Forall_forall. intros link Hin.
  apply List.filter_In in Hin as [_ Hb].
  unfold has_both_fields in Hb.
  apply andb_true_iff in Hb as [Ht Hu].
  apply negb_true_iff in Ht, Hu.
  split; apply is_empty_false; assumption.
Qed.

(** ** The final results *)

Lemma has_content_spec (v : option VisitResult) :
  has_content v = true <-> exists r, v = Some r /\ v_content r <> [].
Proof.
  destruct v as [r|]; simpl.
  - rewrite negb_true_iff, is_empty_false. split.
    + intros H. exists r. auto.
    + intros (r' & [= <-] & H). exact H.
  - split; [discriminate|]. intros (r & H & _). discriminate.
Qed.

Lemma final_results_all_content (finalResults : list (settled VisitResult)) :
  Forall (fun v => exists r, v = Some r /\ v_content r <> [])
    (final_results finalResults).
Proof.
  apply List.Forall_forall. intros v Hin.
  apply List.filter_In in Hin as [_ H]. apply has_content_spec. exact H.
Qed.

(** ** Tasks and their traces *)

Section PipelineProperties.

Variable toMarkdown : js_string -> js_string.

Ltac unfold_tasks :=
  unfold visit_outcome, visit_events, search_outcome, search_events,
    pages_opened, visitLink, search_page, bind, newPage, interceptRequest,
    applyStealthScripts, goto, addScriptTag, evaluate_article, evaluate_links, page_close,
    rejects_with, emit, record, ret, throw, initial_state.

Ltac case_page pb :=
  destruct (newPage_error pb), (applyStealthScripts_error pb),
    (setRequestInterception_error pb), (goto_error pb),
    (addScriptTag_error pb), (evaluate_error pb), (close_error pb).

Ltac state_eq :=
  simpl; rewrite <- ?app_assoc, ?app_nil_r, ?Nat.add_0_r, ?Nat.add_1_r;
  reflexivity.

(** A visit reads nothing of the state but the next page number, and adds
    its events to the trace. *)
Lemma visitLink_frame (pb : page_behaviour) (url : js_string) (st : state) :
  visitLink toMarkdown pb url st
  = (visit_outcome toMarkdown pb url,
     {| next_page := next_page st + pages_opened pb;
        trace := trace st
                 ++ visit_events toMarkdown pb url (next_page st) |}).
Proof.
  destruct st as [n tr]. unfold_tasks. case_page pb; state_eq.
Qed.

Lemma search_page_frame (pb : page_behaviour) (opts : search_options)
    (st : state) :
  search_page pb opts st
  = (search_outcome pb opts,
     {| next_page := next_page st + pages_opened pb;
        trace := trace st ++ search_events pb opts (next_page st) |}).
Proof.
  destruct st as [n tr]. unfold_tasks.
  destruct (search_url (so_query opts) (so_maxResults opts));
    case_page pb; state_eq.
Qed.

Lemma visit_events_task (pb : page_behaviour) (url : js_string)
    (page : page_id) :
  forallb is_task_event (visit_events toMarkdown pb url page) = true.
Proof. unfold_tasks. case_page pb; reflexivity. Qed.

Lemma search_events_task (pb : page_behaviour) (opts : search_options)
    (page : page_id) :
  forallb is_task_event (search_events pb opts page) = true.
Proof.
  unfold_tasks. destruct (search_url (so_query opts) (so_maxResults opts));
    case_page pb; reflexivity.
Qed.

(** The closes of the page of a visit: one when every call up to the
    close went through, none when an earlier call threw. *)
Lemma visit_events_closes (pb : page_behaviour) (url : js_string)
    (page : page_id) :
  count (is_page_close page) (visit_events toMarkdown pb url page)
  = match newPage_error pb, applyStealthScripts_error pb,
          setRequestInterception_error pb, goto_error pb,
          addScriptTag_error pb, evaluate_error pb with
    | None, None, None, None, None, None => 1
    | _, _, _, _, _, _ => 0
    end.
Proof.
  unfold_tasks. unfold count.
  case_page pb; simpl; rewrite ?Nat.eqb_refl; reflexivity.
Qed.

Lemma visit_events_other_page (pb : page_behaviour) (url : js_string)
    (page other : page_id) :
  other <> page ->
  count (is_page_close other) (visit_events toMarkdown pb url page) = 0
  /\ count (is_new_page other) (visit_events toMarkdown pb url page) = 0.
Proof.
  intros Hne. apply Nat.eqb_neq in Hne. rewrite Nat.eqb_sym in Hne.
  unfold_tasks. unfold count.
  case_page pb; simpl; rewrite ?Hne; auto.
Qed.

Lemma visit_events_opens (pb : page_behaviour) (url : js_string)
    (page : page_id) :
  count (is_new_page page) (visit_events toMarkdown pb url page)
  = pages_opened pb.
Proof.
  unfold_tasks. unfold count.
  case_page pb; simpl; rewrite ?Nat.eqb_refl; reflexivity.
Qed.

Lemma search_events_closes (pb : page_behaviour) (opts : search_options)
    (page other : page_id) :
  count (is_page_close other) (search_events pb opts page) = 0.
Proof.
  unfold_tasks. unfold count.
  destruct (search_url (so_query opts) (so_maxResults opts));
    case_page pb; reflexivity.
Qed.

Lemma search_events_opens (pb : page_behaviour) (opts : search_options)
    (page : page_id) :
  count (is_new_page page) (search_events pb opts page) = pages_opened pb.
Proof.
  unfold_tasks. unfold count.
  destruct (search_url (so_query opts) (so_maxResults opts));
    case_page pb; simpl; rewrite ?Nat.eqb_refl; reflexivity.
Qed.

Lemma visit_outcome_success (pb : page_behaviour) (url : js_string)
    (v : VisitResult) :
  visit_outcome toMarkdown pb url = Normal v <->
  newPage_error pb = None /\ applyStealthScripts_error pb = None
  /\ setRequestInterception_error pb = None
  /\ goto_error pb = None /\ addScriptTag_error pb = None
  /\ evaluate_error pb = None /\ close_error pb = None
  /\ v = {| v_content := toMarkdown (or_empty (a_content <$> readability pb));
            v_title := (let t := or_empty (a_title <$> readability pb) in
                        if is_empty t then document_title pb else t);
            v_url := url |}.
Proof.
  unfold_tasks. case_page pb; simpl; split;
    try (intros H; discriminate H);
    try (intros (H1 & H2 & H3 & H4 & H5 & H6 & H7 & H8); discriminate).
  - intros [= <-]. repeat split.
  - intros (_ & _ & _ & _ & _ & _ & _ & ->). reflexivity.
Qed.

Lemma state_eta (n : page_id) (tr : list event) (st : state) :
  next_page st = n -> trace st = tr -> st = {| next_page := n; trace := tr |}.
Proof. destruct st; simpl; intros; subst; reflexivity. Qed.

(** Every step of [search_step] is idle or one of the transitions. *)
Lemma search_step_spec (q : nat) (opts : search_options) (t : task)
    (pb : page_behaviour) (p : pipeline) (st : state) :
  search_step toMarkdown q opts t pb p st = (p, st)
  \/ exists p' evs,
      pipe_transition toMarkdown q opts (next_page st) t pb p p' evs
      /\ search_step toMarkdown q opts t pb p st
         = (p', {| next_page := next_page st + pages_opened pb;
                   trace := trace st ++ evs |}).
Proof.
  destruct p as [|links slots| |e], t as [|i]; try (left; reflexivity).
  - right. unfold search_step. rewrite search_page_frame.
    destruct (search_outcome pb opts) as [links|e] eqn:E.
    + destruct links as [|link links].
      * eexists _, _. split; [apply transition_search_no_links; exact E|].
        unfold finish. simpl. f_equal. apply state_eta; simpl; [reflexivity|].
        rewrite <- !app_assoc. reflexivity.
      * eexists _, _. split;
          [apply (transition_search_links _ _ _ _ _ _ E); discriminate|].
        unfold finish. simpl. f_equal. apply state_eta; simpl; [reflexivity|].
        rewrite <- !app_assoc. reflexivity.
    + eexists _, _. split; [apply transition_search_rejected; exact E|].
      f_equal. apply state_eta; simpl; [reflexivity|].
      rewrite <- !app_assoc. reflexivity.
  - unfold search_step.
    destruct (links !! i) as [item|] eqn:Hl; [|left; reflexivity].
    destruct (slots !! i) as [[o|]|] eqn:Hs; try (left; reflexivity).
    right. rewrite visitLink_frame. unfold finish.
    destruct (all_settled
                (<[i := Some (settle (visit_outcome toMarkdown pb
                                        (sr_url item)))]> slots))
      as [finalResults|] eqn:Ha.
    + eexists _, _. split;
        [eapply transition_visit_last; [exact Hl|exact Hs|reflexivity|exact Ha]|].
      f_equal. apply state_eta; simpl; [reflexivity|].
      rewrite <- !app_assoc. reflexivity.
    + eexists _, _. split;
        [eapply transition_visit; [exact Hl|exact Hs|reflexivity|exact Ha]|].
      f_equal. apply state_eta; simpl; [reflexivity|].
      rewrite <- !app_assoc. reflexivity.
Qed.

(** ** Invariants of a run *)

Lemma first_rejection_Some (pipes : list pipeline) (e : js_error) :
  first_rejection pipes = Some e -> SearchRejected e ∈ pipes.
Proof.
  unfold first_rejection. induction pipes as [|p pipes IH]; [discriminate|].
  simpl. destruct p; simpl; try (intros H; right; apply IH; exact H).
  intros [= ->]. left.
Qed.

Lemma first_rejection_None (pipes : list pipeline) :
  first_rejection pipes = None <-> forall e, SearchRejected e ∉ pipes.
Proof.
  unfold first_rejection. induction pipes as [|p pipes IH]; simpl.
  - split; [intros _ e H; inversion H|reflexivity].
  - destruct p; simpl; rewrite ?IH.
    4: { split; [discriminate|]. intros H. exfalso. apply (H error). left. }
    all: split; intros H e Hin;
      [apply elem_of_cons in Hin as [Hin|Hin];
       [discriminate Hin|exact (H e Hin)]
      |apply (H e); right; exact Hin].
Qed.

Lemma all_fulfilled_spec (pipes : list pipeline) :
  forallb is_search_fulfilled pipes = true
  <-> Forall (fun p => p = SearchFulfilled) pipes.
Proof.
  rewrite List.forallb_forall, List.Forall_forall. split; intros H p Hin.
  - specialize (H p Hin). destruct p; try discriminate. reflexivity.
  - rewrite (H p Hin). reflexivity.
Qed.

(** An invariant kept by every transition holds when [Promise.all] has
    settled, of pipelines that are then all fulfilled, or one of them
    rejected with the error thrown. *)
Lemma promise_all_invariant (I : list pipeline -> state -> Prop)
    (searches : list search_options)
    (sched0 : list (nat * task * page_behaviour)) :
  (forall q opts t pb p p' evs pipes st,
      (q, t, pb) ∈ sched0 ->
      searches !! q = Some opts ->
      pipes !! q = Some p ->
      first_rejection pipes = None ->
      I pipes st ->
      pipe_transition toMarkdown q opts (next_page st) t pb p p' evs ->
      I (<[q := p']> pipes)
        {| next_page := next_page st + pages_opened pb;
           trace := trace st ++ evs |}) ->
  forall sched pipes st,
    (forall x, x ∈ sched -> x ∈ sched0) ->
    I pipes st ->
    exists pipes',
      I pipes' (promise_all toMarkdown searches sched pipes st).2
      /\ length pipes' = length pipes
      /\ match (promise_all toMarkdown searches sched pipes st).1 with
         | Some (Normal _) =>
             Forall (fun p => p = SearchFulfilled) pipes'
             /\ first_rejection pipes' = None
         | Some (Throw e) => first_rejection pipes' = Some e
         | None => True
         end.
Proof.
  intros Hstep sched.
  induction sched as [|[[q t] pb] sched IH]; intros pipes st Hsub HI.
  - simpl. destruct (first_rejection pipes) as [e|] eqn:Hr; simpl.
    + exists pipes. auto.
    + destruct (forallb is_search_fulfilled pipes) eqn:Hf; simpl;
        exists pipes; repeat split; auto.
      apply all_fulfilled_spec. exact Hf.
  - simpl. destruct (first_rejection pipes) as [e|] eqn:Hr.
    { exists pipes. simpl. auto. }
    destruct (forallb is_search_fulfilled pipes) eqn:Hf.
    { exists pipes. simpl. repeat split; auto.
      apply all_fulfilled_spec. exact Hf. }
    assert (Hsub' : forall x, x ∈ sched -> x ∈ sched0).
    { intros x Hx. apply Hsub. right. exact Hx. }
    destruct (searches !! q) as [opts|] eqn:Hq; [|apply IH; assumption].
    destruct (pipes !! q) as [p|] eqn:Hp; [|apply IH; assumption].
    destruct (search_step_spec q opts t pb p st) as [Hidle|(p' & evs & Htr & E)].
    + rewrite Hidle. rewrite (list_insert_id _ _ _ Hp). apply IH; assumption.
    + rewrite E.
      destruct (IH (<[q := p']> pipes)
                  {| next_page := next_page st + pages_opened pb;
                     trace := trace st ++ evs |} Hsub') as (pipes' & H1 & H2 & H3).
      { eapply Hstep; eauto. apply Hsub. left. }
      exists pipes'. rewrite length_insert in H2. auto.
Qed.

Lemma count_app (f : event -> bool) (a b : list event) :
  count f (a ++ b) = count f a + count f b.
Proof. unfold count. rewrite List.filter_app, length_app. reflexivity. Qed.

Lemma count_none (f : event -> bool) (l : list event) :
  (forall e, e ∈ l -> f e = false) -> count f l = 0.
Proof.
  unfold count. induction l as [|e l IH]; intros H; [reflexivity|].
  simpl. rewrite (H e) by left. apply IH. intros e' He'. apply H. right.
  exact He'.
Qed.

Lemma queue_adds_elem (q : nat) (links : list SearchResult) (e : event) :
  e ∈ queue_adds q links <->
  exists i item, links !! i = Some item /\ e = EQueueAdd q i (sr_url item).
Proof.
  unfold queue_adds. rewrite list_elem_of_lookup. split.
  - intros (i & Hi). rewrite list_lookup_imap in Hi.
    destruct (links !! i) as [item|] eqn:E; [|discriminate].
    simpl in Hi. injection Hi as <-. eauto.
  - intros (i & item & Hi & ->). exists i.
    rewrite list_lookup_imap, Hi. reflexivity.
Qed.

Lemma visit_events_pages (pb : page_behaviour) (url : js_string)
    (page other : page_id) :
  count (is_page_close other) (visit_events toMarkdown pb url page)
  <= count (is_new_page other) (visit_events toMarkdown pb url page)
  /\ count (is_new_page other) (visit_events toMarkdown pb url page)
     = if bool_decide (other = page) then pages_opened pb else 0.
Proof.
  case_bool_decide as Hp.
  - subst other. rewrite visit_events_closes, visit_events_opens.
    unfold pages_opened. split; [|reflexivity].
    destruct (newPage_error pb), (applyStealthScripts_error pb),
      (setRequestInterception_error pb), (goto_error pb),
      (addScriptTag_error pb), (evaluate_error pb); lia.
  - destruct (visit_events_other_page pb url page other Hp) as [-> ->]. lia.
Qed.

Lemma search_events_pages (pb : page_behaviour) (opts : search_options)
    (page other : page_id) :
  count (is_page_close other) (search_events pb opts page)
  <= count (is_new_page other) (search_events pb opts page)
  /\ count (is_new_page other) (search_events pb opts page)
     = if bool_decide (other = page) then pages_opened pb else 0.
Proof.
  rewrite search_events_closes. split; [lia|].
  case_bool_decide as Hp.
  - subst other. apply search_events_opens.
  - apply Nat.eqb_neq in Hp. rewrite Nat.eqb_sym in Hp.
    unfold search_events, search_page, pages_opened, bind, newPage,
      interceptRequest, applyStealthScripts, goto, evaluate_links,
      rejects_with, emit, record, ret, throw, count.
    destruct (search_url (so_query opts) (so_maxResults opts));
      case_page pb; simpl; rewrite ?Hp; reflexivity.
Qed.

(** What a transition adds to the trace: events of its own pipeline; a
    final log that is the filtered list of settled visits; and the events
    of at most one page, the next one. *)
Lemma transition_events (q : nat) (opts : search_options) (page : page_id)
    (t : task) (pb : page_behaviour) (p p' : pipeline) (evs : list event) :
  pipe_transition toMarkdown q opts page t pb p p' evs ->
  (forall e, e ∈ evs -> is_pipeline_event q e = true)
  /\ (forall query results,
         ELogFinal query results ∈ evs ->
         query = so_query opts /\ exists fr, results = final_results fr)
  /\ (forall other,
         count (is_page_close other) evs <= count (is_new_page other) evs
         /\ count (is_new_page other) evs
            = if bool_decide (other = page) then pages_opened pb else 0).
Proof.
  assert (Htask : forall l e, forallb is_task_event l = true -> e ∈ l ->
                              is_task_event e = true).
  { intros l e Hl He. rewrite List.forallb_forall in Hl. apply Hl.
    apply list_elem_of_In. exact He. }
  assert (Hpipe : forall e, is_task_event e = true ->
                            is_pipeline_event q e = true).
  { intros []; simpl; congruence. }
  assert (Hnolog : forall e query results, is_task_event e = true ->
                                           e <> ELogFinal query results).
  { intros [] ? ?; simpl; congruence. }
  assert (Hc : forall e, is_task_event e = false ->
                         forall other, is_page_close other e = false).
  { intros []; simpl; congruence. }
  assert (Hn : forall e, is_task_event e = false ->
                         forall other, is_new_page other e = false).
  { intros []; simpl; congruence. }
  assert (Hcount : forall l extra other,
             (forall e, e ∈ extra -> is_task_event e = false) ->
             count (is_page_close other) (l ++ extra)
             = count (is_page_close other) l
             /\ count (is_new_page other) (l ++ extra)
                = count (is_new_page other) l).
  { intros l extra other Hx.
    rewrite !count_app, !(count_none _ extra); [lia| |].
    - intros e He. apply Hn, Hx, He.
    - intros e He. apply Hc, Hx, He. }
  intros Htr. destruct Htr as
    [pb e Hs|pb Hs|pb links Hs Hne|pb links slots i item o Hl Hsl Ho Ha
    |pb links slots i item o finalResults Hl Hsl Ho Ha].
  - pose proof (search_events_task pb opts page) as Hse. split; [|split].
    + intros e' He'. apply elem_of_app in He' as [He'|He'].
      * apply Hpipe. eapply Htask; eauto.
      * apply list_elem_of_singleton in He' as ->. simpl.
        apply Nat.eqb_refl.
    + intros query results He'. apply elem_of_app in He' as [He'|He'].
      * exfalso. eapply Hnolog; [eapply Htask; eauto|reflexivity].
      * apply list_elem_of_singleton in He'. discriminate.
    + intros other. destruct (Hcount (search_events pb opts page)
                                [ESearchSettled q false] other) as [-> ->].
      { intros e' He'. apply list_elem_of_singleton in He' as ->.
        reflexivity. }
      apply search_events_pages.
  - pose proof (search_events_task pb opts page) as Hse. split; [|split].
    + intros e' He'. apply elem_of_app in He' as [He'|He'].
      * apply Hpipe. eapply Htask; eauto.
      * apply elem_of_cons in He' as [->|He']; [reflexivity|].
        apply list_elem_of_singleton in He' as ->. simpl.
        apply Nat.eqb_refl.
    + intros query results He'. apply elem_of_app in He' as [He'|He'].
      * exfalso. eapply Hnolog; [eapply Htask; eauto|reflexivity].
      * apply elem_of_cons in He' as [He'|He'].
        -- injection He' as -> ->. split; [reflexivity|]. exists []. reflexivity.
        -- apply list_elem_of_singleton in He'. discriminate.
    + intros other.
      destruct (Hcount (search_events pb opts page)
                  [ELogFinal (so_query opts) (final_results []);
                   ESearchSettled q true] other) as [-> ->].
      { intros e' He'. apply elem_of_cons in He' as [->|He']; [reflexivity|].
        apply list_elem_of_singleton in He' as ->. reflexivity. }
      apply search_events_pages.
  - pose proof (search_events_task pb opts page) as Hse. split; [|split].
    + intros e' He'. apply elem_of_app in He' as [He'|He'].
      * apply Hpipe. eapply Htask; eauto.
      * apply queue_adds_elem in He' as (j & item & _ & ->). simpl.
        apply Nat.eqb_refl.
    + intros query results He'. apply elem_of_app in He' as [He'|He'].
      * exfalso. eapply Hnolog; [eapply Htask; eauto|reflexivity].
      * apply queue_adds_elem in He' as (j & item & _ & He'). discriminate.
    + intros other.
      destruct (Hcount (search_events pb opts page) (queue_adds q links)
                  other) as [-> ->].
      { intros e' He'. apply queue_adds_elem in He' as (j & item & _ & ->).
        reflexivity. }
      apply search_events_pages.
  - pose proof (visit_events_task pb (sr_url item) page) as Hve.
    split; [|split].
    + intros e' He'. apply elem_of_app in He' as [He'|He'].
      * apply Hpipe. eapply Htask; eauto.
      * apply list_elem_of_singleton in He' as ->. simpl.
        apply Nat.eqb_refl.
    + intros query results He'. apply elem_of_app in He' as [He'|He'].
      * exfalso. eapply Hnolog; [eapply Htask; eauto|reflexivity].
      * apply list_elem_of_singleton in He'. discriminate.
    + intros other.
      destruct (Hcount (visit_events toMarkdown pb (sr_url item) page)
                  [EVisitSettled q i (is_fulfilled o)] other) as [-> ->].
      { intros e' He'. apply list_elem_of_singleton in He' as ->.
        reflexivity. }
      apply visit_events_pages.
  - pose proof (visit_events_task pb (sr_url item) page) as Hve.
    split; [|split].
    + intros e' He'. apply elem_of_app in He' as [He'|He'].
      * apply Hpipe. eapply Htask; eauto.
      * apply elem_of_cons in He' as [->|He']; [simpl; apply Nat.eqb_refl|].
        apply elem_of_cons in He' as [->|He']; [reflexivity|].
        apply list_elem_of_singleton in He' as ->. simpl.
        apply Nat.eqb_refl.
    + intros query results He'. apply elem_of_app in He' as [He'|He'].
      * exfalso. eapply Hnolog; [eapply Htask; eauto|reflexivity].
      * apply elem_of_cons in He' as [He'|He']; [discriminate|].
        apply elem_of_cons in He' as [He'|He'].
        -- injection He' as -> ->. split; [reflexivity|]. eauto.
        -- apply list_elem_of_singleton in He'. discriminate.
    + intros other.
      destruct (Hcount (visit_events toMarkdown pb (sr_url item) page)
                  [EVisitSettled q i (is_fulfilled o);
                   ELogFinal (so_query opts) (final_results finalResults);
                   ESearchSettled q true] other) as [-> ->].
      { intros e' He'. apply elem_of_cons in He' as [->|He']; [reflexivity|].
        apply elem_of_cons in He' as [->|He']; [reflexivity|].
        apply list_elem_of_singleton in He' as ->. reflexivity. }
      apply visit_events_pages.
Qed.

Lemma pages_wf_step (st : state) (pb : page_behaviour) (evs : list event) :
  pages_wf st ->
  (forall other,
      count (is_page_close other) evs <= count (is_new_page other) evs
      /\ count (is_new_page other) evs
         = if bool_decide (other = next_page st) then pages_opened pb else 0) ->
  pages_wf {| next_page := next_page st + pages_opened pb;
              trace := trace st ++ evs |}.
Proof.
  intros Hwf Hev page. simpl. rewrite !count_app.
  destruct (Hwf page) as (H1 & H2 & H3). destruct (Hev page) as (E1 & E2).
  assert (Hop : pages_opened pb <= 1).
  { unfold pages_opened. destruct (newPage_error pb); lia. }
  case_bool_decide as Hp.
  - subst page. specialize (H3 (Nat.le_refl _)). lia.
  - lia.
Qed.

Lemma task_event_elem (l : list event) (e : event) :
  forallb is_task_event l = true -> e ∈ l -> is_task_event e = true.
Proof.
  intros Hl He. rewrite List.forallb_forall in Hl. apply Hl.
  apply list_elem_of_In. exact He.
Qed.

(** The events of another pipeline leave what the trace holds of a
    pipeline as it is. *)
Lemma pipe_inv_other (q q' : nat) (p : pipeline) (tr evs : list event) :
  q' <> q ->
  (forall e, e ∈ evs -> is_pipeline_event q e = true) ->
  pipe_inv q' p tr -> pipe_inv q' p (tr ++ evs).
Proof.
  intros Hne Hev.
  assert (Hold : forall i u, EQueueAdd q' i u ∈ tr ++ evs ->
                             EQueueAdd q' i u ∈ tr).
  { intros i u Hin. apply elem_of_app in Hin as [Hin|Hin]; [exact Hin|].
    apply Hev in Hin. simpl in Hin. apply Nat.eqb_eq in Hin. contradiction. }
  destruct p as [|links slots| |e]; simpl.
  - intros Hinv i u Hin. exact (Hinv i u (Hold i u Hin)).
  - intros (Hlen & Hadd & Hset). split; [exact Hlen|split].
    + intros i u Hin. exact (Hadd i u (Hold i u Hin)).
    + intros i o Hs. apply elem_of_app. left. exact (Hset i o Hs).
  - intros (Hs & Hadd). split; [apply elem_of_app; left; exact Hs|].
    intros i u Hin. destruct (Hadd i u (Hold i u Hin)) as (b & Hb).
    exists b. apply elem_of_app. left. exact Hb.
  - intros Hs. apply elem_of_app. left. exact Hs.
Qed.

Lemma all_settled_lookup (slots : list (option (settled VisitResult)))
    (finalResults : list (settled VisitResult)) (i : nat) :
  all_settled slots = Some finalResults ->
  i < length slots ->
  exists o, slots !! i = Some (Some o) /\ finalResults !! i = Some o.
Proof.
  unfold all_settled. intros H Hi. apply mapM_Some in H.
  destruct (lookup_lt_is_Some_2 slots i Hi) as (s & Hs).
  destruct (Forall2_lookup_l _ _ _ _ _ H Hs) as (o & Ho & Hso).
  simpl in Hso. subst s. eauto.
Qed.

(** A transition keeps what the trace holds of its own pipeline. *)
Lemma pipe_inv_transition (q : nat) (opts : search_options) (page : page_id)
    (t : task) (pb : page_behaviour) (p p' : pipeline)
    (tr evs : list event) :
  pipe_transition toMarkdown q opts page t pb p p' evs ->
  pipe_inv q p tr -> pipe_inv q p' (tr ++ evs).
Proof.
  assert (Hnotask : forall l i u, forallb is_task_event l = true ->
                                  EQueueAdd q i u ∉ l).
  { intros l i u Hl Hin. pose proof (task_event_elem l _ Hl Hin) as H.
    discriminate H. }
  intros Htr. destruct Htr as
    [pb e Hs|pb Hs|pb links Hs Hne|pb links slots i item o Hl Hsl Ho Ha
    |pb links slots i item o finalResults Hl Hsl Ho Ha]; simpl.
  - intros _. rewrite !elem_of_app. right. right.
    apply list_elem_of_singleton. reflexivity.
  - intros Hinv. split.
    + rewrite !elem_of_app. right. right. right. left.
    + intros i u Hin. exfalso.
      apply elem_of_app in Hin as [Hin|Hin]; [exact (Hinv i u Hin)|].
      apply elem_of_app in Hin as [Hin|Hin].
      * exact (Hnotask _ i u (search_events_task pb opts page) Hin).
      * apply elem_of_cons in Hin as [Hin|Hin]; [discriminate|].
        apply list_elem_of_singleton in Hin. discriminate.
  - intros Hinv. split; [apply length_replicate|split].
    + intros i u Hin.
      apply elem_of_app in Hin as [Hin|Hin]; [destruct (Hinv i u Hin)|].
      apply elem_of_app in Hin as [Hin|Hin].
      * destruct (Hnotask _ i u (search_events_task pb opts page) Hin).
      * apply queue_adds_elem in Hin as (j & item & Hj & [= -> _]).
        apply lookup_lt_is_Some. eauto.
    + intros i o Hi. apply lookup_replicate in Hi as [Hi _]. discriminate.
  - intros (Hlen & Hadd & Hset). split; [|split].
    + rewrite length_insert. exact Hlen.
    + intros j u Hin. apply Hadd with u.
      apply elem_of_app in Hin as [Hin|Hin]; [exact Hin|].
      apply elem_of_app in Hin as [Hin|Hin].
      * destruct (Hnotask _ j u (visit_events_task pb (sr_url item) page) Hin).
      * apply list_elem_of_singleton in Hin. discriminate.
    + intros j o' Hj. apply list_lookup_insert_Some in Hj
        as [(<- & [= <-] & _)|(Hne & Hj)].
      * rewrite !elem_of_app. right. right.
        apply list_elem_of_singleton. reflexivity.
      * apply elem_of_app. left. exact (Hset j o' Hj).
  - intros (Hlen & Hadd & Hset). split.
    + rewrite !elem_of_app. right. right. right. right. left.
    + intros j u Hin.
      assert (Hold : EQueueAdd q j u ∈ tr).
      { apply elem_of_app in Hin as [Hin|Hin]; [exact Hin|].
        apply elem_of_app in Hin as [Hin|Hin].
        - destruct (Hnotask _ j u
                      (visit_events_task pb (sr_url item) page) Hin).
        - apply elem_of_cons in Hin as [Hin|Hin]; [discriminate|].
          apply elem_of_cons in Hin as [Hin|Hin]; [discriminate|].
          apply list_elem_of_singleton in Hin. discriminate. }
      pose proof (Hadd j u Hold) as Hj.
      destruct (all_settled_lookup _ _ j Ha) as (o' & Ho' & _).
      { rewrite length_insert, Hlen. exact Hj. }
      apply list_lookup_insert_Some in Ho' as [(<- & [= <-] & _)|(Hne & Ho')].
      * exists (is_fulfilled o). rewrite !elem_of_app. right. right. left.
      * exists (is_fulfilled o'). apply elem_of_app. left.
        exact (Hset j o' Ho').
Qed.

Lemma run_inv_initial (searches : list search_options)
    (sched0 : list (nat * task * page_behaviour)) (k : nat) :
  run_inv searches sched0 (replicate k Searching)
    (record EBrowserLaunch initial_state).
Proof.
  split; [|split; [|split; [|split]]]; simpl.
  - intros page. simpl. unfold count. simpl. lia.
  - intros query results H. apply list_elem_of_singleton in H. discriminate.
  - exists []. split; [reflexivity|]. intros e H. inversion H.
  - intros q p H. apply lookup_replicate in H as [-> _]. simpl.
    intros i u Hin. apply list_elem_of_singleton in Hin. discriminate.
  - intros e H. apply elem_of_replicate in H as [H _]. discriminate.
Qed.

Lemma run_inv_step (searches : list search_options)
    (sched0 : list (nat * task * page_behaviour)) (q : nat)
    (opts : search_options) (t : task) (pb : page_behaviour)
    (p p' : pipeline) (evs : list event) (pipes : list pipeline)
    (st : state) :
  (q, t, pb) ∈ sched0 ->
  searches !! q = Some opts ->
  pipes !! q = Some p ->
  first_rejection pipes = None ->
  run_inv searches sched0 pipes st ->
  pipe_transition toMarkdown q opts (next_page st) t pb p p' evs ->
  run_inv searches sched0 (<[q := p']> pipes)
    {| next_page := next_page st + pages_opened pb;
       trace := trace st ++ evs |}.
Proof.
  intros Hsched Hopts Hp _ (Hpages & Hlog & (old & Htr & Hold) & Hpipes & Hrej)
    Htrans.
  destruct (transition_events _ _ _ _ _ _ _ _ Htrans) as (Hev & Hevlog & Hevp).
  split; [|split; [|split; [|split]]]; simpl.
  - apply pages_wf_step; assumption.
  - intros query results Hin. apply elem_of_app in Hin as [Hin|Hin].
    + exact (Hlog query results Hin).
    + exact (proj2 (Hevlog query results Hin)).
  - exists (old ++ evs). split; [rewrite Htr; reflexivity|].
    intros e Hin. rewrite length_insert.
    apply elem_of_app in Hin as [Hin|Hin]; [exact (Hold e Hin)|].
    exists q. split; [|exact (Hev e Hin)].
    apply lookup_lt_is_Some. eauto.
  - intros q' p'' Hq'.
    apply list_lookup_insert_Some in Hq' as [(<- & <- & _)|(Hne & Hq')].
    + eapply pipe_inv_transition; [exact Htrans|]. exact (Hpipes q p Hp).
    + eapply pipe_inv_other; [|exact Hev|exact (Hpipes q' p'' Hq')].
      congruence.
  - intros e Hin. apply list_elem_of_lookup in Hin as (j & Hj).
    apply list_lookup_insert_Some in Hj as [(<- & Hp' & _)|(Hne & Hj)].
    + subst p'. inversion Htrans; subst. exists q, pb, opts. auto.
    + apply Hrej. apply list_elem_of_lookup. eauto.
Qed.

(** The invariant at the end of the wait of [Promise.all]. *)
Lemma promise_all_run_inv (searches : list search_options)
    (sched : list (nat * task * page_behaviour)) :
  exists pipes',
    run_inv searches sched pipes'
      (promise_all toMarkdown searches sched
         (replicate (length searches) Searching)
         (record EBrowserLaunch initial_state)).2
    /\ length pipes' = length searches
    /\ match (promise_all toMarkdown searches sched
                (replicate (length searches) Searching)
                (record EBrowserLaunch initial_state)).1 with
       | Some (Normal _) =>
           Forall (fun p => p = SearchFulfilled) pipes'
           /\ first_rejection pipes' = None
       | Some (Throw e) => first_rejection pipes' = Some e
       | None => True
       end.
Proof.
  destruct (promise_all_invariant (run_inv searches sched) searches sched
              (run_inv_step searches sched) sched
              (replicate (length searches) Searching)
              (record EBrowserLaunch initial_state))
    as (pipes' & H1 & H2 & H3).
  - auto.
  - apply run_inv_initial.
  - exists pipes'. rewrite length_replicate in H2. auto.
Qed.

(** [main] once the query is there and the browser launched. *)
Lemma main_launched (o : options) (env : environment) :
  query_missing (query o) = false ->
  launch_error env = None ->
  queue_error env = None ->
  main toMarkdown o env
  = match promise_all toMarkdown (search_calls o) (schedule env)
            (replicate (length (search_calls o)) Searching)
            (record EBrowserLaunch initial_state) with
    | (Some (Normal _), st) => (Some 0%Z, record EBrowserClose st)
    | (Some (Throw e), st) =>
        (Some 1%Z,
         record (EConsoleError (error_shown e)) (record EBrowserClose st))
    | (None, st) => (None, st)
    end.
Proof.
  intros Hq Hl Hn.
  unfold main, action, launchBrowser, emit. rewrite Hq, Hl, Hn.
  destruct (promise_all _ _ _ _ _) as [[[[]|e]|] st]; reflexivity.
Qed.

(** [main] when the queue cannot be made: the browser, just launched, is
    closed. *)
Lemma main_queue_rejected (o : options) (env : environment) (e : js_error) :
  query_missing (query o) = false ->
  launch_error env = None ->
  queue_error env = Some e ->
  main toMarkdown o env
  = (Some 1%Z,
     {| next_page := 0;
        trace := [EBrowserLaunch; EBrowserClose;
                  EConsoleError (error_shown e)] |}).
Proof.
  intros Hq Hl Hn.
  unfold main, action, launchBrowser, emit. rewrite Hq, Hl, Hn. reflexivity.
Qed.

Lemma main_not_launched (o : options) (env : environment) :
  query_missing (query o) = true \/ is_Some (launch_error env) ->
  exists e, main toMarkdown o env
            = (Some 1%Z, record (EConsoleError (error_shown e)) initial_state).
Proof.
  intros H. unfold main, action, launchBrowser, throw.
  destruct (query_missing (query o)) eqn:Hq.
  - eexists. reflexivity.
  - destruct H as [H|[e He]]; [discriminate|]. rewrite He.
    eexists. reflexivity.
Qed.

(** The three ways of a run: it stops before the launch, it stops at the
    queue, or it waits for its pipelines. *)
Lemma main_cases (o : options) (env : environment) :
  (exists e,
      main toMarkdown o env
      = (Some 1%Z, record (EConsoleError (error_shown e)) initial_state))
  \/ (exists e,
         main toMarkdown o env
         = (Some 1%Z,
            {| next_page := 0;
               trace := [EBrowserLaunch; EBrowserClose;
                         EConsoleError (error_shown e)] |}))
  \/ (query_missing (query o) = false
      /\ launch_error env = None
      /\ queue_error env = None).
Proof.
  destruct (query_missing (query o)) eqn:Hq.
  { left. apply main_not_launched. auto. }
  destruct (launch_error env) as [e|] eqn:Hl.
  { left. apply main_not_launched. rewrite Hl. eauto. }
  destruct (queue_error env) as [e|] eqn:Hn.
  { right. left. exists e. apply main_queue_rejected; assumption. }
  right. right. auto.
Qed.

(** ** The pages of a run *)

Lemma count_snoc (f : event -> bool) (l : list event) (e : event) :
  count f (l ++ [e]) = count f l + if f e then 1 else 0.
Proof. rewrite count_app. unfold count. simpl. destruct (f e); reflexivity. Qed.

Lemma main_pages (o : options) (env : environment) (page : page_id) :
  count (is_page_close page) (trace (main toMarkdown o env).2)
  <= count (is_new_page page) (trace (main toMarkdown o env).2)
  /\ count (is_new_page page) (trace (main toMarkdown o env).2) <= 1.
Proof.
  destruct (main_cases o env) as [(e & ->)|[(e & ->)|(Hq & Hl & Hn)]];
    [unfold count; simpl; lia|unfold count; simpl; lia|].
  rewrite (main_launched o env Hq Hl Hn).
  destruct (promise_all_run_inv (search_calls o) (schedule env))
    as (pipes & (Hpages & _) & _).
  destruct (promise_all _ _ _ _ _) as [[[[]|e]|] st]; simpl in *;
    destruct (Hpages page) as (H1 & H2 & _);
    rewrite ?count_snoc; simpl; lia.
Qed.

(** C2, as stated, fails: a visit whose navigation throws leaves its page
    open, and the page of the search visit is not closed even when all goes
    well. *)
Lemma failed_visit_leaves_page_open :
  let visit :=
    visitLink (fun s => s) navigation_failure (lit "https://rocq-prover.org/")
      initial_state in
  let search :=
    search_page results_page
      {| so_query := lit "rocq"; so_maxResults := None |} initial_state in
  (visit.1 = Throw (JsError (lit "Error") (lit "net::ERR_FAILED"))
   /\ count (is_new_page 0) (trace visit.2) = 1
   /\ count (is_page_close 0) (trace visit.2) = 0)
  /\ (length (match search.1 with Normal links => links | Throw _ => [] end)
      = 2
      /\ count (is_new_page 0) (trace search.2) = 1
      /\ count (is_page_close 0) (trace search.2) = 0).
Proof. vm_compute. repeat split. Qed.

(** What a visit that throws before its close, and the search visit, leave
    behind: a page that is not closed. *)
Lemma pages_left_open :
  (forall pb url st,
      is_Some (applyStealthScripts_error pb)
      \/ is_Some (setRequestInterception_error pb)
      \/ is_Some (goto_error pb)
      \/ is_Some (addScriptTag_error pb)
      \/ is_Some (evaluate_error pb) ->
      count (is_page_close (next_page st))
        (visit_events toMarkdown pb url (next_page st)) = 0)
  /\ (forall pb opts st,
         exists evs,
           trace (search_page pb opts st).2 = trace st ++ evs
           /\ count (is_new_page (next_page st)) evs = pages_opened pb
           /\ forall other, count (is_page_close other) evs = 0).
Proof.
  split.
  - intros pb url st H. rewrite visit_events_closes.
    destruct (newPage_error pb); [reflexivity|].
    destruct H as [[e H]|[[e H]|[[e H]|[[e H]|[e H]]]]]; rewrite H;
      repeat case_match; reflexivity.
  - intros pb opts st. rewrite search_page_frame. simpl.
    exists (search_events pb opts (next_page st)).
    split; [reflexivity|]. split; [apply search_events_opens|].
    intros other. apply search_events_closes.
Qed.

(** C2, amended.  A link visit that succeeds opens one page and closes it
    exactly once; a visit closes no page but its own; and over a whole run
    no page is closed twice, nor closed without having been opened. *)
Theorem page_closed_once_on_success (pb : page_behaviour) (url : js_string)
    (st : state) (v : VisitResult) :
  let page := next_page st in
  let visit := visitLink toMarkdown pb url st in
  visit.1 = Normal v ->
  (exists evs,
      trace visit.2 = trace st ++ evs
      /\ count (is_new_page page) evs = 1
      /\ count (is_page_close page) evs = 1
      /\ (forall other, other <> page ->
                        count (is_page_close other) evs = 0))
  /\ (forall o env p,
         count (is_page_close p) (trace (main toMarkdown o env).2)
         <= count (is_new_page p) (trace (main toMarkdown o env).2)
         /\ count (is_new_page p) (trace (main toMarkdown o env).2) <= 1).
Proof.
  intros page visit. subst visit page. rewrite visitLink_frame. simpl.
  intros Hv. split.
  - exists (visit_events toMarkdown pb url (next_page st)).
    split; [reflexivity|].
    apply visit_outcome_success in Hv as (H1 & H2 & H3 & H4 & H5 & H6 & _).
    rewrite visit_events_opens, visit_events_closes.
    unfold pages_opened. rewrite H1, H2, H3, H4, H5, H6.
    split; [reflexivity|]. split; [reflexivity|].
    intros other Hne.
    apply (visit_events_other_page pb url (next_page st) other Hne).
  - intros o env p. apply main_pages.
Qed.

(** ** The final results of a run *)

Lemma final_results_elem (finalResults : list (settled VisitResult))
    (r : VisitResult) :
  Some r ∈ final_results finalResults
  <-> Fulfilled r ∈ finalResults /\ v_content r <> [].
Proof.
  unfold final_results. rewrite !list_elem_of_In, List.filter_In, List.in_map_iff.
  simpl. rewrite negb_true_iff, is_empty_false. split.
  - intros ((item & Hitem & Hin) & Hc). split; [|exact Hc].
    destruct item as [r'|e]; [|discriminate]. simpl in Hitem.
    injection Hitem as ->. exact Hin.
  - intros (Hin & Hc). split; [|exact Hc]. exists (Fulfilled r). auto.
Qed.

Lemma main_final_logs (o : options) (env : environment) (text : js_string)
    (results : list (option VisitResult)) :
  ELogFinal text results ∈ trace (main toMarkdown o env).2 ->
  exists fr, results = final_results fr.
Proof.
  destruct (main_cases o env) as [(e & ->)|[(e & ->)|(Hq & Hl & Hn)]].
  { simpl. intros H. apply list_elem_of_singleton in H. discriminate. }
  { simpl. intros H. repeat (apply elem_of_cons in H as [H|H];
                             [discriminate|]).
    inversion H. }
  rewrite (main_launched o env Hq Hl Hn).
  destruct (promise_all_run_inv (search_calls o) (schedule env))
    as (pipes & (_ & Hlog & _) & _).
  destruct (promise_all _ _ _ _ _) as [[[[]|e]|] st]; simpl in *;
    rewrite ?elem_of_app, ?list_elem_of_singleton; intros H.
  - destruct H as [H|H]; [exact (Hlog _ _ H)|discriminate].
  - destruct H as [[H|H]|H]; [exact (Hlog _ _ H)|discriminate|discriminate].
  - exact (Hlog _ _ H).
Qed.

(** C4. No entry without content is in the results of a final log: the
    results are the values of the fulfilled visits with a non-empty
    content, a rejected visit and a visit with empty content being left
    out; this holds of every final log of every run; and a visit whose
    extraction yields nothing has an empty content, provided the
    conversion of the empty string is empty. *)
Theorem final_results_have_content :
  (forall finalResults,
      Forall (fun v => exists r, v = Some r /\ v_content r <> [])
        (final_results finalResults)
      /\ (forall r, Some r ∈ final_results finalResults
                    <-> Fulfilled r ∈ finalResults /\ v_content r <> []))
  /\ (forall o env text results,
         ELogFinal text results ∈ trace (main toMarkdown o env).2 ->
         Forall (fun v => exists r, v = Some r /\ v_content r <> []) results)
  /\ (forall pb url v,
         toMarkdown [] = [] ->
         or_empty (a_content <$> readability pb) = [] ->
         visit_outcome toMarkdown pb url = Normal v ->
         has_content (value_or_null (Fulfilled v)) = false).
Proof.
  split; [|split].
  - intros finalResults. split.
    + apply final_results_all_content.
    + apply final_results_elem.
  - intros o env text results Hin.
    destruct (main_final_logs o env text results Hin) as (fr & ->).
    apply final_results_all_content.
  - intros pb url v Hmd Hempty Hv.
    apply visit_outcome_success in Hv as (_ & _ & _ & _ & _ & _ & _ & ->).
    simpl. rewrite Hempty, Hmd. reflexivity.
Qed.

(** ** The browser session of a run *)

Lemma pipeline_event_not_session (q : nat) (e : event) :
  is_pipeline_event q e = true -> is_session_event e = false.
Proof. destruct e; simpl; intros H; try reflexivity; discriminate H. Qed.

Lemma elem_of_after_launch (e : event) (evs : list event) :
  e ∈ EBrowserLaunch :: evs -> e <> EBrowserLaunch -> e ∈ evs.
Proof.
  intros H Hne. apply elem_of_cons in H as [H|H]; [contradiction|exact H].
Qed.

(** C9. A missing query, or a browser that fails to launch, makes the
    run end with exit code 1, and with no browser work in its trace: the
    missing query is reported before the browser is launched. *)
Theorem missing_query_or_launch_failure_exits_nonzero
    (o : options) (env : environment) :
  query_missing (query o) = true \/ is_Some (launch_error env) ->
  (main toMarkdown o env).1 = Some 1%Z
  /\ (main toMarkdown o env).1 <> Some 0%Z
  /\ (forall e, e ∈ trace (main toMarkdown o env).2 ->
                is_browser_work e = false)
  /\ (query_missing (query o) = true ->
      trace (main toMarkdown o env).2
      = [EConsoleError
           (inr (JsError (lit "Error") (lit "missing query")))]).
Proof.
  intros H. destruct (main_not_launched o env H) as (e & E).
  rewrite E. simpl. repeat split.
  - discriminate.
  - intros e' He'. apply list_elem_of_singleton in He' as ->. reflexivity.
  - intros Hq. unfold main, action in E. rewrite Hq in E.
    injection E as E. rewrite <- E. reflexivity.
Qed.

(** C8, as stated, fails: with two queries, the first rejecting while a
    visit of the second is still queued, the browser is closed with that
    visit and the second pipeline unsettled; and a run without query
    releases nothing. *)
Lemma browser_closed_before_all_settled :
  let env :=
    {| launch_error := None; queue_error := None;
       schedule := [(1, TSearch, results_page); (1, TVisit 0, article_page);
                    (0, TSearch, navigation_failure)] |} in
  let tr :=
    trace (main (fun s => s) (sample_options ["rocq"; "iris"] None) env).2 in
  (count is_browser_close tr = 1
   /\ count (is_queue_add 1 1) tr = 1
   /\ count (is_visit_settled 1 1) tr = 0
   /\ count (is_search_settled 1) tr = 0)
  /\ count is_browser_close (trace (main (fun s => s) no_query env).2) = 0.
Proof. vm_compute. repeat split. Qed.

(** C8, amended.  A run that has no query or fails to launch never holds a
    session and releases none.  A run that launched the browser and ends
    releases it exactly once, on return and on throw alike, after all the
    events of its pipelines.  When the run returns, every pipeline has
    fulfilled and every visit submitted to the queue has settled before
    the release.  When it throws, the queue was refused or a pipeline
    has rejected before the release. *)
Theorem browser_released_once (o : options) (env : environment) :
  let run := main toMarkdown o env in
  let k := length (queries_of (query o)) in
  (query_missing (query o) = true \/ is_Some (launch_error env) ->
   count is_browser_launch (trace run.2) = 0
   /\ count is_browser_close (trace run.2) = 0)
  /\ (query_missing (query o) = false ->
      launch_error env = None ->
      match run.1 with
      | None =>
          exists evs,
            trace run.2 = EBrowserLaunch :: evs
            /\ (forall e, e ∈ evs -> is_session_event e = false)
      | Some code =>
          exists evs tail,
            trace run.2 = EBrowserLaunch :: evs ++ EBrowserClose :: tail
            /\ (forall e, e ∈ evs ++ tail -> is_session_event e = false)
            /\ (code = 0%Z ->
                tail = []
                /\ (forall q, q < k -> ESearchSettled q true ∈ evs)
                /\ (forall q i u, EQueueAdd q i u ∈ evs ->
                                  exists b, EVisitSettled q i b ∈ evs))
            /\ (code <> 0%Z ->
                is_Some (queue_error env)
                \/ exists q, ESearchSettled q false ∈ evs)
      end).
Proof.
  intros run k. subst run. split.
  - intros H. destruct (main_not_launched o env H) as (e & ->).
    split; reflexivity.
  - intros Hq Hl. destruct (queue_error env) as [e|] eqn:Hn.
    { rewrite (main_queue_rejected o env e Hq Hl Hn). simpl.
      exists [], [EConsoleError (error_shown e)]. split; [reflexivity|].
      split; [|split].
      - intros e0 He. apply list_elem_of_singleton in He as ->. reflexivity.
      - discriminate.
      - intros _. left. eauto. }
    rewrite (main_launched o env Hq Hl Hn).
    destruct (promise_all_run_inv (search_calls o) (schedule env))
      as (pipes & (_ & _ & (evs & Htr & Hevs) & Hpipes & _) & Hlen & Hres).
    assert (Hk : length pipes = k).
    { rewrite Hlen. unfold search_calls. apply length_fmap. }
    assert (Hsession : forall e, e ∈ evs -> is_session_event e = false).
    { intros e He. destruct (Hevs e He) as (q & _ & Hq').
      eapply pipeline_event_not_session; eauto. }
    destruct (promise_all _ _ _ _ _) as [[[[]|e]|] st]; simpl in *.
    + destruct Hres as [Hall _]. exists evs, []. rewrite Htr.
      split; [reflexivity|]. split; [|split].
      * intros e0 He. rewrite app_nil_r in He. auto.
      * intros _. split; [reflexivity|].
        assert (Hful : forall q, q < k -> pipes !! q = Some SearchFulfilled).
        { intros q Hlt. rewrite <- Hk in Hlt.
          destruct (lookup_lt_is_Some_2 pipes q Hlt) as (p & Hp).
          rewrite Hp. f_equal.
          rewrite Forall_forall in Hall. apply Hall.
          eapply list_elem_of_lookup_2; eauto. }
        split.
        -- intros q Hlt. destruct (Hpipes q _ (Hful q Hlt)) as [Hs _].
           rewrite Htr in Hs.
           apply elem_of_after_launch in Hs; [exact Hs|discriminate].
        -- intros q i u Hin. destruct (Hevs _ Hin) as (q0 & Hlt & Hq0).
           simpl in Hq0. apply Nat.eqb_eq in Hq0. subst q0.
           rewrite Hk in Hlt.
           destruct (Hpipes q _ (Hful q Hlt)) as [_ Hadd].
           destruct (Hadd i u) as (b & Hb).
           { rewrite Htr. right. exact Hin. }
           exists b. rewrite Htr in Hb.
           apply elem_of_after_launch in Hb; [exact Hb|discriminate].
      * intros Hne. congruence.
    + exists evs, [EConsoleError (error_shown e)]. rewrite Htr.
      split; [rewrite <- app_assoc; reflexivity|]. split; [|split].
      * intros e0 He. apply elem_of_app in He as [He|He]; [auto|].
        apply list_elem_of_singleton in He as ->. reflexivity.
      * intros Hc. discriminate.
      * intros _. right. apply first_rejection_Some in Hres.
        apply list_elem_of_lookup in Hres as (q & Hp).
        exists q. pose proof (Hpipes q _ Hp) as Hs. simpl in Hs.
        rewrite Htr in Hs.
        apply elem_of_after_launch in Hs; [exact Hs|discriminate].
    + exists evs. auto.
Qed.

(** A run that throws after the launch throws the error of the result
    page of one of its queries. *)
Lemma main_throw_is_search_failure (o : options) (env : environment) :
  query_missing (query o) = false ->
  launch_error env = None ->
  queue_error env = None ->
  (main toMarkdown o env).1 = Some 1%Z ->
  exists q pb opts e,
    (q, TSearch, pb) ∈ schedule env
    /\ search_calls o !! q = Some opts
    /\ search_outcome pb opts = Throw e.
Proof.
  intros Hq Hl Hn. rewrite (main_launched o env Hq Hl Hn).
  destruct (promise_all_run_inv (search_calls o) (schedule env))
    as (pipes & (_ & _ & _ & _ & Hrej) & _ & Hres).
  destruct (promise_all _ _ _ _ _) as [[[[]|e]|] st]; simpl in *;
    try discriminate.
  intros _. apply first_rejection_Some in Hres.
  destruct (Hrej e Hres) as (q & pb & opts & H). exists q, pb, opts, e. exact H.
Qed.

(** ** One pipeline and the order of its visits *)

Lemma logged_final_app (a b : list event) :
  logged_final (a ++ b) = logged_final a ++ logged_final b.
Proof. apply omap_app. Qed.

Lemma logged_final_none (l : list event) :
  (forall e, e ∈ l -> forall text results, e <> ELogFinal text results) ->
  logged_final l = [].
Proof.
  induction l as [|e l IH]; intros H; [reflexivity|].
  assert (Hl : logged_final l = []).
  { apply IH. intros e' He'. apply H. right. exact He'. }
  destruct e; try exact Hl. exfalso.
  eapply (H _ (list_elem_of_here _ _)). reflexivity.
Qed.

Lemma logged_final_task (l : list event) :
  forallb is_task_event l = true -> logged_final l = [].
Proof.
  intros Hl. apply logged_final_none. intros e He text results ->.
  pose proof (task_event_elem l _ Hl He) as H. discriminate H.
Qed.

Lemma logged_final_queue_adds (q : nat) (links : list SearchResult) :
  logged_final (queue_adds q links) = [].
Proof.
  apply logged_final_none. intros e He text results ->.
  apply queue_adds_elem in He as (i & item & _ & He). discriminate He.
Qed.

Lemma link_outcomes_lookup (beh : nat -> page_behaviour)
    (links : list SearchResult) (i : nat) :
  link_outcomes toMarkdown beh links !! i
  = (fun link => settle (visit_outcome toMarkdown (beh i) (sr_url link)))
      <$> links !! i.
Proof. unfold link_outcomes. apply list_lookup_imap. Qed.

Lemma link_outcomes_length (beh : nat -> page_behaviour)
    (links : list SearchResult) :
  length (link_outcomes toMarkdown beh links) = length links.
Proof. unfold link_outcomes. apply length_imap. Qed.

Lemma partial_slots_lookup (outcomes : list (settled VisitResult))
    (done : list nat) (i : nat) :
  partial_slots outcomes done !! i
  = (fun o => if bool_decide (i ∈ done) then Some o else None)
      <$> outcomes !! i.
Proof. unfold partial_slots. apply list_lookup_imap. Qed.

Lemma partial_slots_nil (outcomes : list (settled VisitResult)) :
  partial_slots outcomes [] = replicate (length outcomes) None.
Proof.
  apply list_eq. intros i. rewrite partial_slots_lookup.
  destruct (outcomes !! i) as [o|] eqn:E; simpl.
  - symmetry. apply lookup_replicate. split; [reflexivity|].
    apply lookup_lt_is_Some. eauto.
  - symmetry. apply lookup_replicate_None. apply lookup_ge_None. exact E.
Qed.

Lemma partial_slots_insert (outcomes : list (settled VisitResult))
    (done : list nat) (i : nat) (o : settled VisitResult) :
  outcomes !! i = Some o ->
  <[i := Some o]> (partial_slots outcomes done)
  = partial_slots outcomes (done ++ [i]).
Proof.
  intros Hi. apply list_eq. intros j. rewrite partial_slots_lookup.
  destruct (decide (i = j)) as [<-|Hne].
  - rewrite list_lookup_insert_eq.
    + rewrite Hi. simpl. rewrite bool_decide_eq_true_2; [reflexivity|].
      apply elem_of_app. right. left.
    + unfold partial_slots. rewrite length_imap.
      apply lookup_lt_is_Some. eauto.
  - rewrite list_lookup_insert_ne by exact Hne.
    rewrite partial_slots_lookup. destruct (outcomes !! j); [|reflexivity].
    simpl. rewrite (bool_decide_ext (j ∈ done ++ [i]) (j ∈ done));
      [reflexivity|].
    rewrite elem_of_app, list_elem_of_singleton. intuition congruence.
Qed.

Lemma partial_slots_all (outcomes : list (settled VisitResult))
    (done : list nat) :
  (forall i, i < length outcomes -> i ∈ done) ->
  all_settled (partial_slots outcomes done) = Some outcomes.
Proof.
  intros H. unfold all_settled. apply mapM_Some.
  apply Forall2_same_length_lookup. split.
  - unfold partial_slots. apply length_imap.
  - intros i s o Hs Ho. rewrite partial_slots_lookup, Ho in Hs. simpl in Hs.
    rewrite bool_decide_eq_true_2 in Hs.
    + injection Hs as <-. reflexivity.
    + apply H. apply lookup_lt_is_Some. eauto.
Qed.

Lemma partial_slots_pending (outcomes : list (settled VisitResult))
    (done : list nat) (j : nat) :
  j < length outcomes -> j ∉ done ->
  all_settled (partial_slots outcomes done) = None.
Proof.
  intros Hj Hnd. destruct (all_settled _) as [fr|] eqn:E; [|reflexivity].
  exfalso. destruct (all_settled_lookup _ _ j E) as (o & Ho & _).
  { unfold partial_slots. rewrite length_imap. exact Hj. }
  rewrite partial_slots_lookup in Ho.
  destruct (outcomes !! j); [|discriminate]. simpl in Ho.
  rewrite bool_decide_eq_false_2 in Ho by exact Hnd. discriminate.
Qed.

(** The visits still to complete, in whatever order, bring the pipeline to
    its final log, which holds the settlements in the order of the links. *)
Lemma visits_run (q : nat) (opts : search_options)
    (beh : nat -> page_behaviour) (links : list SearchResult)
    (rest : list nat) :
  forall (done : list nat) (st : state),
    NoDup (done ++ rest) ->
    (forall i, i ∈ done ++ rest <-> i < length links) ->
    rest <> [] ->
    exists st' evs,
      search_run toMarkdown q opts (visit_entries beh rest)
        (Visiting links
           (partial_slots (link_outcomes toMarkdown beh links) done)) st
      = (SearchFulfilled, st')
      /\ trace st' = trace st ++ evs
      /\ logged_final evs
         = [(so_query opts,
             final_results (link_outcomes toMarkdown beh links))]
      /\ (forall j o,
             j ∈ rest ->
             link_outcomes toMarkdown beh links !! j = Some o ->
             EVisitSettled q j (is_fulfilled o) ∈ evs).
Proof.
  induction rest as [|i rest IH]; intros done st Hnd Hcov Hne;
    [contradiction|].
  set (os := link_outcomes toMarkdown beh links) in *.
  assert (Hi : i < length links).
  { apply Hcov. apply elem_of_app. right. left. }
  assert (Hidone : i ∉ done).
  { apply NoDup_app in Hnd as (_ & Hdis & _). intros Hin.
    apply (Hdis i Hin). left. }
  destruct (lookup_lt_is_Some_2 links i Hi) as (item & Hitem).
  set (o := settle (visit_outcome toMarkdown (beh i) (sr_url item))).
  assert (Ho : os !! i = Some o).
  { subst os. rewrite link_outcomes_lookup, Hitem. reflexivity. }
  assert (Hslot : partial_slots os done !! i = Some None).
  { rewrite partial_slots_lookup, Ho. simpl.
    rewrite bool_decide_eq_false_2 by exact Hidone. reflexivity. }
  assert (Hlen : length os = length links).
  { subst os. apply link_outcomes_length. }
  cbn [visit_entries map search_run]. unfold search_step.
  rewrite Hitem, Hslot, visitLink_frame. fold o.
  rewrite (partial_slots_insert os done i o Ho). unfold finish.
  destruct rest as [|j rest].
  - rewrite partial_slots_all.
    + cbn [visit_entries map search_run]. eexists _, _.
      split; [reflexivity|]. split; [|split].
      * simpl. rewrite <- !app_assoc. reflexivity.
      * rewrite logged_final_app,
          (logged_final_task _ (visit_events_task _ _ _)).
        reflexivity.
      * intros j o' Hj Ho'. apply list_elem_of_singleton in Hj as ->.
        rewrite Ho in Ho'. injection Ho' as <-.
        apply elem_of_app. right. left.
    + intros k Hk. rewrite Hlen in Hk. apply Hcov in Hk. exact Hk.
  - rewrite (partial_slots_pending os (done ++ [i]) j).
    + destruct (IH (done ++ [i])
                  (record (EVisitSettled q i (is_fulfilled o))
                     {| next_page := next_page st + pages_opened (beh i);
                        trace := trace st
                                 ++ visit_events toMarkdown (beh i)
                                      (sr_url item) (next_page st) |}))
        as (st' & evs & Hrun & Htr & Hlog & Hset).
      * rewrite <- app_assoc. exact Hnd.
      * intros k. rewrite <- app_assoc. apply Hcov.
      * discriminate.
      * fold (visit_entries beh (j :: rest)). rewrite Hrun.
        eexists _, _. split; [reflexivity|]. split; [|split].
        -- rewrite Htr. simpl. rewrite <- !app_assoc. reflexivity.
        -- rewrite !logged_final_app,
             (logged_final_task _ (visit_events_task _ _ _)), Hlog.
           reflexivity.
        -- intros k o' Hk Ho'. apply elem_of_cons in Hk as [->|Hk].
           ++ rewrite Ho in Ho'. injection Ho' as <-.
              apply elem_of_app. right. left.
           ++ apply elem_of_app. right. right. exact (Hset k o' Hk Ho').
    + rewrite Hlen. apply Hcov. apply elem_of_app. right. right. left.
    + apply NoDup_app in Hnd as (Hd & Hdis & Hr).
      apply NoDup_cons in Hr as [Hij _]. intros Hin.
      apply elem_of_app in Hin as [Hin|Hin].
      * apply (Hdis j Hin). right. left.
      * apply list_elem_of_singleton in Hin. subst j. apply Hij. left.
Qed.

(** One pipeline from its start: the result page, then the visits in the
    order [order]. *)
Lemma pipeline_run (q : nat) (opts : search_options) (pb0 : page_behaviour)
    (beh : nat -> page_behaviour) (links : list SearchResult)
    (order : list nat) (st : state) :
  search_outcome pb0 opts = Normal links ->
  order ≡ₚ seq 0 (length links) ->
  exists st' evs,
    search_run toMarkdown q opts ((TSearch, pb0) :: visit_entries beh order)
      Searching st
    = (SearchFulfilled, st')
    /\ trace st' = trace st ++ evs
    /\ logged_final evs
       = [(so_query opts, final_results (link_outcomes toMarkdown beh links))]
    /\ (forall j o,
           link_outcomes toMarkdown beh links !! j = Some o ->
           EVisitSettled q j (is_fulfilled o) ∈ evs).
Proof.
  intros Hs Hperm. cbn [search_run]. unfold search_step.
  rewrite search_page_frame, Hs.
  destruct links as [|link links].
  - apply Permutation_nil_r in Hperm. subst order.
    cbn. eexists _, _. split; [reflexivity|]. split; [|split].
    + simpl. rewrite <- !app_assoc. reflexivity.
    + rewrite logged_final_app,
        (logged_final_task _ (search_events_task _ _ _)). reflexivity.
    + intros j o Hj. discriminate.
  - set (ls := link :: links) in *.
    set (os := link_outcomes toMarkdown beh ls).
    assert (Hlen : length os = length ls) by apply link_outcomes_length.
    rewrite <- Hlen, <- (partial_slots_nil os). unfold finish.
    rewrite (partial_slots_pending os [] 0);
      [|rewrite Hlen; unfold ls; simpl; lia|apply not_elem_of_nil].
    destruct (visits_run q opts beh ls order []
                (record_all (queue_adds q ls)
                   {| next_page := next_page st + pages_opened pb0;
                      trace := trace st
                               ++ search_events pb0 opts (next_page st) |}))
      as (st' & evs & Hrun & Htr & Hlog & Hset).
    + simpl. rewrite Hperm. apply NoDup_seq.
    + intros i. simpl. rewrite Hperm, elem_of_seq. unfold ls. simpl. lia.
    + intros ->. apply Permutation_nil_l in Hperm. discriminate.
    + fold os in Hrun, Hlog, Hset. rewrite Hrun.
      eexists _, _. split; [reflexivity|]. split; [|split].
      * rewrite Htr. simpl. rewrite <- !app_assoc. reflexivity.
      * rewrite !logged_final_app,
          (logged_final_task _ (search_events_task _ _ _)), Hlog.
        rewrite logged_final_queue_adds. reflexivity.
      * intros j o Hj. apply elem_of_app. right. apply elem_of_app. right.
        apply (Hset j o); [|exact Hj].
        rewrite Hperm, elem_of_seq. apply lookup_lt_Some in Hj. lia.
Qed.

Lemma visit_outcome_url (pb : page_behaviour) (url : js_string)
    (v : VisitResult) :
  visit_outcome toMarkdown pb url = Normal v -> v_url v = url.
Proof.
  intros H. apply visit_outcome_success in H as (_ & _ & _ & _ & _ & _ & _ & ->).
  reflexivity.
Qed.

Lemma link_outcomes_cons (beh : nat -> page_behaviour) (link : SearchResult)
    (links : list SearchResult) :
  link_outcomes toMarkdown beh (link :: links)
  = settle (visit_outcome toMarkdown (beh 0) (sr_url link))
    :: link_outcomes toMarkdown (fun i => beh (S i)) links.
Proof. unfold link_outcomes. rewrite imap_cons. reflexivity. Qed.

(** The urls of the final results, in their order, are among the urls of
    the links, in the order of the links. *)
Lemma final_results_urls_sublist (beh : nat -> page_behaviour)
    (links : list SearchResult) :
  omap (fmap v_url) (final_results (link_outcomes toMarkdown beh links))
  `sublist_of` map sr_url links.
Proof.
  revert beh. induction links as [|link links IH]; intros beh.
  - apply sublist_nil_l.
  - rewrite link_outcomes_cons. unfold final_results. cbn [map List.filter].
    destruct (visit_outcome toMarkdown (beh 0) (sr_url link)) as [v|e] eqn:E;
      cbn [settle value_or_null has_content].
    + destruct (negb (is_empty (v_content v))).
      * cbn. rewrite (visit_outcome_url _ _ _ E).
        apply sublist_skip. apply IH.
      * apply sublist_cons. apply IH.
    + apply sublist_cons. apply IH.
Qed.

(** A rejected settlement adds nothing to the final results. *)
Lemma final_results_delete_rejected (outcomes : list (settled VisitResult))
    (i : nat) (e : js_error) :
  outcomes !! i = Some (Rejected e) ->
  final_results (delete i outcomes) = final_results outcomes.
Proof.
  revert i. induction outcomes as [|o os IH]; intros i Hi; [discriminate|].
  destruct i as [|i].
  - injection Hi as ->. reflexivity.
  - change (delete (S i) (o :: os)) with (o :: delete i os).
    unfold final_results in *.
    cbn [map List.filter]. rewrite (IH i Hi). reflexivity.
Qed.

Lemma order_inv_step (searches : list search_options)
    (sched0 : list (nat * task * page_behaviour)) (q : nat)
    (opts : search_options) (t : task) (pb : page_behaviour)
    (p p' : pipeline) (evs : list event) (pipes : list pipeline)
    (st : state) :
  (q, t, pb) ∈ sched0 ->
  searches !! q = Some opts ->
  pipes !! q = Some p ->
  first_rejection pipes = None ->
  order_inv toMarkdown sched0 pipes st ->
  pipe_transition toMarkdown q opts (next_page st) t pb p p' evs ->
  order_inv toMarkdown sched0 (<[q := p']> pipes)
    {| next_page := next_page st + pages_opened pb;
       trace := trace st ++ evs |}.
Proof.
  intros Hsched _ Hp _ (Hslots & Hlog) Htrans.
  assert (Hnolog : forall l text results,
             forallb is_task_event l = true ->
             ELogFinal text results ∉ l).
  { intros l text results Hl Hin.
    pose proof (task_event_elem l _ Hl Hin) as H. discriminate H. }
  assert (Hother : forall q' links slots,
             q' <> q ->
             <[q := p']> pipes !! q' = Some (Visiting links slots) ->
             pipes !! q' = Some (Visiting links slots)).
  { intros q' links slots Hne H.
    rewrite list_lookup_insert_ne in H by congruence. exact H. }
  assert (Hsame : forall links slots,
             <[q := p']> pipes !! q = Some (Visiting links slots) ->
             p' = Visiting links slots).
  { intros links slots H.
    apply list_lookup_insert_Some in H as [(_ & H & _)|(Hne & _)];
      [exact H|congruence]. }
  assert (Hcase : forall q' links slots,
             <[q := p']> pipes !! q' = Some (Visiting links slots) ->
             (q' = q /\ p' = Visiting links slots)
             \/ pipes !! q' = Some (Visiting links slots)).
  { intros q' links slots H. destruct (decide (q' = q)) as [->|Hne].
    - left. split; [reflexivity|]. exact (Hsame links slots H).
    - right. exact (Hother q' links slots Hne H). }
  destruct Htrans as
    [pb e Hs|pb Hs|pb links Hs Hne|pb links slots i item o Hl Hsl Ho Ha
    |pb links slots i item o finalResults Hl Hsl Ho Ha]; split; simpl.
  - intros q' links slots H.
    destruct (Hcase q' links slots H) as [[_ H']|H']; [discriminate|].
    exact (Hslots q' links slots H').
  - intros text results Hin. apply elem_of_app in Hin as [Hin|Hin];
      [exact (Hlog text results Hin)|].
    apply elem_of_app in Hin as [Hin|Hin].
    + destruct (Hnolog _ text results (search_events_task pb opts _) Hin).
    + apply list_elem_of_singleton in Hin. discriminate.
  - intros q' links slots H.
    destruct (Hcase q' links slots H) as [[_ H']|H']; [discriminate|].
    exact (Hslots q' links slots H').
  - intros text results Hin. apply elem_of_app in Hin as [Hin|Hin];
      [exact (Hlog text results Hin)|].
    apply elem_of_app in Hin as [Hin|Hin].
    + destruct (Hnolog _ text results (search_events_task pb opts _) Hin).
    + apply elem_of_cons in Hin as [Hin|Hin].
      * injection Hin as -> ->. exists q, [], []. split; [reflexivity|].
        split; [reflexivity|]. intros i o Hi. discriminate.
      * apply list_elem_of_singleton in Hin. discriminate.
  - intros q' links' slots' H.
    destruct (Hcase q' links' slots' H) as [[-> H']|H'];
      [|exact (Hslots q' links' slots' H')].
    injection H' as <- <-. split; [apply length_replicate|].
    intros i o Hi. apply lookup_replicate in Hi as [Hi _]. discriminate.
  - intros text results Hin. apply elem_of_app in Hin as [Hin|Hin];
      [exact (Hlog text results Hin)|].
    apply elem_of_app in Hin as [Hin|Hin].
    + destruct (Hnolog _ text results (search_events_task pb opts _) Hin).
    + apply queue_adds_elem in Hin as (j & item & _ & Hin). discriminate.
  - intros q' links' slots' H.
    destruct (Hcase q' links' slots' H) as [[-> H']|H'];
      [|exact (Hslots q' links' slots' H')].
    injection H' as <- <-. destruct (Hslots q links slots Hp) as [Hlen Hold].
    split; [rewrite length_insert; exact Hlen|].
    intros j o' Hj.
    apply list_lookup_insert_Some in Hj as [(<- & [= <-] & _)|(Hne & Hj)].
    + exists item, pb. auto.
    + exact (Hold j o' Hj).
  - intros text results Hin. apply elem_of_app in Hin as [Hin|Hin];
      [exact (Hlog text results Hin)|].
    apply elem_of_app in Hin as [Hin|Hin].
    + destruct (Hnolog _ text results
                  (visit_events_task pb (sr_url item) _) Hin).
    + apply list_elem_of_singleton in Hin. discriminate.
  - intros q' links' slots' H.
    destruct (Hcase q' links' slots' H) as [[_ H']|H']; [discriminate|].
    exact (Hslots q' links' slots' H').
  - intros text results Hin. apply elem_of_app in Hin as [Hin|Hin];
      [exact (Hlog text results Hin)|].
    apply elem_of_app in Hin as [Hin|Hin].
    + destruct (Hnolog _ text results
                  (visit_events_task pb (sr_url item) _) Hin).
    + apply elem_of_cons in Hin as [Hin|Hin]; [discriminate|].
      apply elem_of_cons in Hin as [Hin|Hin];
        [|apply list_elem_of_singleton in Hin; discriminate].
      injection Hin as -> ->.
      destruct (Hslots q links slots Hp) as [Hlen Hold].
      exists q, links, finalResults. split; [reflexivity|].
      unfold all_settled in Ha. apply mapM_Some in Ha. split.
      * rewrite <- (Forall2_length _ _ _ Ha), length_insert. exact Hlen.
      * intros j o' Hj.
        destruct (Forall2_lookup_r _ _ _ _ _ Ha Hj) as (s' & Hs' & Heq).
        simpl in Heq. subst s'.
        apply list_lookup_insert_Some in Hs'
          as [(<- & [= <-] & _)|(Hne & Hs')].
        -- exists item, pb. auto.
        -- exact (Hold j o' Hs').
Qed.

Lemma main_final_logs_aligned (o : options) (env : environment)
    (text : js_string) (results : list (option VisitResult)) :
  ELogFinal text results ∈ trace (main toMarkdown o env).2 ->
  exists q links outcomes,
    results = final_results outcomes
    /\ aligned toMarkdown (schedule env) q links outcomes.
Proof.
  destruct (main_cases o env) as [(e & ->)|[(e & ->)|(Hq & Hl & Hn)]].
  { simpl. intros H. apply list_elem_of_singleton in H. discriminate. }
  { simpl. intros H. repeat (apply elem_of_cons in H as [H|H];
                             [discriminate|]).
    inversion H. }
  rewrite (main_launched o env Hq Hl Hn).
  destruct (promise_all_invariant (order_inv toMarkdown (schedule env))
              (search_calls o) (schedule env)
              (order_inv_step (search_calls o) (schedule env))
              (schedule env)
              (replicate (length (search_calls o)) Searching)
              (record EBrowserLaunch initial_state))
    as (pipes & (_ & Hlog) & _).
  { auto. }
  { split.
    - intros q links slots H. apply lookup_replicate in H as [H _].
      discriminate.
    - intros text' results' H. apply list_elem_of_singleton in H.
      discriminate. }
  destruct (promise_all _ _ _ _ _) as [[[[]|e]|] st]; simpl in *;
    rewrite ?elem_of_app, ?list_elem_of_singleton; intros H.
  - destruct H as [H|H]; [exact (Hlog _ _ H)|discriminate].
  - destruct H as [[H|H]|H]; [exact (Hlog _ _ H)|discriminate|discriminate].
  - exact (Hlog _ _ H).
Qed.

(** The urls of the final results, in their order, are among the urls of
    the links, in the order of the links. *)
Lemma final_results_urls_sublist_gen (links : list SearchResult) :
  forall outcomes,
    Forall2 (fun o link => forall v, o = Fulfilled v -> v_url v = sr_url link)
      outcomes links ->
    omap (fmap v_url) (final_results outcomes) `sublist_of` map sr_url links.
Proof.
  induction links as [|link links IH]; intros outcomes H.
  - apply Forall2_nil_inv_r in H as ->. apply sublist_nil_l.
  - apply Forall2_cons_inv_r in H as (o & os & Ho & Hos & ->).
    unfold final_results. cbn [map List.filter].
    destruct o as [v|e]; cbn [value_or_null has_content].
    + destruct (negb (is_empty (v_content v))).
      * cbn. rewrite (Ho v eq_refl). apply sublist_skip. apply IH, Hos.
      * apply sublist_cons. apply IH, Hos.
    + apply sublist_cons. apply IH, Hos.
Qed.

Lemma aligned_urls_sublist (sched0 : list (nat * task * page_behaviour))
    (q : nat) (links : list SearchResult)
    (outcomes : list (settled VisitResult)) :
  aligned toMarkdown sched0 q links outcomes ->
  omap (fmap v_url) (final_results outcomes) `sublist_of` map sr_url links.
Proof.
  intros [Hlen Hal]. apply final_results_urls_sublist_gen.
  apply Forall2_same_length_lookup_2; [exact Hlen|].
  intros i o link Ho Hl v ->.
  destruct (Hal i _ Ho) as (link' & pb & Hl' & _ & Heq).
  rewrite Hl in Hl'. injection Hl' as <-.
  destruct (visit_outcome toMarkdown pb (sr_url link)) as [v'|e] eqn:E;
    [|discriminate].
  simpl in Heq. injection Heq as ->. exact (visit_outcome_url _ _ _ E).
Qed.

(** C5. The settlements of the visits of a query are collected by index:
    whatever the order in which the queued visits complete, slot i holds
    the settlement of the visit of link i, a fulfilled one carrying the url
    of that link, and the final log holds the surviving entries in the
    order of the links.  And in every run, however the visits of the
    queries interleave, the results of a final log are the settlements of
    the visits of the links of one query, index by index, filtered. *)
Theorem outcomes_follow_submission_order :
  (forall q opts pb0 beh links order st,
      search_outcome pb0 opts = Normal links ->
      order ≡ₚ seq 0 (length links) ->
      let outcomes := link_outcomes toMarkdown beh links in
      let run :=
        search toMarkdown q opts
          ((TSearch, pb0) :: visit_entries beh order) st in
      run.1 = SearchFulfilled
      /\ (exists evs,
             trace run.2 = trace st ++ evs
             /\ logged_final evs = [(so_query opts, final_results outcomes)])
      /\ length outcomes = length links
      /\ (forall i link,
             links !! i = Some link ->
             outcomes !! i
             = Some (settle (visit_outcome toMarkdown (beh i)
                               (sr_url link))))
      /\ (forall i v,
             outcomes !! i = Some (Fulfilled v) ->
             exists link, links !! i = Some link /\ v_url v = sr_url link)
      /\ omap (fmap v_url) (final_results outcomes)
         `sublist_of` map sr_url links)
  /\ (forall o env text results,
         ELogFinal text results ∈ trace (main toMarkdown o env).2 ->
         exists q links outcomes,
           results = final_results outcomes
           /\ aligned toMarkdown (schedule env) q links outcomes
           /\ omap (fmap v_url) results `sublist_of` map sr_url links).
Proof.
  split.
  - intros q opts pb0 beh links order st Hs Hperm outcomes run.
    subst run outcomes. unfold search.
    destruct (pipeline_run q opts pb0 beh links order st Hs Hperm)
      as (st' & evs & -> & Htr & Hlog & _).
    split; [reflexivity|]. split; [eauto|].
    split; [apply link_outcomes_length|]. split; [|split].
    + intros i link Hi. rewrite link_outcomes_lookup, Hi. reflexivity.
    + intros i v Hi. rewrite link_outcomes_lookup in Hi.
      destruct (links !! i) as [link|]; [|discriminate]. simpl in Hi.
      exists link. split; [reflexivity|].
      destruct (visit_outcome toMarkdown (beh i) (sr_url link))
        as [v'|e] eqn:E; [|discriminate].
      simpl in Hi. injection Hi as <-. exact (visit_outcome_url _ _ _ E).
    + apply final_results_urls_sublist.
  - intros o env text results Hin.
    destruct (main_final_logs_aligned o env text results Hin)
      as (q & links & outcomes & -> & Hal).
    exists q, links, outcomes. split; [reflexivity|]. split; [exact Hal|].
    eapply aligned_urls_sublist. exact Hal.
Qed.

(** C7. A link visit that throws is a rejected settlement in its own slot
    and nothing more: the pipeline of its query still fulfils, every
    sibling visit still runs to its own settlement, which does not depend
    on the failing page, and the final log is the one the other links
    alone would give.  And no failure of a visit is thrown by the run: when
    the browser and the queue are there and the result page of every query
    loads, the run does not end with exit code 1, whatever the visits
    do. *)
Theorem visit_failure_is_isolated :
  (forall q opts pb0 beh links order st i link e,
      search_outcome pb0 opts = Normal links ->
      order ≡ₚ seq 0 (length links) ->
      links !! i = Some link ->
      visit_outcome toMarkdown (beh i) (sr_url link) = Throw e ->
      let outcomes := link_outcomes toMarkdown beh links in
      let run :=
        search toMarkdown q opts
          ((TSearch, pb0) :: visit_entries beh order) st in
      run.1 = SearchFulfilled
      /\ outcomes !! i = Some (Rejected e)
      /\ (exists evs,
             trace run.2 = trace st ++ evs
             /\ EVisitSettled q i false ∈ evs
             /\ (forall j sibling,
                    links !! j = Some sibling ->
                    EVisitSettled q j
                      (is_fulfilled
                         (settle (visit_outcome toMarkdown (beh j)
                                    (sr_url sibling)))) ∈ evs)
             /\ logged_final evs
                = [(so_query opts, final_results (delete i outcomes))])
      /\ (forall beh',
             (forall j, j <> i -> beh' j = beh j) ->
             forall j, j <> i ->
                       link_outcomes toMarkdown beh' links !! j
                       = outcomes !! j))
  /\ (forall o env,
         query_missing (query o) = false ->
         launch_error env = None ->
         queue_error env = None ->
         (forall q pb opts,
             (q, TSearch, pb) ∈ schedule env ->
             search_calls o !! q = Some opts ->
             exists links, search_outcome pb opts = Normal links) ->
         (main toMarkdown o env).1 <> Some 1%Z).
Proof.
  split.
  - intros q opts pb0 beh links order st i link e Hs Hperm Hi He outcomes run.
    subst run outcomes. unfold search.
    destruct (pipeline_run q opts pb0 beh links order st Hs Hperm)
      as (st' & evs & -> & Htr & Hlog & Hset).
    assert (Ho : link_outcomes toMarkdown beh links !! i = Some (Rejected e)).
    { rewrite link_outcomes_lookup, Hi. simpl. rewrite He. reflexivity. }
    split; [reflexivity|]. split; [exact Ho|]. split.
    + exists evs. split; [exact Htr|]. split; [|split].
      * exact (Hset i _ Ho).
      * intros j sibling Hj. apply Hset.
        rewrite link_outcomes_lookup, Hj. reflexivity.
      * rewrite (final_results_delete_rejected _ i e Ho). exact Hlog.
    + intros beh' Hsame j Hne. rewrite !link_outcomes_lookup.
      rewrite (Hsame j Hne). reflexivity.
  - intros o env Hq Hl Hn Hok Hcode.
    destruct (main_throw_is_search_failure o env Hq Hl Hn Hcode)
      as (q & pb & opts & e & Hin & Hopts & Hthrow).
    destruct (Hok q pb opts Hin Hopts) as (links & Hlinks).
    rewrite Hlinks in Hthrow. discriminate.
Qed.

(** With one query, [Promise.all] waits for the one pipeline. *)
Lemma promise_all_single_pipeline (opts : search_options)
    (sched : list (task * page_behaviour)) (p : pipeline) (st : state) :
  promise_all toMarkdown [opts]
    (map (fun entry => (0, entry.1, entry.2)) sched) [p] st
  = let run := search_run toMarkdown 0 opts sched p st in
    (match run.1 with
     | SearchRejected e => Some (Throw e)
     | SearchFulfilled => Some (Normal tt)
     | _ => None
     end, run.2).
Proof.
  revert p st. induction sched as [|[t pb] sched IH]; intros p st.
  - destruct p; reflexivity.
  - assert (Hidle : forall p', rejection p' <> None
                               \/ is_search_fulfilled p' = true ->
                               search_run toMarkdown 0 opts sched p' st
                               = (p', st)).
    { intros p' Hp'. clear IH. revert st.
      induction sched as [|[t' pb'] sched' IH']; intros st'; [reflexivity|].
      cbn [search_run]. destruct p'; simpl in Hp'; destruct Hp' as [Hp'|Hp'];
        try congruence; try discriminate; cbn [search_step]; apply IH'. }
    destruct p as [|links slots| |e].
    + cbn [map promise_all first_rejection omap list_omap rejection head
             forallb is_search_fulfilled andb lookup list_lookup fst snd
             search_run].
      destruct (search_step toMarkdown 0 opts t pb Searching st) as [p' st'].
      cbn [insert list_insert]. apply IH.
    + cbn [map promise_all first_rejection omap list_omap rejection head
             forallb is_search_fulfilled andb lookup list_lookup fst snd
             search_run].
      destruct (search_step toMarkdown 0 opts t pb (Visiting links slots) st)
        as [p' st'].
      cbn [insert list_insert]. apply IH.
    + cbn [map]. cbn [search_run search_step].
      rewrite Hidle by (right; reflexivity). reflexivity.
    + cbn [map]. cbn [search_run search_step].
      rewrite Hidle by (left; discriminate). reflexivity.
Qed.

End PipelineProperties.

(** ** The properties on sample runs *)

Lemma page_closed_once_on_success_witness :
  exists v,
    (visitLink (fun s => s) article_page (lit "https://rocq-prover.org/")
       initial_state).1 = Normal v
    /\ count (is_page_close 0)
         (trace (visitLink (fun s => s) article_page
                   (lit "https://rocq-prover.org/") initial_state).2) = 1.
Proof.
  eexists. split; [reflexivity|].
  edestruct (page_closed_once_on_success (fun s => s) article_page
               (lit "https://rocq-prover.org/") initial_state)
    as [(evs & Htr & _ & Hc & _) _]; [reflexivity|].
  rewrite Htr. exact Hc.
Defined.

Lemma final_results_have_content_witness :
  Forall (fun v => exists r, v = Some r /\ v_content r <> [])
    [Some {| v_content := lit "<p>text</p>"; v_title := lit "Article";
             v_url := lit "https://iris-project.org/" |}].
Proof.
  destruct (final_results_have_content (fun s => s)) as (_ & H & _).
  apply (H (sample_options ["rocq"] None) sample_environment (lit "rocq")).
  apply list_elem_of_In. vm_compute.
  repeat (first [left; reflexivity | right]).
Defined.

Lemma missing_query_or_launch_failure_exits_nonzero_witness :
  query_missing (query no_query) = true
  /\ (main (fun s => s) no_query sample_environment).1 = Some 1%Z.
Proof.
  split; [reflexivity|].
  apply (missing_query_or_launch_failure_exits_nonzero (fun s => s) no_query
           sample_environment).
  left. reflexivity.
Defined.

Lemma browser_released_once_witness :
  query_missing (query (sample_options ["rocq"] None)) = false
  /\ launch_error sample_environment = None
  /\ exists evs tail,
       trace (main (fun s => s) (sample_options ["rocq"] None)
                sample_environment).2
       = EBrowserLaunch :: evs ++ EBrowserClose :: tail.
Proof.
  split; [reflexivity|]. split; [reflexivity|].
  destruct (browser_released_once (fun s => s) (sample_options ["rocq"] None)
              sample_environment) as [_ H].
  specialize (H eq_refl eq_refl).
  change ((main (fun s => s) (sample_options ["rocq"] None)
             sample_environment).1) with (Some 0%Z) in H.
  destruct H as (evs & tail & Htr & _). exists evs, tail. exact Htr.
Defined.

Lemma outcomes_follow_submission_order_witness :
  search_outcome results_page sample_search = Normal sample_links
  /\ [1; 0] ≡ₚ seq 0 (length sample_links)
  /\ (search (fun s => s) 0 sample_search
        ((TSearch, results_page)
         :: visit_entries (fun _ => article_page) [1; 0])
        initial_state).1 = SearchFulfilled.
Proof.
  assert (Hs : search_outcome results_page sample_search = Normal sample_links)
    by reflexivity.
  assert (Hp : [1; 0] ≡ₚ seq 0 (length sample_links)) by apply perm_swap.
  split; [exact Hs|]. split; [exact Hp|].
  destruct (outcomes_follow_submission_order (fun s => s)) as [H _].
  exact (proj1 (H 0 sample_search results_page (fun _ => article_page)
                  sample_links [1; 0] initial_state Hs Hp)).
Defined.

Lemma visit_failure_is_isolated_witness :
  visit_outcome (fun s => s) (second_fails 1) (lit "https://iris-project.org/")
  = Throw (JsError (lit "Error") (lit "net::ERR_FAILED"))
  /\ (search (fun s => s) 0 sample_search
        ((TSearch, results_page) :: visit_entries second_fails [1; 0])
        initial_state).1 = SearchFulfilled.
Proof.
  split; [reflexivity|].
  destruct (visit_failure_is_isolated (fun s => s)) as [H _].
  refine (proj1 (H 0 sample_search results_page second_fails sample_links
                   [1; 0] initial_state 1
                   {| sr_title := lit "Iris";
                      sr_url := lit "https://iris-project.org/";
                      sr_content := None |}
                   (JsError (lit "Error") (lit "net::ERR_FAILED"))
                   _ _ _ _)).
  - reflexivity.
  - apply perm_swap.
  - reflexivity.
  - reflexivity.
Defined.

(** * Further properties *)

(** ** The cap and the search URL *)

(** X1. In every run the cap of a call of [search] is at least 3, whatever
    total is asked for; for a positive total T of at most 2^53 - 1 and k
    queries the caps add up to at most max(T, 3k), and when T is at least
    3k they add up to at most T and to more than T - k. *)
Theorem per_query_cap_bounds (o : options) (so : search_options) :
  so ∈ search_calls o ->
  let k := Z.of_nat (length (queries_of (query o))) in
  let cap := num_or_default (so_maxResults so) in
  (3 <= cap)%Z
  /\ (forall T,
         maxResults o = Some T ->
         (0 < T <= Number.MAX_SAFE_INTEGER)%Z ->
         (k * cap <= Z.max T (3 * k))%Z
         /\ ((3 * k <= T)%Z -> (T - k < k * cap <= T)%Z)).
Proof.
  intros Hso k cap.
  destruct (search_calls_maxResults o so Hso) as [Hm Hq].
  assert (Hk : (1 <= k)%Z).
  { subst k. destruct (queries_of (query o)); [inversion Hq|]. simpl. lia. }
  assert (Hcap : cap = match maxResults o with
                       | Some T =>
                           if (T =? 0)%Z then 10%Z
                           else Z.max 3 (Number.floor (Number.div T k))
                       | None => 10%Z
                       end).
  { subst cap. rewrite Hm. apply num_or_default_per_query. }
  split.
  - rewrite Hcap. destruct (maxResults o) as [T|]; [|lia].
    destruct (T =? 0)%Z; lia.
  - intros T HT Hpos. rewrite HT in Hcap.
    destruct (T =? 0)%Z eqn:E; [apply Z.eqb_eq in E; lia|].
    rewrite cap_exact in Hcap by lia.
    pose proof (Z.mul_div_le T k ltac:(lia)) as Hle.
    pose proof (Z.mul_succ_div_gt T k ltac:(lia)) as Hgt.
    split.
    + rewrite Hcap. destruct (Z.max_spec 3 (T / k)) as [[_ ->]|[_ ->]]; lia.
    + intros H3. assert (3 <= T / k)%Z by (apply Z.div_le_lower_bound; lia).
      rewrite Hcap, Z.max_r by lia. lia.
Qed.

Lemma per_query_cap_bounds_witness :
  (3 <= num_or_default (per_query_maxResults (Some 10%Z) 2))%Z
  /\ (2 * num_or_default (per_query_maxResults (Some 10%Z) 2)
      <= Z.max 10 (3 * 2))%Z.
Proof.
  pose (o := sample_options ["rocq"; "stdpp"] (Some 10%Z)).
  pose (so := {| so_query := lit "rocq";
                 so_maxResults := per_query_maxResults (Some 10%Z) 2 |}).
  assert (Hso : so ∈ search_calls o) by (vm_compute; left).
  destruct (per_query_cap_bounds o so Hso) as [Hmin Hsum].
  split; [exact Hmin|].
  destruct (Hsum 10%Z eq_refl) as [H _];
    [vm_compute; split; [reflexivity|discriminate]|].
  exact H.
Defined.

Lemma stripQuotes_Forall (P : code_unit -> Prop) (s : js_string) :
  Forall P s -> Forall P (stripQuotes s).
Proof.
  intros H. rewrite stripQuotes_closed_form.
  assert (Hlead : Forall P (drop_leading_quote s)).
  { destruct s as [|c rest]; [constructor|]. simpl.
    destruct (is_dquote c); [|exact H]. apply Forall_cons in H as [_ H].
    exact H. }
  destruct (drop_trailing_quote_suffix (drop_leading_quote s))
    as (post & E & _).
  rewrite E in Hlead. apply Forall_app in Hlead as [Hl _]. exact Hl.
Qed.

Lemma encodeURIComponent_defined (s : js_string) :
  Forall (fun c => is_surrogate c = false) s ->
  is_Some (URI.encodeURIComponent s).
Proof.
  induction s as [|c rest IH]; intros H; [eexists; reflexivity|].
  apply Forall_cons in H as [Hc Hrest].
  destruct (IH Hrest) as (q & Hq). simpl. rewrite Hq.
  unfold is_surrogate in Hc. apply orb_false_iff in Hc as [-> ->].
  destruct (URI.is_unescaped c); eexists; reflexivity.
Qed.

(** X3. A query without surrogate code units always has a search URL,
    whatever the cap: the encoding fails on a surrogate without its partner
    only. *)
Theorem search_url_defined (text : js_string) (m : option Z) :
  Forall (fun c => is_surrogate c = false) text ->
  is_Some (search_url text m).
Proof.
  intros H. unfold search_url.
  destruct (encodeURIComponent_defined (stripQuotes text)) as (q & ->).
  - apply stripQuotes_Forall. exact H.
  - eexists. reflexivity.
Qed.

Lemma search_url_defined_witness :
  is_Some (search_url (lit "proof assistant") (Some 5%Z)).
Proof.
  apply search_url_defined. repeat constructor.
Defined.

(** X4. Quotes around a query are lost to the search: a query and the same
    query between double quotes have the same search URL, when the query
    itself has no quote at either end. *)
Theorem quoted_query_same_url (text : js_string) (m : option Z) :
  head text <> Some DQUOTE ->
  last text <> Some DQUOTE ->
  search_url (DQUOTE :: text ++ [DQUOTE]) m = search_url text m.
Proof.
  intros Hh Hl. unfold search_url.
  assert (E1 : stripQuotes (DQUOTE :: text ++ [DQUOTE]) = text).
  { rewrite stripQuotes_closed_form. simpl.
    rewrite drop_trailing_quote_snoc. simpl. apply app_nil_r. }
  assert (E2 : stripQuotes text = text).
  { apply stripQuotes_fixed_iff. auto. }
  rewrite E1, E2. reflexivity.
Qed.

Lemma quoted_query_same_url_witness :
  search_url (DQUOTE :: lit "hello world" ++ [DQUOTE]) None
  = search_url (lit "hello world") None.
Proof.
  apply quoted_query_same_url; discriminate.
Defined.

(** ** The links of a document *)

Lemma extract_links_spec (document : node) :
  extract_links document = candidate_links_spec document.
Proof. unfold extract_links. rewrite fold_push_link. reflexivity. Qed.

Lemma links_of_elements_app (l1 l2 : list node) :
  List.filter has_both_fields
    (map container_item (List.filter (matches (ByClass (lit "g"))) (l1 ++ l2)))
  = List.filter has_both_fields
      (map container_item (List.filter (matches (ByClass (lit "g"))) l1))
    ++ List.filter has_both_fields
         (map container_item (List.filter (matches (ByClass (lit "g"))) l2)).
Proof. rewrite List.filter_app, List.map_app, List.filter_app. reflexivity. Qed.

(** X5. The links of a document are read in tree order: a text node gives
    none, and an element gives its own link, when it is a result container
    with both fields, followed by the links of its children in their
    order. *)
Theorem extract_links_tree_order :
  (forall data, extract_links (Text data) = [])
  /\ (forall tag attrs children,
         extract_links (Element tag attrs children)
         = own_link (Element tag attrs children)
           ++ flat_map extract_links children).
Proof.
  split; [reflexivity|].
  intros tag attrs children. rewrite extract_links_spec.
  unfold candidate_links_spec, querySelectorAll.
  cbn [subtree_elements].
  change (Element tag attrs children :: flat_map subtree_elements children)
    with ([Element tag attrs children]
          ++ flat_map subtree_elements children).
  rewrite links_of_elements_app. f_equal.
  - unfold own_link. cbn [List.filter].
    destruct (matches (ByClass (lit "g")) (Element tag attrs children));
      [|reflexivity].
    cbn [map List.filter andb].
    destruct (has_both_fields (container_item (Element tag attrs children)));
      reflexivity.
  - induction children as [|child children IH]; [reflexivity|].
    cbn [flat_map]. rewrite links_of_elements_app, IH. f_equal.
    rewrite extract_links_spec. reflexivity.
Qed.

(** ** A visit and a result page, call by call *)

Section FurtherProperties.

Variable toMarkdown : js_string -> js_string.

Ltac unfold_calls :=
  unfold visit_outcome, visit_events, search_outcome, search_events,
    pages_opened, visitLink, search_page, bind, newPage, interceptRequest,
    applyStealthScripts, goto, addScriptTag, evaluate_article, evaluate_links,
    page_close, rejects_with, emit, record, ret, throw, initial_state.

Ltac case_calls pb :=
  destruct (newPage_error pb), (applyStealthScripts_error pb),
    (setRequestInterception_error pb), (goto_error pb),
    (addScriptTag_error pb), (evaluate_error pb), (close_error pb).

Ltac elem_cases H :=
  repeat (apply elem_of_cons in H as [H|H];
          [try discriminate H; try (injection H as <- <-; auto)|]);
  try (apply elem_of_nil in H; contradiction).

(** X6. The events of a visit are a beginning of: page opened, navigation
    to the url given, page closed, content logged.  They are all there
    exactly when the visit succeeds, and the visit navigates nowhere but to
    its url. *)
Theorem visit_trace_shape (pb : page_behaviour) (url : js_string)
    (page : page_id) :
  let full :=
    [ENewPage page; EGoto page url; EPageClose page;
     ELogContent (toMarkdown (or_empty (a_content <$> readability pb)))] in
  visit_events toMarkdown pb url page `prefix_of` full
  /\ (visit_events toMarkdown pb url page = full
      <-> exists v, visit_outcome toMarkdown pb url = Normal v)
  /\ (forall p u, EGoto p u ∈ visit_events toMarkdown pb url page ->
                  p = page /\ u = url).
Proof.
  unfold_calls. case_calls pb; simpl; (split; [|split]);
    try (eexists; reflexivity);
    try (split; [intros H; discriminate H|intros [v H]; discriminate H]);
    try (split; [intros _; eexists; reflexivity|reflexivity]);
    intros p u H; elem_cases H.
Qed.

(** X7. What a successful visit returns: the url it was given, the
    conversion of the article content (of the empty string without
    article), and as title the title of the article, or the title of the
    document when the article has none; the title is empty only when both
    are. *)
Theorem visit_result_fields (pb : page_behaviour) (url : js_string)
    (v : VisitResult) :
  visit_outcome toMarkdown pb url = Normal v ->
  v_url v = url
  /\ v_content v = toMarkdown (or_empty (a_content <$> readability pb))
  /\ (forall a, readability pb = Some a -> a_title a <> [] ->
                v_title v = a_title a)
  /\ (or_empty (a_title <$> readability pb) = [] ->
      v_title v = document_title pb)
  /\ (v_title v = []
      <-> or_empty (a_title <$> readability pb) = []
          /\ document_title pb = []).
Proof.
  intros H. apply visit_outcome_success in H
    as (_ & _ & _ & _ & _ & _ & _ & ->). simpl.
  split; [reflexivity|]. split; [reflexivity|]. split; [|split].
  - intros a -> Ha. simpl. destruct (a_title a); [contradiction|reflexivity].
  - intros ->. reflexivity.
  - destruct (or_empty (a_title <$> readability pb)) as [|c t]; simpl.
    + split; [auto|intros [_ H]; exact H].
    + split; [discriminate|intros [H _]; discriminate].
Qed.

(** X8. A query that cannot be encoded makes [search] reject with the
    encoding error once its page is open and set up: the page is opened,
    nothing is navigated to and nothing is logged. *)
Theorem search_rejects_unencodable (pb : page_behaviour)
    (opts : search_options) (page : page_id) :
  search_url (so_query opts) (so_maxResults opts) = None ->
  newPage_error pb = None ->
  applyStealthScripts_error pb = None ->
  setRequestInterception_error pb = None ->
  search_outcome pb opts = Throw URIError
  /\ search_events pb opts page = [ENewPage page].
Proof.
  intros Hu Hn Ha Hs. unfold_calls. rewrite Hu, Hn, Ha, Hs. split; reflexivity.
Qed.

(** X9. The events of the result page are a beginning of: page opened,
    navigation to the search URL, links logged under the text of the
    query.  They are all there exactly when the links are returned, and the
    page is navigated nowhere but to the search URL. *)
Theorem search_trace_shape (pb : page_behaviour) (opts : search_options)
    (page : page_id) (u : js_string) :
  search_url (so_query opts) (so_maxResults opts) = Some u ->
  let full :=
    [ENewPage page; EGoto page u;
     ELogLinks (so_query opts) (extract_links (page_document pb))] in
  search_events pb opts page `prefix_of` full
  /\ (search_events pb opts page = full
      <-> search_outcome pb opts = Normal (extract_links (page_document pb)))
  /\ (forall p u', EGoto p u' ∈ search_events pb opts page ->
                   p = page /\ u' = u).
Proof.
  intros Hu. unfold_calls. rewrite Hu.
  case_calls pb; simpl; (split; [|split]);
    try (eexists; reflexivity);
    try (split; [intros H; discriminate H|intros H; discriminate H]);
    try (split; reflexivity);
    intros p u' H; elem_cases H.
Qed.

(** X10. The cap is not applied to the links: the links returned are those
    of the page whatever the cap, as many as the page gives, one at most
    per result container. *)
Theorem links_ignore_cap (pb : page_behaviour) (text : js_string)
    (m1 m2 : option Z) :
  search_outcome pb {| so_query := text; so_maxResults := m1 |}
  = search_outcome pb {| so_query := text; so_maxResults := m2 |}
  /\ (forall links,
         search_outcome pb {| so_query := text; so_maxResults := m1 |}
         = Normal links ->
         links = extract_links (page_document pb)
         /\ length links
            <= length (querySelectorAll (ByClass (lit "g"))
                         (page_document pb))).
Proof.
  assert (Hlen : length (extract_links (page_document pb))
                 <= length (querySelectorAll (ByClass (lit "g"))
                              (page_document pb))).
  { rewrite extract_links_spec. unfold candidate_links_spec.
    etransitivity; [apply List.filter_length_le|].
    rewrite length_map. reflexivity. }
  unfold_calls. unfold search_url. simpl.
  destruct (URI.encodeURIComponent (stripQuotes text)); simpl;
    case_calls pb; simpl; (split; [reflexivity|]);
    intros links H; try discriminate H;
    injection H as <-; (split; [reflexivity|exact Hlen]).
Qed.

End FurtherProperties.

Lemma visit_result_fields_witness :
  exists v,
    visit_outcome (fun s => s) article_page (lit "https://rocq-prover.org/")
    = Normal v
    /\ v_url v = lit "https://rocq-prover.org/".
Proof.
  eexists. split; [reflexivity|].
  refine (proj1 (visit_result_fields (fun s => s) article_page
                   (lit "https://rocq-prover.org/") _ _)).
  reflexivity.
Defined.

Lemma search_rejects_unencodable_witness :
  search_url [55357%N] None = None
  /\ search_outcome results_page
       {| so_query := [55357%N]; so_maxResults := None |}
     = Throw URIError.
Proof.
  split; [reflexivity|].
  refine (proj1 (search_rejects_unencodable results_page
                   {| so_query := [55357%N]; so_maxResults := None |} 0
                   _ _ _ _)); reflexivity.
Defined.

Lemma search_trace_shape_witness :
  search_events results_page sample_search 0
  `prefix_of`
  [ENewPage 0;
   EGoto 0 (SEARCH_PREFIX ++ lit "proof%20assistant" ++ lit "&num=5");
   ELogLinks (so_query sample_search)
     (extract_links (page_document results_page))].
Proof.
  refine (proj1 (search_trace_shape results_page sample_search 0
                   (SEARCH_PREFIX ++ lit "proof%20assistant" ++ lit "&num=5")
                   _)).
  reflexivity.
Defined.

(** ** Whole runs *)

Section RunProperties.

Variable toMarkdown : js_string -> js_string.

Lemma count_cons (f : event -> bool) (e : event) (l : list event) :
  count f (e :: l) = (if f e then 1 else 0) + count f l.
Proof. unfold count. simpl. destruct (f e); reflexivity. Qed.

Lemma count_task_events (l : list event) (q i : nat) :
  forallb is_task_event l = true ->
  count (is_queue_add q i) l = 0 /\ count (is_visit_settled q i) l = 0.
Proof.
  intros Hl. split; apply count_none; intros e He;
    pose proof (task_event_elem l e Hl He) as H; destruct e;
    try discriminate H; reflexivity.
Qed.

Lemma count_queue_adds_from (q q' i : nat) (links : list SearchResult) :
  forall n,
    count (is_queue_add q' i)
      (imap (fun j item => EQueueAdd q (n + j) (sr_url item)) links)
    = if decide (q' = q /\ n <= i < n + length links) then 1 else 0.
Proof.
  induction links as [|link links IH]; intros n.
  - simpl. case_decide; [lia|reflexivity].
  - rewrite imap_cons, count_cons.
    rewrite (imap_ext _ (fun j item => EQueueAdd q (S n + j) (sr_url item)))
      by (intros; simpl; f_equal; lia).
    rewrite IH. simpl.
    destruct (Nat.eqb_spec q q'), (Nat.eqb_spec (n + 0) i); simpl;
      repeat case_decide; lia.
Qed.

Lemma count_queue_adds (q q' i : nat) (links : list SearchResult) :
  count (is_queue_add q' i) (queue_adds q links)
  = (if decide (q' = q /\ i < length links) then 1 else 0)
  /\ count (is_visit_settled q' i) (queue_adds q links) = 0.
Proof.
  split.
  - unfold queue_adds.
    rewrite (imap_ext _ (fun j item => EQueueAdd q (0 + j) (sr_url item)))
      by reflexivity.
    rewrite count_queue_adds_from. repeat case_decide; lia.
  - apply count_none. intros e He.
    apply queue_adds_elem in He as (j & item & _ & ->). reflexivity.
Qed.

Lemma visit_inv_ext (q : nat) (p : pipeline) (tr tr' : list event) :
  (forall i, count (is_queue_add q i) tr' = count (is_queue_add q i) tr
             /\ count (is_visit_settled q i) tr'
                = count (is_visit_settled q i) tr) ->
  visit_inv q p tr -> visit_inv q p tr'.
Proof.
  intros H. destruct p as [|links slots| |e]; simpl.
  - intros Hinv i. destruct (H i) as [-> ->]. apply Hinv.
  - intros [Hlen Hinv]. split; [exact Hlen|]. intros i.
    destruct (H i) as [-> ->]. apply Hinv.
  - intros Hinv i. destruct (H i) as [-> ->]. apply Hinv.
  - intros Hinv i. destruct (H i) as [-> ->]. apply Hinv.
Qed.

Lemma transition_other_counts (q : nat) (opts : search_options)
    (page : page_id) (t : task) (pb : page_behaviour) (p p' : pipeline)
    (evs : list event) (q' : nat) :
  pipe_transition toMarkdown q opts page t pb p p' evs ->
  q' <> q ->
  forall i, count (is_queue_add q' i) evs = 0
            /\ count (is_visit_settled q' i) evs = 0.
Proof.
  intros Htr Hne i.
  destruct (transition_events toMarkdown _ _ _ _ _ _ _ _ Htr) as (Hev & _).
  split; apply count_none; intros e He; specialize (Hev e He);
    destruct e; try reflexivity; simpl in *;
    apply Nat.eqb_eq in Hev; subst;
    apply andb_false_intro1; apply Nat.eqb_neq; congruence.
Qed.

Lemma visits_inv_step (searches : list search_options)
    (sched0 : list (nat * task * page_behaviour)) (q : nat)
    (opts : search_options) (t : task) (pb : page_behaviour)
    (p p' : pipeline) (evs : list event) (pipes : list pipeline)
    (st : state) :
  (q, t, pb) ∈ sched0 ->
  searches !! q = Some opts ->
  pipes !! q = Some p ->
  first_rejection pipes = None ->
  visits_inv pipes st ->
  pipe_transition toMarkdown q opts (next_page st) t pb p p' evs ->
  visits_inv (<[q := p']> pipes)
    {| next_page := next_page st + pages_opened pb;
       trace := trace st ++ evs |}.
Proof.
  intros _ _ Hp _ [Hpipes Hout] Htrans.
  assert (Hq : q < length pipes) by (apply lookup_lt_is_Some; eauto).
  split; simpl.
  2: { intros q' Hq' i. rewrite length_insert in Hq'. rewrite !count_app.
       destruct (Hout q' Hq' i) as [-> ->].
       destruct (transition_other_counts _ _ _ _ _ _ _ _ q' Htrans
                   ltac:(lia) i) as [-> ->]. auto. }
  intros q' p'' Hq'.
  apply list_lookup_insert_Some in Hq' as [(<- & <- & _)|(Hne & Hq')].
  2: { eapply visit_inv_ext; [|exact (Hpipes q' p'' Hq')].
       intros i. rewrite !count_app.
       destruct (transition_other_counts _ _ _ _ _ _ _ _ q' Htrans
                   ltac:(congruence) i) as [-> ->]. lia. }
  pose proof (Hpipes q p Hp) as Hinv.
  destruct Htrans as
    [pb e Hs|pb Hs|pb links Hs Hne|pb links slots i item o Hl Hsl Ho Ha
    |pb links slots i item o finalResults Hl Hsl Ho Ha]; simpl in *.
  - intros i. rewrite !count_app.
    destruct (Hinv i) as [-> ->].
    destruct (count_task_events _ q i (search_events_task pb opts (next_page st)))
      as [-> ->].
    split; reflexivity.
  - intros i. rewrite !count_app.
    destruct (Hinv i) as [-> ->].
    destruct (count_task_events _ q i (search_events_task pb opts (next_page st)))
      as [-> ->].
    unfold count. simpl. lia.
  - split; [apply length_replicate|]. intros i. rewrite !count_app.
    destruct (Hinv i) as [-> ->].
    destruct (count_task_events _ q i (search_events_task pb opts (next_page st)))
      as [-> ->].
    destruct (count_queue_adds q q i links) as [-> ->]. split.
    + repeat case_decide; try lia; intuition lia.
    + destruct (replicate (length links) None !! i) as [s|] eqn:E;
        [|reflexivity].
      apply lookup_replicate in E as [-> _]. reflexivity.
  - destruct Hinv as [Hlen Hinv]. split; [rewrite length_insert; exact Hlen|].
    intros j. rewrite !count_app. destruct (Hinv j) as [-> ->].
    destruct (count_task_events _ q j
                (visit_events_task toMarkdown pb (sr_url item) (next_page st))) as [-> ->].
    rewrite !count_cons. unfold count at 1 2. simpl.
    rewrite Nat.eqb_refl. simpl. split; [lia|].
    destruct (Nat.eqb_spec i j) as [<-|Hij].
    + rewrite Hsl, list_lookup_insert_eq; [reflexivity|].
      apply lookup_lt_is_Some. eauto.
    + rewrite list_lookup_insert_ne by exact Hij. lia.
  - destruct Hinv as [Hlen Hinv].
    intros j. rewrite !count_app. destruct (Hinv j) as [-> ->].
    destruct (count_task_events _ q j
                (visit_events_task toMarkdown pb (sr_url item) (next_page st))) as [-> ->].
    rewrite !count_cons. unfold count at 1 2. simpl.
    rewrite Nat.eqb_refl. simpl.
    assert (Hi : i < length links) by (apply lookup_lt_is_Some; eauto).
    split; [|unfold count; simpl; case_decide; lia].
    destruct (Nat.eqb_spec i j) as [<-|Hij].
    + rewrite Hsl. case_decide; lia.
    + case_decide as Hj.
      * destruct (all_settled_lookup _ _ j Ha) as (o' & Ho' & _).
        { rewrite length_insert. lia. }
        rewrite list_lookup_insert_ne in Ho' by exact Hij.
        rewrite Ho'. reflexivity.
      * rewrite (lookup_ge_None_2 slots j) by lia. reflexivity.
Qed.

Lemma visit_inv_bound (q : nat) (p : pipeline) (tr : list event) (i : nat) :
  visit_inv q p tr ->
  count (is_visit_settled q i) tr <= count (is_queue_add q i) tr
  /\ count (is_queue_add q i) tr <= 1
  /\ (p = SearchFulfilled ->
      count (is_visit_settled q i) tr = count (is_queue_add q i) tr).
Proof.
  destruct p as [|links slots| |e]; simpl.
  - intros H. destruct (H i) as [-> ->]. repeat split; lia.
  - intros [Hlen H]. destruct (H i) as [-> ->].
    split; [|split; [case_decide; lia|discriminate]].
    destruct (slots !! i) as [[o|]|] eqn:E; try lia.
    apply lookup_lt_Some in E. case_decide; lia.
  - intros H. destruct (H i) as [-> Hle]. repeat split; lia.
  - intros H. destruct (H i) as [-> ->]. repeat split; lia.
Qed.

Lemma search_calls_queries (o : options) :
  so_query <$> search_calls o = queries_of (query o).
Proof.
  unfold search_calls.
  generalize (per_query_maxResults (maxResults o)
                (length (queries_of (query o)))) as m.
  intros m. induction (queries_of (query o)) as [|x l IH]; [reflexivity|].
  simpl. f_equal. exact IH.
Qed.

Lemma search_calls_length (o : options) :
  length (search_calls o) = length (queries_of (query o)).
Proof. unfold search_calls. apply length_map. Qed.

(** The ledger of the visits at the end of the wait of [Promise.all]. *)
Lemma promise_all_ledger (searches : list search_options)
    (sched : list (nat * task * page_behaviour)) :
  exists pipes',
    visits_inv pipes'
      (promise_all toMarkdown searches sched
         (replicate (length searches) Searching)
         (record EBrowserLaunch initial_state)).2
    /\ length pipes' = length searches
    /\ match (promise_all toMarkdown searches sched
                (replicate (length searches) Searching)
                (record EBrowserLaunch initial_state)).1 with
       | Some (Normal _) =>
           Forall (fun p => p = SearchFulfilled) pipes'
           /\ first_rejection pipes' = None
       | Some (Throw e) => first_rejection pipes' = Some e
       | None => True
       end.
Proof.
  destruct (promise_all_invariant toMarkdown visits_inv searches sched) with
    (sched := sched) (pipes := replicate (length searches) Searching)
    (st := record EBrowserLaunch initial_state)
    as (pipes' & H1 & H2 & H3).
  - intros q opts t pb p p' evs pipes st Hin Hopts Hp Hrej Hv Htr.
    eapply visits_inv_step; eauto.
  - auto.
  - split; simpl.
    + intros q p H. apply lookup_replicate in H as [-> _]. simpl.
      intros i. split; reflexivity.
    + intros q _ i. split; reflexivity.
  - exists pipes'. rewrite length_replicate in H2. auto.
Qed.

(** X11. In every run a link goes on the queue at most once and its visit
    runs at most once, and only when it has been queued; when the run
    returns normally every queued visit has run. *)
Theorem queued_visits_run_once (o : options) (env : environment) (q i : nat) :
  let tr := trace (main toMarkdown o env).2 in
  count (is_visit_settled q i) tr <= count (is_queue_add q i) tr
  /\ count (is_queue_add q i) tr <= 1
  /\ ((main toMarkdown o env).1 = Some 0%Z ->
      count (is_visit_settled q i) tr = count (is_queue_add q i) tr).
Proof.
  intros tr. subst tr.
  destruct (main_cases toMarkdown o env)
    as [(e & ->)|[(e & ->)|(Hq & Hl & Hn)]];
    [unfold count; simpl; repeat split; lia
    |unfold count; simpl; repeat split; lia|].
  rewrite (main_launched toMarkdown o env Hq Hl Hn).
  destruct (promise_all_ledger (search_calls o) (schedule env))
    as (pipes & (Hin & Hout) & Hlen & Hres).
  assert (Hb : forall st,
             (forall q p, pipes !! q = Some p -> visit_inv q p (trace st)) ->
             (forall q, length pipes <= q ->
                        forall i, count (is_queue_add q i) (trace st) = 0
                                  /\ count (is_visit_settled q i) (trace st)
                                     = 0) ->
             count (is_visit_settled q i) (trace st)
             <= count (is_queue_add q i) (trace st)
             /\ count (is_queue_add q i) (trace st) <= 1
             /\ (Forall (fun p => p = SearchFulfilled) pipes ->
                 count (is_visit_settled q i) (trace st)
                 = count (is_queue_add q i) (trace st))).
  { intros st H1 H2. destruct (pipes !! q) as [p|] eqn:Hp.
    - destruct (visit_inv_bound q p (trace st) i (H1 q p Hp))
        as (B1 & B2 & B3).
      split; [exact B1|]. split; [exact B2|]. intros Hall. apply B3.
      rewrite Forall_forall in Hall. apply Hall.
      eapply list_elem_of_lookup_2. exact Hp.
    - apply lookup_ge_None in Hp. destruct (H2 q Hp i) as [-> ->].
      repeat split; lia. }
  destruct (promise_all _ _ _ _ _) as [[[[]|e]|] st]; simpl in *;
    destruct (Hb st Hin Hout) as (B1 & B2 & B3);
    rewrite ?count_snoc; simpl.
  - destruct Hres as [Hall _]. specialize (B3 Hall).
    repeat split; lia.
  - split; [lia|]. split; [lia|]. discriminate.
  - split; [lia|]. split; [lia|]. discriminate.
Qed.

Lemma transition_final_log (q : nat) (opts : search_options) (page : page_id)
    (t : task) (pb : page_behaviour) (p p' : pipeline) (evs : list event) :
  pipe_transition toMarkdown q opts page t pb p p' evs ->
  is_search_fulfilled p = false
  /\ (logged_final evs).*1
     = (if is_search_fulfilled p' then [so_query opts] else []).
Proof.
  intros Htrans.
  destruct Htrans as
    [pb e Hs|pb Hs|pb links Hs Hne|pb links slots i item o Hl Hsl Ho Ha
    |pb links slots i item o finalResults Hl Hsl Ho Ha];
    (split; [reflexivity|]);
    rewrite logged_final_app;
    rewrite ?(logged_final_task _ (search_events_task pb opts page)),
      ?(logged_final_task _ (visit_events_task toMarkdown pb (sr_url item)
                               page)),
      ?logged_final_queue_adds;
    reflexivity.
Qed.

Lemma fulfilled_queries_insert (searches : list search_options)
    (pipes : list pipeline) (q : nat) (opts : search_options)
    (p p' : pipeline) :
  searches !! q = Some opts ->
  pipes !! q = Some p ->
  is_search_fulfilled p = false ->
  fulfilled_queries searches (<[q := p']> pipes)
  ≡ₚ (if is_search_fulfilled p' then [so_query opts] else [])
     ++ fulfilled_queries searches pipes.
Proof.
  unfold fulfilled_queries.
  revert pipes q. induction searches as [|s searches IH];
    intros pipes q Hs Hp Hf; [discriminate|].
  destruct pipes as [|x pipes]; [discriminate|].
  destruct q as [|q]; simpl in *.
  - injection Hs as ->. injection Hp as ->. rewrite Hf.
    destruct (is_search_fulfilled p'); reflexivity.
  - specialize (IH pipes q Hs Hp Hf).
    destruct (is_search_fulfilled x); simpl.
    + rewrite IH. destruct (is_search_fulfilled p'); simpl; [|reflexivity].
      apply perm_swap.
    + exact IH.
Qed.

Lemma fulfilled_queries_sublist (searches : list search_options)
    (pipes : list pipeline) :
  fulfilled_queries searches pipes `sublist_of` so_query <$> searches.
Proof.
  unfold fulfilled_queries.
  revert pipes. induction searches as [|s searches IH]; intros pipes.
  - constructor.
  - destruct pipes as [|x pipes]; simpl; [apply sublist_nil_l|].
    destruct (is_search_fulfilled x); simpl.
    + apply sublist_skip. apply IH.
    + apply sublist_cons. apply IH.
Qed.

Lemma fulfilled_queries_all (searches : list search_options)
    (pipes : list pipeline) :
  length pipes = length searches ->
  Forall (fun p => p = SearchFulfilled) pipes ->
  fulfilled_queries searches pipes = so_query <$> searches.
Proof.
  unfold fulfilled_queries.
  revert pipes. induction searches as [|s searches IH]; intros pipes Hlen Hall.
  - reflexivity.
  - destruct pipes as [|x pipes]; [discriminate|].
    inversion Hall as [|? ? -> Hall']; subst. simpl.
    rewrite IH; auto.
Qed.

Lemma fulfilled_queries_initial (searches : list search_options) (n : nat) :
  fulfilled_queries searches (replicate n Searching) = [].
Proof.
  unfold fulfilled_queries.
  revert n. induction searches as [|s searches IH]; intros [|n];
    try reflexivity. simpl. apply IH.
Qed.

Lemma final_logs_inv_step (searches : list search_options)
    (sched0 : list (nat * task * page_behaviour)) (q : nat)
    (opts : search_options) (t : task) (pb : page_behaviour)
    (p p' : pipeline) (evs : list event) (pipes : list pipeline)
    (st : state) :
  (q, t, pb) ∈ sched0 ->
  searches !! q = Some opts ->
  pipes !! q = Some p ->
  first_rejection pipes = None ->
  final_logs_inv searches pipes st ->
  pipe_transition toMarkdown q opts (next_page st) t pb p p' evs ->
  final_logs_inv searches (<[q := p']> pipes)
    {| next_page := next_page st + pages_opened pb;
       trace := trace st ++ evs |}.
Proof.
  intros _ Hopts Hp _ Hinv Htrans. unfold final_logs_inv in *. simpl.
  destruct (transition_final_log _ _ _ _ _ _ _ _ Htrans) as [Hf Hlog].
  rewrite logged_final_app, fmap_app, Hlog, Hinv.
  rewrite (fulfilled_queries_insert searches pipes q opts p p' Hopts Hp Hf).
  apply Permutation_app_comm.
Qed.

(** One pipeline over its whole schedule: its events are its own, and it
    logs its final result when it fulfils and at no other time. *)
Lemma search_run_events (q : nat) (opts : search_options)
    (sched : list (task * page_behaviour)) :
  forall (p : pipeline) (st : state),
    exists evs,
      trace (search_run toMarkdown q opts sched p st).2 = trace st ++ evs
      /\ (forall e, e ∈ evs -> is_pipeline_event q e = true)
      /\ (if is_search_fulfilled p then [so_query opts] else [])
         ++ (logged_final evs).*1
         = (if is_search_fulfilled
                 (search_run toMarkdown q opts sched p st).1
            then [so_query opts] else []).
Proof.
  induction sched as [|[t pb] sched IH]; intros p st.
  - exists []. simpl. rewrite !app_nil_r. split; [reflexivity|].
    split; [|reflexivity]. intros e H. inversion H.
  - cbn [search_run].
    destruct (search_step_spec toMarkdown q opts t pb p st)
      as [->|(p' & evs & Htrans & ->)].
    + apply IH.
    + destruct (IH p' {| next_page := next_page st + pages_opened pb;
                         trace := trace st ++ evs |})
        as (evs' & Htr & Hev & Hlog).
      simpl in Htr.
      destruct (transition_final_log _ _ _ _ _ _ _ _ Htrans) as [Hf Hl].
      destruct (transition_events toMarkdown _ _ _ _ _ _ _ _ Htrans)
        as (Hpipe & _).
      exists (evs ++ evs'). split; [|split].
      * rewrite Htr, app_assoc. reflexivity.
      * intros e He. apply elem_of_app in He as [He|He]; auto.
      * rewrite Hf. rewrite logged_final_app, fmap_app, Hl. exact Hlog.
Qed.

Lemma console_error_suffix (l pre post : list event) (x shown : _) :
  count is_console_error l = 0 ->
  l ++ [EConsoleError x] = pre ++ EConsoleError shown :: post ->
  pre = l.
Proof.
  revert pre. induction l as [|a l IH]; intros pre Hc H.
  - destruct pre as [|b pre]; [reflexivity|].
    simpl in H. injection H as _ H. destruct pre; discriminate H.
  - destruct pre as [|b pre]; simpl in H.
    + injection H as -> _. unfold count in Hc. simpl in Hc. discriminate Hc.
    + injection H as -> H. f_equal. apply IH; [|exact H].
      unfold count in *. simpl in Hc. destruct (is_console_error b);
        simpl in Hc; [discriminate|exact Hc].
Qed.

Lemma no_console_error_decomposition (l pre post : list event) (shown : _) :
  count is_console_error l = 0 ->
  l <> pre ++ EConsoleError shown :: post.
Proof.
  intros Hc ->. rewrite count_app in Hc. unfold count in Hc. simpl in Hc. lia.
Qed.

(** X12. Up to the end of [main] the texts of the final logs are among the
    queries, none more often than it is given: at most one final log per
    query; when the run returns normally they are the queries, one log for
    each.  A call of [search], over all of its schedule and so also past
    the end of [main], logs its final result once when it fulfils and never
    otherwise, under its query as given, not stripped. *)
Theorem final_logs_per_query (o : options) (env : environment) :
  let tr := trace (main toMarkdown o env).2 in
  let texts := (logged_final tr).*1 in
  texts ⊆+ queries_of (query o)
  /\ ((main toMarkdown o env).1 = Some 0%Z ->
      texts ≡ₚ queries_of (query o))
  /\ (forall q opts sched st,
         let run := search toMarkdown q opts sched st in
         exists evs,
           trace run.2 = trace st ++ evs
           /\ (logged_final evs).*1
              = (if is_search_fulfilled run.1 then [so_query opts] else [])).
Proof.
  intros tr texts. subst tr texts.
  split; [|split].
  3: { intros q opts sched st run. subst run. unfold search.
       destruct (search_run_events q opts sched Searching st)
         as (evs & Htr & _ & Hlog).
       exists evs. split; [exact Htr|exact Hlog]. }
  all: destruct (main_cases toMarkdown o env)
    as [(e & ->)|[(e & ->)|(Hq & Hl & Hn)]];
    try (simpl; first [apply submseteq_nil_l|discriminate]).
  all: rewrite (main_launched toMarkdown o env Hq Hl Hn).
  all: destruct (promise_all_invariant toMarkdown
              (final_logs_inv (search_calls o))
              (search_calls o) (schedule env)) with
    (sched := schedule env)
    (pipes := replicate (length (search_calls o)) Searching)
    (st := record EBrowserLaunch initial_state)
    as (pipes & Hinv & Hlen & Hres);
    [intros q opts t pb p p' evs pipes st; apply final_logs_inv_step
    |auto
    |unfold final_logs_inv; simpl; rewrite fulfilled_queries_initial;
     reflexivity
    |].
  all: rewrite length_replicate in Hlen; unfold final_logs_inv in Hinv.
  all: pose proof (fulfilled_queries_sublist (search_calls o) pipes) as Hsub;
    rewrite search_calls_queries in Hsub.
  all: destruct (promise_all _ _ _ _ _) as [[[[]|e]|] st]; simpl in *;
    rewrite ?logged_final_app; simpl; rewrite ?app_nil_r;
    try discriminate.
  - rewrite Hinv. apply sublist_submseteq. exact Hsub.
  - rewrite Hinv. apply sublist_submseteq. exact Hsub.
  - rewrite Hinv. apply sublist_submseteq. exact Hsub.
  - intros _. destruct Hres as [Hall _].
    rewrite Hinv, (fulfilled_queries_all _ _ Hlen Hall).
    rewrite search_calls_queries. reflexivity.
Qed.

(** X13. A run prints an error exactly when it ends with exit code 1, and
    then prints one; a run ends with exit code 0 or 1 or does not end.
    When the browser was launched it is closed before the error is
    printed.  No call of [search] prints an error, over all of its
    schedule, so none is printed past the end of [main] either. *)
Theorem error_printed_iff_failure (o : options) (env : environment) :
  let tr := trace (main toMarkdown o env).2 in
  let code := (main toMarkdown o env).1 in
  (code = None \/ code = Some 0%Z \/ code = Some 1%Z)
  /\ count is_console_error tr = (if decide (code = Some 1%Z) then 1 else 0)
  /\ (forall pre shown post,
         tr = pre ++ EConsoleError shown :: post ->
         EBrowserLaunch ∈ pre ->
         EBrowserClose ∈ pre)
  /\ (forall q opts sched st,
         count is_console_error (trace (search toMarkdown q opts sched st).2)
         = count is_console_error (trace st)).
Proof.
  intros tr code. subst tr code.
  split; [|split; [|split]].
  4: { intros q opts sched st. unfold search.
       destruct (search_run_events q opts sched Searching st)
         as (evs & -> & Hev & _).
       rewrite count_app. rewrite (count_none is_console_error evs); [lia|].
       intros e He. specialize (Hev e He). destruct e; try reflexivity.
       discriminate Hev. }
  all: destruct (main_cases toMarkdown o env)
    as [(e & ->)|[(e & ->)|(Hq & Hl & Hn)]].
  all: try (simpl; auto; fail).
  - rewrite (main_launched toMarkdown o env Hq Hl Hn).
    destruct (promise_all _ _ _ _ _) as [[[[]|e]|] st]; simpl; auto.
  - rewrite (main_launched toMarkdown o env Hq Hl Hn).
    destruct (promise_all_run_inv toMarkdown (search_calls o) (schedule env))
      as (pipes & (_ & _ & (evs & Htr & Hevs) & _) & _).
    assert (Hcount : count is_console_error evs = 0).
    { apply count_none. intros e He. destruct (Hevs _ He) as (q & _ & H).
      destruct e; try reflexivity. discriminate H. }
    destruct (promise_all _ _ _ _ _) as [[[[]|e]|] st]; simpl in *;
      rewrite Htr; rewrite ?count_snoc, ?count_cons, ?Hcount; reflexivity.
  - simpl. intros pre shown post H Hin.
    destruct pre as [|b pre]; [apply elem_of_nil in Hin; contradiction|].
    simpl in H. injection H as _ H. destruct pre; discriminate H.
  - simpl. intros pre shown post H Hin.
    apply (console_error_suffix [EBrowserLaunch; EBrowserClose]) in H;
      [|reflexivity].
    subst pre. apply elem_of_cons. right. apply elem_of_cons. left.
    reflexivity.
  - rewrite (main_launched toMarkdown o env Hq Hl Hn).
    destruct (promise_all_run_inv toMarkdown (search_calls o) (schedule env))
      as (pipes & (_ & _ & (evs & Htr & Hevs) & _) & _).
    assert (Hcount : count is_console_error evs = 0).
    { apply count_none. intros e He. destruct (Hevs _ He) as (q & _ & H).
      destruct e; try reflexivity. discriminate H. }
    assert (Hcount' : count is_console_error (EBrowserLaunch :: evs) = 0).
    { rewrite count_cons, Hcount. reflexivity. }
    destruct (promise_all _ _ _ _ _) as [[[[]|e]|] st]; simpl in *;
      rewrite Htr; intros pre shown post H Hin.
    + exfalso. revert H. apply no_console_error_decomposition.
      rewrite count_snoc, Hcount'. reflexivity.
    + apply console_error_suffix in H.
      * subst pre. apply elem_of_app. right. apply list_elem_of_singleton.
        reflexivity.
      * rewrite count_snoc, Hcount'. reflexivity.
    + exfalso. revert H. apply no_console_error_decomposition. exact Hcount'.
Qed.

Lemma loaded_inv_step (searches : list search_options)
    (sched0 : list (nat * task * page_behaviour)) (q : nat)
    (opts : search_options) (t : task) (pb : page_behaviour)
    (p p' : pipeline) (evs : list event) (pipes : list pipeline)
    (st : state) :
  (q, t, pb) ∈ sched0 ->
  searches !! q = Some opts ->
  pipes !! q = Some p ->
  first_rejection pipes = None ->
  loaded_inv searches sched0 pipes ->
  pipe_transition toMarkdown q opts (next_page st) t pb p p' evs ->
  loaded_inv searches sched0 (<[q := p']> pipes).
Proof.
  intros Hin Hopts Hp _ Hinv Htrans q' p'' Hq' Hstate.
  apply list_lookup_insert_Some in Hq' as [(<- & <- & _)|(Hne & Hq')];
    [|exact (Hinv q' p'' Hq' Hstate)].
  destruct Htrans as
    [pb e Hs|pb Hs|pb links Hs Hne|pb links slots i item o Hl Hsl Ho Ha
    |pb links slots i item o finalResults Hl Hsl Ho Ha].
  - destruct Hstate as [H|(l & sl & H)]; discriminate H.
  - exists pb, opts, []. auto.
  - exists pb, opts, links. auto.
  - apply (Hinv q _ Hp). right. eauto.
  - apply (Hinv q _ Hp). right. eauto.
Qed.

(** X14. A run ends with exit code 0 only when it had a query, the browser
    and the queue, and the result page of every one of its queries was
    loaded and gave its links. *)
Theorem exit_zero_means_pages_loaded (o : options) (env : environment) :
  (main toMarkdown o env).1 = Some 0%Z ->
  query_missing (query o) = false
  /\ launch_error env = None
  /\ queue_error env = None
  /\ (forall q opts,
         search_calls o !! q = Some opts ->
         exists pb links,
           (q, TSearch, pb) ∈ schedule env
           /\ search_outcome pb opts = Normal links).
Proof.
  destruct (main_cases toMarkdown o env)
    as [(e & ->)|[(e & ->)|(Hq & Hl & Hn)]]; [discriminate|discriminate|].
  rewrite (main_launched toMarkdown o env Hq Hl Hn). intros Hcode.
  split; [exact Hq|]. split; [exact Hl|]. split; [exact Hn|].
  destruct (promise_all_invariant toMarkdown
              (fun pipes _ => loaded_inv (search_calls o) (schedule env) pipes)
              (search_calls o) (schedule env)) with
    (sched := schedule env)
    (pipes := replicate (length (search_calls o)) Searching)
    (st := record EBrowserLaunch initial_state)
    as (pipes & Hinv & Hlen & Hres).
  - intros q opts t pb p p' evs pipes st. apply loaded_inv_step.
  - auto.
  - intros q p H. apply lookup_replicate in H as [-> _].
    intros [H|(l & sl & H)]; discriminate H.
  - rewrite length_replicate in Hlen.
    destruct (promise_all _ _ _ _ _) as [[[[]|e]|] st]; simpl in *;
      try discriminate Hcode.
    destruct Hres as [Hall _]. intros q opts Hopts.
    assert (Hlt : q < length pipes).
    { rewrite Hlen. apply lookup_lt_is_Some. eauto. }
    destruct (lookup_lt_is_Some_2 pipes q Hlt) as (p & Hp).
    assert (p = SearchFulfilled) as ->.
    { rewrite Forall_forall in Hall. apply Hall.
      eapply list_elem_of_lookup_2. exact Hp. }
    destruct (Hinv q _ Hp (or_introl eq_refl))
      as (pb & opts' & links & Hin & Hopts' & Hload).
    rewrite Hopts in Hopts'. injection Hopts' as <-. eauto.
Qed.
End RunProperties.

Lemma exit_zero_means_pages_loaded_witness :
  (main (fun s => s) (sample_options ["rocq"] None) sample_environment).1
  = Some 0%Z
  /\ query_missing (query (sample_options ["rocq"] None)) = false.
Proof.
  split; [reflexivity|].
  refine (proj1 (exit_zero_means_pages_loaded (fun s => s)
                   (sample_options ["rocq"] None) sample_environment _)).
  reflexivity.
Defined.
